(** * Double-pendulum simulation: integrator, simulation actor, chaos map

    A shallow embedding of [utils/physics.ts] (the derivative function, the
    RK4 step and the [PendulumSimulation] class) and of the per-pixel and
    batching code of [components/VelocityChaosFractalVisualizer.tsx]; then of
    the callers of the class: the key handler of [App], the pointer handlers
    and the drawing code of the map view, of [PhaseSpaceVisualizer],
    [VelocityPhaseSpaceVisualizer] and [RealSpaceVisualizer], and the
    stand-alone [components/DoublePendulum.tsx].

    Numbers.  A TypeScript [number] is read as the real number it denotes:
    arithmetic is exact, [Math.sin], [Math.cos] and [Math.sqrt] are the real
    functions, [Math.floor] is [Zfloor].  Rounding, overflow and NaN of the
    binary64 format are outside this reading; where the source divides, the
    divisor is exposed as a definition of its own so that its being non-zero
    can be stated.  Where a property turns on overflow, rounding or the
    special values, the same source lines are read a second time over the
    binary64 numbers of the kernel, in the module [B64].  Integer-valued
    quantities (pixel indices, step counts, colour channels, percentages) are
    in [Z]. *)

From Stdlib Require Import Reals ZArith List Bool Lia Lra Psatz.
From Stdlib Require String.
From Stdlib Require Floats.
Import ListNotations.

#[local] Open Scope R_scope.

(** ** types.ts *)

Record PendulumState : Type := mkState
  { theta1 : R; theta2 : R; omega1 : R; omega2 : R }.

Record PhysicsParams : Type := mkParams
  { l1 : R; l2 : R; m1 : R; m2 : R; g : R }.

(** The object returned by [getDerivatives]. *)
Record Derivatives : Type := mkDerivatives
  { dTheta1 : R; dTheta2 : R; dOmega1 : R; dOmega2 : R }.

(** ** utils/physics.ts: constants *)

Definition DEFAULT_PARAMS : PhysicsParams :=
  {| l1 := 150; l2 := 150; m1 := 20; m2 := 20; g := 1 |}.

Definition INITIAL_STATE : PendulumState :=
  {| theta1 := PI / 2; theta2 := PI / 2 + 1; omega1 := 0; omega2 := 0 |}.

(** ** utils/physics.ts: getDerivatives

    Each local [const] of the source is a definition of the same name. *)

Module Deriv.

Definition delta (state : PendulumState) : R :=
  theta1 state - theta2 state.

Definition den1 (state : PendulumState) (params : PhysicsParams) : R :=
  2 * m1 params + m2 params
  - m2 params * cos (2 * theta1 state - 2 * theta2 state).

Definition num1 (state : PendulumState) (params : PhysicsParams) : R :=
  - g params * (2 * m1 params + m2 params) * sin (theta1 state)
  - m2 params * g params * sin (theta1 state - 2 * theta2 state)
  - 2 * sin (delta state) * m2 params
    * (omega2 state * omega2 state * l2 params
       + omega1 state * omega1 state * l1 params * cos (delta state)).

Definition alpha1 (state : PendulumState) (params : PhysicsParams) : R :=
  num1 state params / (l1 params * den1 state params).

Definition num2 (state : PendulumState) (params : PhysicsParams) : R :=
  2 * sin (delta state)
  * (omega1 state * omega1 state * l1 params * (m1 params + m2 params)
     + g params * (m1 params + m2 params) * cos (theta1 state)
     + omega2 state * omega2 state * l2 params * m2 params
       * cos (delta state)).

Definition den2 (state : PendulumState) (params : PhysicsParams) : R :=
  2 * m1 params + m2 params
  - m2 params * cos (2 * theta1 state - 2 * theta2 state).

Definition alpha2 (state : PendulumState) (params : PhysicsParams) : R :=
  num2 state params / (l2 params * den2 state params).

(** The two divisors of [getDerivatives]. *)
Definition divisor1 (state : PendulumState) (params : PhysicsParams) : R :=
  l1 params * den1 state params.

Definition divisor2 (state : PendulumState) (params : PhysicsParams) : R :=
  l2 params * den2 state params.

End Deriv.

Definition getDerivatives (state : PendulumState) (params : PhysicsParams)
  : Derivatives :=
  {| dTheta1 := omega1 state;
     dTheta2 := omega2 state;
     dOmega1 := Deriv.alpha1 state params;
     dOmega2 := Deriv.alpha2 state params |}.

(** No division of [getDerivatives] at [state] has a zero divisor. *)
Definition divisionsDefined (state : PendulumState) (params : PhysicsParams)
  : Prop :=
  Deriv.divisor1 state params <> 0 /\ Deriv.divisor2 state params <> 0.

(** ** utils/physics.ts: integrateRK4Step

    The intermediate objects [k1], [s2], [k2], [s3], [k3], [s4], [k4] of the
    source, each as a function of the arguments of the step. *)

Module RK4.

Definition k1 (state : PendulumState) (params : PhysicsParams) : Derivatives :=
  getDerivatives state params.

Definition s2 (state : PendulumState) (params : PhysicsParams) (dt : R)
  : PendulumState :=
  {| theta1 := theta1 state + dTheta1 (k1 state params) * dt * 0.5;
     theta2 := theta2 state + dTheta2 (k1 state params) * dt * 0.5;
     omega1 := omega1 state + dOmega1 (k1 state params) * dt * 0.5;
     omega2 := omega2 state + dOmega2 (k1 state params) * dt * 0.5 |}.

Definition k2 (state : PendulumState) (params : PhysicsParams) (dt : R)
  : Derivatives :=
  getDerivatives (s2 state params dt) params.

Definition s3 (state : PendulumState) (params : PhysicsParams) (dt : R)
  : PendulumState :=
  {| theta1 := theta1 state + dTheta1 (k2 state params dt) * dt * 0.5;
     theta2 := theta2 state + dTheta2 (k2 state params dt) * dt * 0.5;
     omega1 := omega1 state + dOmega1 (k2 state params dt) * dt * 0.5;
     omega2 := omega2 state + dOmega2 (k2 state params dt) * dt * 0.5 |}.

Definition k3 (state : PendulumState) (params : PhysicsParams) (dt : R)
  : Derivatives :=
  getDerivatives (s3 state params dt) params.

Definition s4 (state : PendulumState) (params : PhysicsParams) (dt : R)
  : PendulumState :=
  {| theta1 := theta1 state + dTheta1 (k3 state params dt) * dt;
     theta2 := theta2 state + dTheta2 (k3 state params dt) * dt;
     omega1 := omega1 state + dOmega1 (k3 state params dt) * dt;
     omega2 := omega2 state + dOmega2 (k3 state params dt) * dt |}.

Definition k4 (state : PendulumState) (params : PhysicsParams) (dt : R)
  : Derivatives :=
  getDerivatives (s4 state params dt) params.

End RK4.

Definition integrateRK4Step
  (state : PendulumState) (params : PhysicsParams) (dt : R) : PendulumState :=
  let k1 := RK4.k1 state params in
  let k2 := RK4.k2 state params dt in
  let k3 := RK4.k3 state params dt in
  let k4 := RK4.k4 state params dt in
  {| theta1 := theta1 state
               + (dt / 6) * (dTheta1 k1 + 2 * dTheta1 k2 + 2 * dTheta1 k3
                             + dTheta1 k4);
     theta2 := theta2 state
               + (dt / 6) * (dTheta2 k1 + 2 * dTheta2 k2 + 2 * dTheta2 k3
                             + dTheta2 k4);
     omega1 := omega1 state
               + (dt / 6) * (dOmega1 k1 + 2 * dOmega1 k2 + 2 * dOmega1 k3
                             + dOmega1 k4);
     omega2 := omega2 state
               + (dt / 6) * (dOmega2 k1 + 2 * dOmega2 k2 + 2 * dOmega2 k3
                             + dOmega2 k4) |}.

(** The four evaluations of [getDerivatives] inside one step all divide by a
    non-zero divisor. *)
Definition stepDivisionsDefined
  (state : PendulumState) (params : PhysicsParams) (dt : R) : Prop :=
  divisionsDefined state params
  /\ divisionsDefined (RK4.s2 state params dt) params
  /\ divisionsDefined (RK4.s3 state params dt) params
  /\ divisionsDefined (RK4.s4 state params dt) params.

(** [n] successive calls of the step, each on the result of the one before. *)
Fixpoint repeatStep (n : nat) (state : PendulumState) (params : PhysicsParams)
  (dt : R) : PendulumState :=
  match n with
  | O => state
  | S n' => repeatStep n' (integrateRK4Step state params dt) params dt
  end.

(** ** VelocityChaosFractalVisualizer.tsx: constants *)

Definition FRACTAL_PARAMS : PhysicsParams :=
  {| l1 := 1.0; l2 := 1.0; m1 := 1.0; m2 := 1.0; g := 9.81 |}.

Definition zeroState : PendulumState :=
  {| theta1 := 0; theta2 := 0; omega1 := 0; omega2 := 0 |}.

(** ** Host functions

    [Math.round], [Math.pow] and the browser services the two components call,
    as far as the code below uses them. *)

Module JS.

(** [Math.round]: the nearest integer, halves towards plus infinity. *)
Definition Math_round (x : R) : Z := Zfloor (x + 0.5).

(** [Math.pow] for a positive exponent: [pow(0, y)] is [0] and [pow(x, y)] is
    [exp (y * ln x)] for a positive base.  A negative base with a fractional
    exponent has no real value (NaN in the source language); it gets [0]
    here, and the generator never passes one. *)
Definition Math_pow (x y : R) : R :=
  if Rlt_dec 0 x then Rpower x y else 0.

(** A JavaScript function either returns or throws. *)
Inductive Thrown : Type :=
| ConfigurationError.

Inductive Completion (A : Type) : Type :=
| Normal (value : A)
| Throw (error : Thrown).

Arguments Normal {A} value.
Arguments Throw {A} error.

(** Writing [v] at index [i] of a [Uint8ClampedArray]: the value is clamped to
    [0..255], an index outside the array is ignored. *)
Fixpoint listSet (data : list Z) (i : nat) (v : Z) : list Z :=
  match data, i with
  | [], _ => []
  | _ :: rest, O => v :: rest
  | d :: rest, S i' => d :: listSet rest i' v
  end.

Definition clampedSet (data : list Z) (i : Z) (v : Z) : list Z :=
  if (i <? 0)%Z then data
  else listSet data (Z.to_nat i) (Z.max 0 (Z.min 255 v)).

End JS.

(** ** utils/physics.ts: class PendulumSimulation

    A callback is known by its reference, a natural number here; calling it
    is an event of the log and has no effect on the simulation. *)

Definition Callback : Type := nat.

Inductive Event : Type :=
| HistoryDelivered (callback : Callback) (history : list PendulumState)
| ResetDelivered (callback : Callback)
| FrameRequested (handle : nat)
| FrameCancelled (handle : nat)
| SpeedLogged (speed : R).

(** The browser as the class sees it: the outcomes of [Math.random()], the
    handles of [requestAnimationFrame], and what has been emitted so far. *)
Record Host : Type := mkHost
  { randomSource : nat -> R;
    randomsDrawn : nat;
    nextHandle : nat;
    log : list Event }.

Record PendulumSimulation : Type := mkSim
  { state : PendulumState;
    initialState : PendulumState;
    params : PhysicsParams;
    subscribers : list Callback;
    resetListeners : list Callback;
    animationFrameId : option nat;
    isRunning : bool;
    speedMultiplier : R }.

(** [private baseStepsPerFrame: number = 40], never assigned again. *)
Definition baseStepsPerFrame : R := 40.

Module Sim.

(** *** Field assignments *)

Definition setState (s : PendulumState) (sim : PendulumSimulation) :=
  mkSim s (initialState sim) (params sim) (subscribers sim)
        (resetListeners sim) (animationFrameId sim) (isRunning sim)
        (speedMultiplier sim).

Definition setInitialState (s : PendulumState) (sim : PendulumSimulation) :=
  mkSim (state sim) s (params sim) (subscribers sim)
        (resetListeners sim) (animationFrameId sim) (isRunning sim)
        (speedMultiplier sim).

Definition setSubscribers (l : list Callback) (sim : PendulumSimulation) :=
  mkSim (state sim) (initialState sim) (params sim) l
        (resetListeners sim) (animationFrameId sim) (isRunning sim)
        (speedMultiplier sim).

Definition setResetListeners (l : list Callback) (sim : PendulumSimulation) :=
  mkSim (state sim) (initialState sim) (params sim) (subscribers sim)
        l (animationFrameId sim) (isRunning sim) (speedMultiplier sim).

Definition setAnimationFrameId (h : option nat) (sim : PendulumSimulation) :=
  mkSim (state sim) (initialState sim) (params sim) (subscribers sim)
        (resetListeners sim) h (isRunning sim) (speedMultiplier sim).

Definition setIsRunning (b : bool) (sim : PendulumSimulation) :=
  mkSim (state sim) (initialState sim) (params sim) (subscribers sim)
        (resetListeners sim) (animationFrameId sim) b (speedMultiplier sim).

Definition setSpeedMultiplier (x : R) (sim : PendulumSimulation) :=
  mkSim (state sim) (initialState sim) (params sim) (subscribers sim)
        (resetListeners sim) (animationFrameId sim) (isRunning sim) x.

(** *** Methods as actions on the simulation and its host *)

Definition World : Type := (PendulumSimulation * Host)%type.

Definition Action (A : Type) : Type := World -> A * World.

Definition ret {A : Type} (a : A) : Action A := fun w => (a, w).

Definition bind {A B : Type} (m : Action A) (k : A -> Action B) : Action B :=
  fun w => let (a, w') := m w in k a w'.

Declare Scope action_scope.
Delimit Scope action_scope with action.
Notation "x <- m ;; k" := (bind m (fun x => k))
  (at level 61, m at next level, right associativity) : action_scope.
Notation "m ;; k" := (bind m (fun _ => k))
  (at level 61, right associativity) : action_scope.
#[local] Open Scope action_scope.

Definition this : Action PendulumSimulation := fun w => (fst w, w).

Definition assign (f : PendulumSimulation -> PendulumSimulation)
  : Action unit :=
  fun w => (tt, (f (fst w), snd w)).

Definition emit (e : Event) : Action unit :=
  fun w =>
    let h := snd w in
    (tt, (fst w, mkHost (randomSource h) (randomsDrawn h) (nextHandle h)
                        (log h ++ [e]))).

Definition Math_random : Action R :=
  fun w =>
    let h := snd w in
    (randomSource h (randomsDrawn h),
     (fst w, mkHost (randomSource h) (S (randomsDrawn h)) (nextHandle h)
                    (log h))).

Definition requestAnimationFrame : Action nat :=
  fun w =>
    let h := snd w in
    (nextHandle h,
     (fst w, mkHost (randomSource h) (randomsDrawn h) (S (nextHandle h))
                    (log h ++ [FrameRequested (nextHandle h)]))).

Definition cancelAnimationFrame (handle : nat) : Action unit :=
  emit (FrameCancelled handle).

Fixpoint forEach {A : Type} (l : list A) (f : A -> Action unit)
  : Action unit :=
  match l with
  | [] => ret tt
  | x :: rest => f x ;; forEach rest f
  end.

(** [Set.prototype.add] and [Set.prototype.delete] on an insertion-ordered
    set of callback references. *)
Definition setAdd (cb : Callback) (l : list Callback) : list Callback :=
  if in_dec Nat.eq_dec cb l then l else l ++ [cb].

Definition setDelete (cb : Callback) (l : list Callback) : list Callback :=
  remove Nat.eq_dec cb l.

Definition new (initial : PendulumState) (p : PhysicsParams)
  : PendulumSimulation :=
  {| state := initial;
     initialState := initial;
     params := p;
     subscribers := [];
     resetListeners := [];
     animationFrameId := None;
     isRunning := false;
     speedMultiplier := 1 |}.

(** [new PendulumSimulation()] with both default arguments. *)
Definition newDefault : PendulumSimulation := new INITIAL_STATE DEFAULT_PARAMS.

Definition subscribe (callback : Callback) : Action unit :=
  sim <- this ;;
  assign (setSubscribers (setAdd callback (subscribers sim))).

(** The function returned by [subscribe]. *)
Definition unsubscribe (callback : Callback) : Action unit :=
  sim <- this ;;
  assign (setSubscribers (setDelete callback (subscribers sim))).

Definition addResetListener (callback : Callback) : Action unit :=
  sim <- this ;;
  assign (setResetListeners (setAdd callback (resetListeners sim))).

Definition removeResetListener (callback : Callback) : Action unit :=
  sim <- this ;;
  assign (setResetListeners (setDelete callback (resetListeners sim))).

Definition notify (history : list PendulumState) : Action unit :=
  sim <- this ;;
  forEach (subscribers sim) (fun callback =>
    emit (HistoryDelivered callback history)).

(** The [for] loop of [loop]: [n] iterations are left, [history] is the array
    built so far. *)
Fixpoint stepLoop (n : nat) (dt : R) (history : list PendulumState)
  : Action (list PendulumState) :=
  match n with
  | O => ret history
  | S n' =>
      sim <- this ;;
      assign (setState (integrateRK4Step (state sim) (params sim) dt)) ;;
      sim' <- this ;;
      stepLoop n' dt (history ++ [state sim'])
  end.

(** [steps] of [loop], as a function of the speed multiplier. *)
Definition stepsPerFrame (speed : R) : Z :=
  Z.max 1 (JS.Math_round (baseStepsPerFrame * speed)).

Definition loop : Action unit :=
  sim <- this ;;
  if negb (isRunning sim) then ret tt
  else
    let dt := 0.01 in
    let steps := stepsPerFrame (speedMultiplier sim) in
    history <- stepLoop (Z.to_nat steps) dt [state sim] ;;
    notify history ;;
    handle <- requestAnimationFrame ;;
    assign (setAnimationFrameId (Some handle)).

Definition start : Action unit :=
  sim <- this ;;
  if isRunning sim then ret tt
  else assign (setIsRunning true) ;; loop.

Definition stop : Action unit :=
  assign (setIsRunning false) ;;
  sim <- this ;;
  match animationFrameId sim with
  | Some handle =>
      cancelAnimationFrame handle ;; assign (setAnimationFrameId None)
  | None => ret tt
  end.

(** An omitted argument of [reset] is [None]. *)
Definition orElse (argument : option R) (fallback : R) : R :=
  match argument with
  | Some v => v
  | None => fallback
  end.

Definition allOmitted (a b c d : option R) : bool :=
  match a, b, c, d with
  | None, None, None, None => true
  | _, _, _, _ => false
  end.

Definition reset (theta1 theta2 omega1 omega2 : option R) : Action unit :=
  stop ;;
  sim <- this ;;
  let 'mkState initialTheta1 initialTheta2 initialOmega1 initialOmega2 :=
    initialState sim in
  let nextTheta1 := orElse theta1 initialTheta1 in
  let nextTheta2 := orElse theta2 initialTheta2 in
  let nextOmega1 := orElse omega1 initialOmega1 in
  let nextOmega2 := orElse omega2 initialOmega2 in
  (if allOmitted theta1 theta2 omega1 omega2 then
     r1 <- Math_random ;;
     r2 <- Math_random ;;
     assign (setState (mkState (PI / 2 + (r1 * 0.5 - 0.25))
                               (PI / 2 + 1 + (r2 * 0.5 - 0.25))
                               0
                               0))
   else
     assign (setState (mkState nextTheta1 nextTheta2 nextOmega1 nextOmega2))) ;;
  sim <- this ;;
  assign (setInitialState (state sim)) ;;
  sim <- this ;;
  forEach (resetListeners sim) (fun cb => emit (ResetDelivered cb)) ;;
  sim <- this ;;
  notify [state sim] ;;
  start.

Definition multiplySpeed (factor : R) : Action unit :=
  sim <- this ;;
  assign (setSpeedMultiplier (speedMultiplier sim * factor)) ;;
  sim <- this ;;
  emit (SpeedLogged (speedMultiplier sim)).


Definition getInitialState : Action PendulumState :=
  sim <- this ;; ret (initialState sim).

(** The sets of callbacks hold each reference once. *)
Definition wellFormed (sim : PendulumSimulation) : Prop :=
  NoDup (subscribers sim) /\ NoDup (resetListeners sim).

(** The histories a callback has received, oldest first. *)
Fixpoint deliveredTo (callback : Callback) (events : list Event)
  : list (list PendulumState) :=
  match events with
  | [] => []
  | HistoryDelivered cb history :: rest =>
      if Nat.eqb cb callback then history :: deliveredTo callback rest
      else deliveredTo callback rest
  | _ :: rest => deliveredTo callback rest
  end.

(** The array of a frame that starts in [s] and makes [n] steps: [s], then
    each element the step of the one before. *)
Fixpoint frameHistory (n : nat) (s : PendulumState) (p : PhysicsParams)
  (dt : R) : list PendulumState :=
  s :: match n with
       | O => []
       | S n' => frameHistory n' (integrateRK4Step s p dt) p dt
       end.

(** The host after it has logged [es]. *)
Definition logged (es : list Event) (h : Host) : Host :=
  mkHost (randomSource h) (randomsDrawn h) (nextHandle h) (log h ++ es).

(** The state [reset] assigns before it restarts the loop: random when every
    argument is omitted, otherwise each argument or, where it is omitted,
    the component of the initial state. *)
Definition stateAssigned (a b c d : option R) (sim : PendulumSimulation)
  (h : Host) : PendulumState :=
  if allOmitted a b c d then
    mkState (PI / 2 + (randomSource h (randomsDrawn h) * 0.5 - 0.25))
            (PI / 2 + 1 + (randomSource h (S (randomsDrawn h)) * 0.5 - 0.25))
            0 0
  else
    mkState (orElse a (theta1 (initialState sim)))
            (orElse b (theta2 (initialState sim)))
            (orElse c (omega1 (initialState sim)))
            (orElse d (omega2 (initialState sim))).

(** What [stop] emits: the cancellation of the pending frame, if any. *)
Definition cancelled (sim : PendulumSimulation) : list Event :=
  match animationFrameId sim with
  | Some handle => [FrameCancelled handle]
  | None => []
  end.


(** A host that has drawn nothing and logged nothing yet. *)
Definition freshHost (random : nat -> R) : Host :=
  {| randomSource := random; randomsDrawn := 0; nextHandle := 0; log := [] |}.

(** What the outside can do to a simulation: call a public method, or (the
    browser) run the frame callback that was requested. *)
Inductive Call : Type :=
| CallSubscribe (callback : Callback)
| CallUnsubscribe (callback : Callback)
| CallAddResetListener (callback : Callback)
| CallRemoveResetListener (callback : Callback)
| CallStart
| CallStop
| CallReset (theta1 theta2 omega1 omega2 : option R)
| CallMultiplySpeed (factor : R)
| CallFrame.

Definition perform (call : Call) : Action unit :=
  match call with
  | CallSubscribe cb => subscribe cb
  | CallUnsubscribe cb => unsubscribe cb
  | CallAddResetListener cb => addResetListener cb
  | CallRemoveResetListener cb => removeResetListener cb
  | CallStart => start
  | CallStop => stop
  | CallReset a b c d => reset a b c d
  | CallMultiplySpeed factor => multiplySpeed factor
  | CallFrame => loop
  end.

Fixpoint performAll (calls : list Call) (w : World) : World :=
  match calls with
  | [] => w
  | call :: rest => performAll rest (snd (perform call w))
  end.

End Sim.

(** ** components/VelocityChaosFractalVisualizer.tsx: the map generator

    The four numeric module constants are gathered in a record, so that the
    code can also be read at other values of them; [sourceConstants] holds
    the values written in the file. *)

Module Fractal.

Record Constants : Type := mkConstants
  { RESOLUTION : Z; SIM_STEPS : Z; DT : R; EPSILON : R }.

Definition sourceConstants : Constants :=
  {| RESOLUTION := 250; SIM_STEPS := 3000; DT := 0.01; EPSILON := 0.001 |}.

Record Bounds : Type := mkBounds
  { minOmega : R; maxOmega : R; range : R }.

Definition BOUNDS : Bounds :=
  {| minOmega := -10; maxOmega := 10; range := 20 |}.

Definition MAX_TIME_PER_FRAME : R := 12.

Definition totalPixels (c : Constants) : Z := (RESOLUTION c * RESOLUTION c)%Z.

(** *** One pixel: lines 77 to 108 *)

Definition x (c : Constants) (pixelIndex : Z) : Z :=
  Z.rem pixelIndex (RESOLUTION c).

Definition y (c : Constants) (pixelIndex : Z) : Z :=
  Zfloor (IZR pixelIndex / IZR (RESOLUTION c)).

Definition omega1Of (c : Constants) (pixelIndex : Z) : R :=
  minOmega BOUNDS
  + (IZR (x c pixelIndex) / IZR (RESOLUTION c)) * range BOUNDS.

Definition omega2Of (c : Constants) (pixelIndex : Z) : R :=
  minOmega BOUNDS
  + (IZR (y c pixelIndex) / IZR (RESOLUTION c)) * range BOUNDS.

(** The initial values of [s1] and [s2]. *)
Definition s1Of (c : Constants) (pixelIndex : Z) : PendulumState :=
  {| theta1 := 0; theta2 := 0;
     omega1 := omega1Of c pixelIndex; omega2 := omega2Of c pixelIndex |}.

Definition s2Of (c : Constants) (pixelIndex : Z) : PendulumState :=
  {| theta1 := 0; theta2 := 0;
     omega1 := omega1Of c pixelIndex + EPSILON c;
     omega2 := omega2Of c pixelIndex + EPSILON c |}.

(** The body of the [for] loop, once: the new [s1], [s2] and [totalDiff]. *)
Definition simStep (c : Constants) (s1 s2 : PendulumState) (totalDiff : R)
  : PendulumState * PendulumState * R :=
  let s1 := integrateRK4Step s1 FRACTAL_PARAMS (DT c) in
  let s2 := integrateRK4Step s2 FRACTAL_PARAMS (DT c) in
  let dTheta1 := theta1 s1 - theta1 s2 in
  let dTheta2 := theta2 s1 - theta2 s2 in
  let dOmega1 := omega1 s1 - omega1 s2 in
  let dOmega2 := omega2 s1 - omega2 s2 in
  let dist := sqrt (dTheta1 * dTheta1 + dTheta2 * dTheta2
                    + dOmega1 * dOmega1 + dOmega2 * dOmega2) in
  let dist := Rmin dist 2.0 in
  (s1, s2, totalDiff + dist).

Fixpoint simLoop (c : Constants) (n : nat) (s1 s2 : PendulumState)
  (totalDiff : R) : PendulumState * PendulumState * R :=
  match n with
  | O => (s1, s2, totalDiff)
  | S n' =>
      let '(s1', s2', totalDiff') := simStep c s1 s2 totalDiff in
      simLoop c n' s1' s2' totalDiff'
  end.

(** [s1], [s2] and [totalDiff] when the [for] loop is left. *)
Definition afterSimLoop (c : Constants) (pixelIndex : Z)
  : PendulumState * PendulumState * R :=
  simLoop c (Z.to_nat (SIM_STEPS c)) (s1Of c pixelIndex) (s2Of c pixelIndex) 0.

Definition avgDist (c : Constants) (pixelIndex : Z) : R :=
  snd (afterSimLoop c pixelIndex) / IZR (SIM_STEPS c).

Definition normalized (c : Constants) (pixelIndex : Z) : R :=
  Rmin 1 (JS.Math_pow (avgDist c pixelIndex / 1.5) 0.4).

Definition intensity (c : Constants) (pixelIndex : Z) : R :=
  normalized c pixelIndex.

(** *** The colour of an intensity: lines 111 to 128

    The five branches of the [if] chain, then the chain. *)

Definition Colour : Type := (Z * Z * Z)%type.

Definition branch1 (intensity : R) : Colour :=
  let t := intensity / 0.2 in
  (0, 0, Zfloor (t * 160))%Z.

Definition branch2 (intensity : R) : Colour :=
  let t := (intensity - 0.2) / 0.2 in
  (Zfloor (t * 100), 0, 160 + Zfloor (t * 95))%Z.

Definition branch3 (intensity : R) : Colour :=
  let t := (intensity - 0.4) / 0.2 in
  (100 + Zfloor (t * 155), 0, 255 - Zfloor (t * 255))%Z.

Definition branch4 (intensity : R) : Colour :=
  let t := (intensity - 0.6) / 0.2 in
  (255, Zfloor (t * 200), 0)%Z.

Definition branch5 (intensity : R) : Colour :=
  let t := (intensity - 0.8) / 0.2 in
  (255, 200 + Zfloor (t * 55), Zfloor (t * 255))%Z.

Definition colourOf (intensity : R) : Colour :=
  if Rlt_dec intensity 0.2 then branch1 intensity
  else if Rlt_dec intensity 0.4 then branch2 intensity
  else if Rlt_dec intensity 0.6 then branch3 intensity
  else if Rlt_dec intensity 0.8 then branch4 intensity
  else branch5 intensity.

(** The value stored at [data[idx + 3]]. *)
Definition alpha : Z := 255.

(** The four values written for an intensity, in the order of the writes. *)
Definition rgbaOf (intensity : R) : Z * Z * Z * Z :=
  let '(r, g, b) := colourOf intensity in (r, g, b, alpha).

(** *** The run: closure variables, component state and effects *)

Inductive Effect : Type :=
| PutImageData (snapshot : list Z)
| SetProgress (percent : Z)
| SetIsProcessing (value : bool)
| RenderDisplay
| RequestFrame
| CancelFrame.

Record Run : Type := mkRun
  { pixelIndex : Z;
    data : list Z;
    isCancelled : bool;
    frameScheduled : bool;
    clockReads : nat;
    effects : list Effect }.

Definition withEffect (e : Effect) (run : Run) : Run :=
  mkRun (pixelIndex run) (data run) (isCancelled run) (frameScheduled run)
        (clockReads run) (effects run ++ [e]).

Definition withFrameScheduled (b : bool) (run : Run) : Run :=
  mkRun (pixelIndex run) (data run) (isCancelled run) b
        (clockReads run) (effects run).

(** One call of [performance.now()] moves to the next reading of the clock. *)
Definition tick (run : Run) : Run :=
  mkRun (pixelIndex run) (data run) (isCancelled run) (frameScheduled run)
        (S (clockReads run)) (effects run).

(** Lines 77 to 135: one pixel computed, written and counted. *)
Definition processPixel (c : Constants) (run : Run) : Run :=
  let i := intensity c (pixelIndex run) in
  let idx := (pixelIndex run * 4)%Z in
  let '(r, g, b, a) := rgbaOf i in
  let data := JS.clampedSet (data run) idx r in
  let data := JS.clampedSet data (idx + 1)%Z g in
  let data := JS.clampedSet data (idx + 2)%Z b in
  let data := JS.clampedSet data (idx + 3)%Z a in
  mkRun (pixelIndex run + 1)%Z data (isCancelled run) (frameScheduled run)
        (clockReads run) (effects run).

(** The [while] loop of a batch.  [clock] gives the successive readings of
    [performance.now()]; the loop runs at most once per pixel left, which is
    what [fuel] counts. *)
Fixpoint batchLoop (c : Constants) (clock : nat -> R) (startTime : R)
  (fuel : nat) (run : Run) : Run :=
  match fuel with
  | O => run
  | S fuel' =>
      if (pixelIndex run <? totalPixels c)%Z then
        let now := clock (clockReads run) in
        let run := tick run in
        if Rlt_dec (now - startTime) MAX_TIME_PER_FRAME
        then batchLoop c clock startTime fuel' (processPixel c run)
        else run
      else run
  end.

(** The percentage handed to [setProgress]. *)
Definition progressOf (c : Constants) (pixelIndex : Z) : Z :=
  JS.Math_round ((IZR pixelIndex / IZR (totalPixels c)) * 100).

Definition processBatch (c : Constants) (clock : nat -> R) (run : Run) : Run :=
  let run := withFrameScheduled false run in
  if isCancelled run then run
  else if (pixelIndex run >=? totalPixels c)%Z then
    withEffect RenderDisplay
      (withEffect (SetIsProcessing false)
         (withEffect (PutImageData (data run)) run))
  else
    let startTime := clock (clockReads run) in
    let run := tick run in
    let run :=
      batchLoop c clock startTime
                (Z.to_nat (totalPixels c - pixelIndex run)) run in
    let run := withEffect (PutImageData (data run)) run in
    let run := withEffect (SetProgress (progressOf c (pixelIndex run))) run in
    let run := withEffect RenderDisplay run in
    withFrameScheduled true (withEffect RequestFrame run).

(** The buffer after [fillRect] with black: every pixel is opaque black. *)
Definition blackImage (pixels : nat) : list Z :=
  concat (repeat [0; 0; 0; 255]%Z pixels).

(** The body of the mount effect, lines 40 to 61 and 145.  [contextAvailable]
    tells whether [getContext('2d')] gave a context; without one the effect
    returns and nothing runs.  The canvas is not modelled beyond the pixel
    array: what [getImageData] itself does with a resolution that is not
    positive is left open, and the claims below do not depend on it. *)
Definition mountEffect (c : Constants) (contextAvailable : bool)
  : JS.Completion (option Run) :=
  if negb contextAvailable then JS.Normal None
  else
    JS.Normal (Some
      {| pixelIndex := 0;
         data := blackImage (Z.to_nat (totalPixels c));
         isCancelled := false;
         frameScheduled := true;
         clockReads := 0;
         effects := [SetIsProcessing true; SetProgress 0; RequestFrame] |}).

(** The clean-up function returned by the effect. *)
Definition cleanup (run : Run) : Run :=
  withEffect CancelFrame
    (mkRun (pixelIndex run) (data run) true false
           (clockReads run) (effects run)).

(** The host calls the scheduled callback [n] times; nobody cancels. *)
Fixpoint runFrames (c : Constants) (clock : nat -> R) (n : nat) (run : Run)
  : Run :=
  match n with
  | O => run
  | S n' =>
      if frameScheduled run
      then runFrames c clock n' (processBatch c clock run)
      else run
  end.

(** The percentages published, oldest first. *)
Fixpoint published (es : list Effect) : list Z :=
  match es with
  | [] => []
  | SetProgress p :: rest => p :: published rest
  | _ :: rest => published rest
  end.

(** All pixels are computed. *)
Definition done (c : Constants) (run : Run) : bool :=
  (pixelIndex run >=? totalPixels c)%Z.

(** *** The per-cell algorithm in the words of the specification *)

Module Spec.

Definition clamp (lo hi v : R) : R := Rmax lo (Rmin hi v).

Definition seedA (c : Constants) (x y : Z) : PendulumState :=
  {| theta1 := 0; theta2 := 0;
     omega1 := minOmega BOUNDS + (IZR x / IZR (RESOLUTION c)) * range BOUNDS;
     omega2 := minOmega BOUNDS + (IZR y / IZR (RESOLUTION c)) * range BOUNDS |}.

Definition seedB (c : Constants) (x y : Z) : PendulumState :=
  {| theta1 := theta1 (seedA c x y);
     theta2 := theta2 (seedA c x y);
     omega1 := omega1 (seedA c x y) + EPSILON c;
     omega2 := omega2 (seedA c x y) + EPSILON c |}.

(** A trajectory after [i] steps of size [DT]. *)
Definition trajectory (c : Constants) (seed : PendulumState) (i : nat)
  : PendulumState :=
  repeatStep i seed FRACTAL_PARAMS (DT c).

(** Euclidean distance of two states in the four-dimensional state space. *)
Definition distance (a b : PendulumState) : R :=
  sqrt ((theta1 a - theta1 b) ^ 2 + (theta2 a - theta2 b) ^ 2
        + (omega1 a - omega1 b) ^ 2 + (omega2 a - omega2 b) ^ 2).

(** The clamped distance after step [i] (steps are counted from 1). *)
Definition clampedDistance (c : Constants) (x y : Z) (i : nat) : R :=
  Rmin (distance (trajectory c (seedA c x y) i)
                 (trajectory c (seedB c x y) i)) 2.0.

Definition sumList (l : list R) : R := fold_right Rplus 0 l.

(** Arithmetic mean of the clamped distances of steps 1 to [SIM_STEPS]. *)
Definition score (c : Constants) (x y : Z) : R :=
  sumList (map (clampedDistance c x y) (seq 1 (Z.to_nat (SIM_STEPS c))))
  / IZR (SIM_STEPS c).

Definition intensity (c : Constants) (x y : Z) : R :=
  clamp 0 1 (JS.Math_pow (score c x y / 1.5) 0.4).

End Spec.

End Fractal.

(** ** Runs and clocks used in the statements *)

(** A list of percentages in which no element is smaller than the one
    before it. *)
Fixpoint nonDecreasing (l : list Z) : Prop :=
  match l with
  | [] => True
  | a :: rest =>
      match rest with
      | [] => True
      | b :: _ => (a <= b)%Z
      end /\ nonDecreasing rest
  end.

(** A clock on which every reading is 3 ms after the one before: a pixel
    takes 3 ms, and a batch gets three of them done. *)
Definition steadyClock : nat -> R := fun i => 3 * INR i.

(** The run that the mount effect starts at the constants of the source. *)
Definition firstRun : Fractal.Run :=
  {| Fractal.pixelIndex := 0;
     Fractal.data :=
       Fractal.blackImage
         (Z.to_nat (Fractal.totalPixels Fractal.sourceConstants));
     Fractal.isCancelled := false;
     Fractal.frameScheduled := true;
     Fractal.clockReads := 0;
     Fractal.effects :=
       [Fractal.SetIsProcessing true; Fractal.SetProgress 0;
        Fractal.RequestFrame] |}.

(** What holds of a run at the constants of the source that nobody cancels. *)
Definition uncancelledRun (run : Fractal.Run) : Prop :=
  Fractal.isCancelled run = false
  /\ (0 <= Fractal.pixelIndex run <= 62500)%Z
  /\ nonDecreasing (Fractal.published (Fractal.effects run))
  /\ (forall u, In u (Fractal.published (Fractal.effects run)) ->
      (u <= Fractal.progressOf Fractal.sourceConstants
              (Fractal.pixelIndex run))%Z).

(** ** Callers of the simulation *)

(** [k] frames in a row: the browser runs the requested callback [k]
    times. *)
Fixpoint runLoop (k : nat) (w : Sim.World) : Sim.World :=
  match k with
  | O => w
  | S k' => runLoop k' (snd (Sim.loop w))
  end.

(** The key handler of [App]: [m] doubles the speed, [n] halves it. *)
Module App.

Import String.

Definition handleKeyDown (key : string) : Sim.Action unit :=
  Sim.bind (if String.eqb key "m" then Sim.multiplySpeed 2 else Sim.ret tt)
    (fun _ =>
       if String.eqb key "n" then Sim.multiplySpeed 0.5 else Sim.ret tt).

End App.

(** The rectangle [getBoundingClientRect()] returns. *)
Module DOM.

Record Rect : Type := mkRect
  { left : R; top : R; width : R; height : R }.

End DOM.

(** The remainder operator [%] on numbers: the quotient is truncated towards
    zero, so that the result has the sign of the dividend. *)
Module Number.

Definition truncate (q : R) : Z :=
  if Rlt_dec q 0 then Zceil q else Zfloor q.

Definition remainder (a b : R) : R := a - b * IZR (truncate (a / b)).

End Number.

(** A segment of a trail: [moveTo(fromX, fromY)], [lineTo(toX, toY)]. *)
Record Segment : Type := mkSegment
  { fromX : R; fromY : R; toX : R; toY : R }.

(** *** PhaseSpaceVisualizer.tsx *)

Module PhaseSpace.

(** [scaleRef = useRef<number>(50)], never assigned. *)
Definition scale : R := 50.

Definition normalizeAngle (angle : R) : R :=
  let twoPi := 2 * PI in
  let res :=
    Number.remainder (Number.remainder angle twoPi + twoPi) twoPi in
  if Rgt_dec res PI then res - twoPi else res.

(** [container] is [None] when [containerRef.current] is null. *)
Definition handleClick (container : option DOM.Rect) (clientX clientY : R)
  : Sim.Action unit :=
  match container with
  | None => Sim.ret tt
  | Some rect =>
      let clickX := clientX - DOM.left rect in
      let clickY := clientY - DOM.top rect in
      let cx := DOM.width rect / 2 in
      let cy := DOM.height rect / 2 in
      let theta1 := (clickX - cx) / scale in
      let theta2 := (clickY - cy) / scale in
      Sim.bind Sim.getInitialState (fun currentInitial =>
        Sim.reset (Some theta1) (Some theta2)
                  (Some (omega1 currentInitial))
                  (Some (omega2 currentInitial)))
  end.

(** The body of the [for] loop of [draw] for the neighbours [curr] and
    [next]: the segment drawn, if any. *)
Definition segment (cx cy : R) (curr next : PendulumState)
  : option Segment :=
  let t1 := normalizeAngle (theta1 curr) in
  let t2 := normalizeAngle (theta2 curr) in
  let nt1 := normalizeAngle (theta1 next) in
  let nt2 := normalizeAngle (theta2 next) in
  let x := cx + t1 * scale in
  let y := cy + t2 * scale in
  let nx := cx + nt1 * scale in
  let ny := cy + nt2 * scale in
  let jump1 := Rabs (t1 - nt1) in
  let jump2 := Rabs (t2 - nt2) in
  if Rlt_dec jump1 PI then
    if Rlt_dec jump2 PI then Some (mkSegment x y nx ny) else None
  else None.

(** The segments the [for] loop of [draw] adds to the trail. *)
Fixpoint trail (cx cy : R) (history : list PendulumState) : list Segment :=
  match history with
  | [] => []
  | curr :: rest =>
      match rest with
      | [] => []
      | next :: _ =>
          match segment cx cy curr next with
          | Some s => s :: trail cx cy rest
          | None => trail cx cy rest
          end
      end
  end.

(** [startX] and [startY] of [draw]: the centre of the blue dot. *)
Definition startPosition (cx cy : R) (initialState : PendulumState)
  : R * R :=
  let it1 := normalizeAngle (theta1 initialState) in
  let it2 := normalizeAngle (theta2 initialState) in
  (cx + it1 * scale, cy + it2 * scale).

End PhaseSpace.

(** *** VelocityPhaseSpaceVisualizer.tsx *)

Module VelocityPhaseSpace.

(** [scaleRef = useRef(160)], never assigned. *)
Definition scale : R := 160.

Definition handleClick (container : option DOM.Rect) (clientX clientY : R)
  : Sim.Action unit :=
  match container with
  | None => Sim.ret tt
  | Some rect =>
      let clickX := clientX - DOM.left rect in
      let clickY := clientY - DOM.top rect in
      let cx := DOM.width rect / 2 in
      let cy := DOM.height rect / 2 in
      let omega1 := (clickX - cx) / scale in
      let omega2 := (clickY - cy) / scale in
      Sim.bind Sim.getInitialState (fun currentInitial =>
        Sim.reset (Some (theta1 currentInitial))
                  (Some (theta2 currentInitial))
                  (Some omega1) (Some omega2))
  end.

(** [startX] and [startY] of [draw]: the centre of the red dot. *)
Definition startPosition (cx cy : R) (initialState : PendulumState)
  : R * R :=
  (cx + omega1 initialState * scale, cy + omega2 initialState * scale).

End VelocityPhaseSpace.

(** *** The mount effect of the three visualizers of the live simulation

    [RealSpaceVisualizer], [PhaseSpaceVisualizer] and
    [VelocityPhaseSpaceVisualizer] register [clearTrail] and [draw] in the
    same way, and their clean-up functions remove them in the same way. *)

Module Visualizer.

Definition mount (draw clearTrail : Callback) : Sim.Action unit :=
  Sim.bind (Sim.addResetListener clearTrail) (fun _ => Sim.subscribe draw).

Definition cleanup (draw clearTrail : Callback) : Sim.Action unit :=
  Sim.bind (Sim.unsubscribe draw)
           (fun _ => Sim.removeResetListener clearTrail).

End Visualizer.

(** *** RealSpaceVisualizer.tsx *)

Module RealSpace.

Record Coords : Type := mkCoords { x1 : R; y1 : R; x2 : R; y2 : R }.

(** [getCoords] of [draw]; [l1] and [l2] are those of [DEFAULT_PARAMS]. *)
Definition getCoords (cx cy : R) (state : PendulumState) : Coords :=
  let x1 := cx + l1 DEFAULT_PARAMS * sin (theta1 state) in
  let y1 := cy + l1 DEFAULT_PARAMS * cos (theta1 state) in
  let x2 := x1 + l2 DEFAULT_PARAMS * sin (theta2 state) in
  let y2 := y1 + l2 DEFAULT_PARAMS * cos (theta2 state) in
  mkCoords x1 y1 x2 y2.

Definition handleZeroVelocity : Sim.Action unit :=
  Sim.reset None None (Some 0) (Some 0).

End RealSpace.

(** The speed after a list of factors has been applied, oldest first. *)
Fixpoint multiplyAll (factors : list R) (w : Sim.World) : Sim.World :=
  match factors with
  | [] => w
  | factor :: rest => multiplyAll rest (snd (Sim.multiplySpeed factor w))
  end.

(** Calls that change the initial state, and calls that change the
    speed. *)
Definition isReset (call : Sim.Call) : bool :=
  match call with
  | Sim.CallReset _ _ _ _ => true
  | _ => false
  end.


Definition isMultiplySpeed (call : Sim.Call) : bool :=
  match call with
  | Sim.CallMultiplySpeed _ => true
  | _ => false
  end.



(** ** Images used in the statements about the map generator *)

(** The four bytes of a computed pixel, in the order of the array. *)
Definition pixelBytes (c : Fractal.Constants) (p : nat) : list Z :=
  let '(r, g, b, a) := Fractal.rgbaOf (Fractal.intensity c (Z.of_nat p)) in
  [r; g; b; a].

(** The pixel array in which the first [k] pixels are computed and the
    others still hold the black of [fillRect]. *)
Definition imageOf (c : Fractal.Constants) (k : nat) : list Z :=
  flat_map (pixelBytes c) (seq 0 k)
  ++ Fractal.blackImage (Z.to_nat (Fractal.totalPixels c) - k).

(** The run holds the image of its own pixel counter. *)
Definition painted (c : Fractal.Constants) (run : Fractal.Run) : Prop :=
  (0 <= Fractal.pixelIndex run <= Fractal.totalPixels c)%Z
  /\ Fractal.data run = imageOf c (Z.to_nat (Fractal.pixelIndex run)).

(** Every array handed to [putImageData] was such an image. *)
Definition shown (c : Fractal.Constants) (es : list Fractal.Effect) : Prop :=
  forall snapshot, In (Fractal.PutImageData snapshot) es ->
  exists k, (k <= Z.to_nat (Fractal.totalPixels c))%nat
            /\ snapshot = imageOf c k.

(** A clock on which two successive readings are less than the time budget
    of a batch apart. *)
Definition promptClock (clock : nat -> R) : Prop :=
  forall i, clock (S i) - clock i < Fractal.MAX_TIME_PER_FRAME.

(** ** components/VelocityChaosFractalVisualizer.tsx: the view of the map

    The component state [transform], [isDragging] and [dragStart], and the
    handlers of the pointer events.  Every handler gets the state that the
    handler before it left: the component has rendered again between two
    events. *)

Module View.

Record Transform : Type := mkTransform { x : R; y : R; scale : R }.

Record Point : Type := mkPoint { px : R; py : R }.

Record State : Type := mkView
  { transform : Transform; isDragging : bool; dragStart : Point }.

(** The values of the three [useState] calls. *)
Definition initial : State :=
  {| transform := mkTransform 0 0 1;
     isDragging := false;
     dragStart := mkPoint 0 0 |}.

(** The [width] and [height] of the display canvas. *)
Record Canvas : Type := mkCanvas { width : R; height : R }.

Definition zoomSpeed : R := 0.1.

Definition handleWheel (container : option DOM.Rect)
  (clientX clientY deltaY : R) (v : State) : State :=
  match container with
  | None => v
  | Some rect =>
      let t := transform v in
      let mx := clientX - DOM.left rect in
      let my := clientY - DOM.top rect in
      let factor := if Rlt_dec 0 deltaY then 1 - zoomSpeed
                    else 1 + zoomSpeed in
      let newScale := Rmax 1 (Rmin (scale t * factor) 50) in
      let worldX := (mx - x t) / scale t in
      let worldY := (my - y t) / scale t in
      let newX := mx - worldX * newScale in
      let newY := my - worldY * newScale in
      mkView (mkTransform newX newY newScale) (isDragging v) (dragStart v)
  end.

Definition handleMouseDown (clientX clientY : R) (v : State) : State :=
  mkView (transform v) true
         (mkPoint (clientX - x (transform v)) (clientY - y (transform v))).

Definition handleMouseMove (clientX clientY : R) (v : State) : State :=
  if negb (isDragging v) then v
  else
    mkView (mkTransform (clientX - px (dragStart v))
                        (clientY - py (dragStart v))
                        (scale (transform v)))
           (isDragging v) (dragStart v).

Definition handleMouseUp (v : State) : State :=
  mkView (transform v) false (dragStart v).

Definition handleResetView (v : State) : State :=
  mkView (mkTransform 0 0 1) (isDragging v) (dragStart v).

(** [container] and [canvas] are [None] when the ref is null. *)
Definition handleClick (container : option DOM.Rect) (canvas : option Canvas)
  (clientX clientY : R) (v : State) : Sim.Action unit :=
  if isDragging v then Sim.ret tt
  else
    match container, canvas with
    | Some rect, Some displayCanvas =>
        let t := transform v in
        let mx := clientX - DOM.left rect in
        let width := width displayCanvas in
        let height := height displayCanvas in
        let size := Rmin width height in
        let offsetX := (width - size) / 2 in
        let transformedX := (mx - x t) / scale t in
        let transformedY := (clientY - DOM.top rect - y t) / scale t in
        let imageX := transformedX - offsetX in
        let imageY := transformedY - ((height - size) / 2) in
        if Rlt_dec imageX 0 then Sim.ret tt
        else if Rgt_dec imageX size then Sim.ret tt
        else if Rlt_dec imageY 0 then Sim.ret tt
        else if Rgt_dec imageY size then Sim.ret tt
        else
          let pctX := imageX / size in
          let pctY := imageY / size in
          let omega1 :=
            Fractal.minOmega Fractal.BOUNDS
            + pctX * Fractal.range Fractal.BOUNDS in
          let omega2 :=
            Fractal.minOmega Fractal.BOUNDS
            + pctY * Fractal.range Fractal.BOUNDS in
          Sim.reset (Some 0) (Some 0) (Some omega1) (Some omega2)
    | _, _ => Sim.ret tt
    end.

(** The pointer events of the component. *)
Inductive Event : Type :=
| Wheel (container : option DOM.Rect) (clientX clientY deltaY : R)
| MouseDown (clientX clientY : R)
| MouseMove (clientX clientY : R)
| MouseUp
| ResetView.

Definition handle (e : Event) (v : State) : State :=
  match e with
  | Wheel container clientX clientY deltaY =>
      handleWheel container clientX clientY deltaY v
  | MouseDown clientX clientY => handleMouseDown clientX clientY v
  | MouseMove clientX clientY => handleMouseMove clientX clientY v
  | MouseUp => handleMouseUp v
  | ResetView => handleResetView v
  end.

Definition handleAll (es : list Event) (v : State) : State :=
  fold_left (fun v e => handle e v) es v.

End View.

(** The events of a pointer that moves through [moves]. *)
Definition moveEvents (moves : list (R * R)) : list View.Event :=
  map (fun p => View.MouseMove (fst p) (snd p)) moves.



(** ** components/DoublePendulum.tsx

    The stand-alone component: its own constants, its own copy of the
    derivative function, an integrator that updates the state object in
    place, and a trace of the last tip positions. *)

Module Types.

(** [Point] of types.ts. *)
Record Point : Type := mkPoint { x : R; y : R }.

End Types.

Module Legacy.

Definition PARAMS : PhysicsParams :=
  {| l1 := 150; l2 := 150; m1 := 20; m2 := 20; g := 1 |}.

Definition INITIAL_STATE : PendulumState :=
  {| theta1 := PI / 2; theta2 := PI / 2 + 1; omega1 := 0; omega2 := 0 |}.

Definition MAX_TRACE_LENGTH : nat := 2000.

Definition getDerivatives (state : PendulumState) (params : PhysicsParams)
  : Derivatives :=
  let 'mkState theta1 theta2 omega1 omega2 := state in
  let 'mkParams l1 l2 m1 m2 g := params in
  let delta := theta1 - theta2 in
  let den1 := 2 * m1 + m2 - m2 * cos (2 * theta1 - 2 * theta2) in
  let num1 :=
    - g * (2 * m1 + m2) * sin theta1
    - m2 * g * sin (theta1 - 2 * theta2)
    - 2 * sin delta * m2
      * (omega2 * omega2 * l2 + omega1 * omega1 * l1 * cos delta) in
  let alpha1 := num1 / (l1 * den1) in
  let num2 :=
    2 * sin delta
    * (omega1 * omega1 * l1 * (m1 + m2)
       + g * (m1 + m2) * cos theta1
       + omega2 * omega2 * l2 * m2 * cos delta) in
  let den2 := 2 * m1 + m2 - m2 * cos (2 * theta1 - 2 * theta2) in
  let alpha2 := num2 / (l2 * den2) in
  {| dTheta1 := omega1; dTheta2 := omega2;
     dOmega1 := alpha1; dOmega2 := alpha2 |}.

(** Assignments to the fields of the state object. *)
Definition setTheta1 (v : R) (s : PendulumState) : PendulumState :=
  mkState v (theta2 s) (omega1 s) (omega2 s).

Definition setTheta2 (v : R) (s : PendulumState) : PendulumState :=
  mkState (theta1 s) v (omega1 s) (omega2 s).

Definition setOmega1 (v : R) (s : PendulumState) : PendulumState :=
  mkState (theta1 s) (theta2 s) v (omega2 s).

Definition setOmega2 (v : R) (s : PendulumState) : PendulumState :=
  mkState (theta1 s) (theta2 s) (omega1 s) v.

(** [integrateRK4] returns nothing and updates [state] in place, one field
    after the other; the result here is the object after the four
    updates. *)
Definition integrateRK4 (state : PendulumState) (dt : R) : PendulumState :=
  let k1 := getDerivatives state PARAMS in
  let s2 :=
    {| theta1 := theta1 state + dTheta1 k1 * dt * 0.5;
       theta2 := theta2 state + dTheta2 k1 * dt * 0.5;
       omega1 := omega1 state + dOmega1 k1 * dt * 0.5;
       omega2 := omega2 state + dOmega2 k1 * dt * 0.5 |} in
  let k2 := getDerivatives s2 PARAMS in
  let s3 :=
    {| theta1 := theta1 state + dTheta1 k2 * dt * 0.5;
       theta2 := theta2 state + dTheta2 k2 * dt * 0.5;
       omega1 := omega1 state + dOmega1 k2 * dt * 0.5;
       omega2 := omega2 state + dOmega2 k2 * dt * 0.5 |} in
  let k3 := getDerivatives s3 PARAMS in
  let s4 :=
    {| theta1 := theta1 state + dTheta1 k3 * dt;
       theta2 := theta2 state + dTheta2 k3 * dt;
       omega1 := omega1 state + dOmega1 k3 * dt;
       omega2 := omega2 state + dOmega2 k3 * dt |} in
  let k4 := getDerivatives s4 PARAMS in
  let state :=
    setTheta1 (theta1 state
               + (dt / 6) * (dTheta1 k1 + 2 * dTheta1 k2 + 2 * dTheta1 k3
                             + dTheta1 k4)) state in
  let state :=
    setTheta2 (theta2 state
               + (dt / 6) * (dTheta2 k1 + 2 * dTheta2 k2 + 2 * dTheta2 k3
                             + dTheta2 k4)) state in
  let state :=
    setOmega1 (omega1 state
               + (dt / 6) * (dOmega1 k1 + 2 * dOmega1 k2 + 2 * dOmega1 k3
                             + dOmega1 k4)) state in
  let state :=
    setOmega2 (omega2 state
               + (dt / 6) * (dOmega2 k1 + 2 * dOmega2 k2 + 2 * dOmega2 k3
                             + dOmega2 k4)) state in
  state.

(** The two refs the frames read and write. *)
Record Refs : Type := mkRefs
  { stateRef : PendulumState; traceRef : list Types.Point }.

(** The point [draw] adds to the trace: the position of the second mass. *)
Definition tip (width height : R) (state : PendulumState) : Types.Point :=
  let cx := width / 2 in
  let cy := height / 3 in
  let x1 := cx + l1 PARAMS * sin (theta1 state) in
  let y1 := cy + l1 PARAMS * cos (theta1 state) in
  let x2 := x1 + l2 PARAMS * sin (theta2 state) in
  let y2 := y1 + l2 PARAMS * cos (theta2 state) in
  Types.mkPoint x2 y2.

(** [push] and then, when the trace is too long, [shift]. *)
Definition addToTrace (trace : list Types.Point) (p : Types.Point)
  : list Types.Point :=
  let trace := trace ++ [p] in
  if (MAX_TRACE_LENGTH <? length trace)%nat then tl trace else trace.

(** What [draw] does to the refs; the strokes are not modelled. *)
Definition draw (width height : R) (refs : Refs) : Refs :=
  mkRefs (stateRef refs)
         (addToTrace (traceRef refs) (tip width height (stateRef refs))).

Definition stepsPerFrame : nat := 10.

(** The [for] loop of [animate]. *)
Fixpoint integrateLoop (n : nat) (dt : R) (state : PendulumState)
  : PendulumState :=
  match n with
  | O => state
  | S n' => integrateLoop n' dt (integrateRK4 state dt)
  end.

(** One frame.  [canvas] holds the width and the height of the canvas, and
    is [None] when the ref is null or gives no context: the frame then
    does nothing. *)
Definition animate (canvas : option (R * R)) (refs : Refs) : Refs :=
  match canvas with
  | None => refs
  | Some (width, height) =>
      let dt := 0.4 / INR stepsPerFrame in
      let state := integrateLoop stepsPerFrame dt (stateRef refs) in
      draw width height (mkRefs state (traceRef refs))
  end.

(** [handleRestart]; [r1] and [r2] are the outcomes of the two calls of
    [Math.random()]. *)
Definition handleRestart (r1 r2 : R) (refs : Refs) : Refs :=
  mkRefs (mkState (PI / 2 + (r1 * 0.5 - 0.25))
                  (PI / 2 + 1 + (r2 * 0.5 - 0.25))
                  (omega1 INITIAL_STATE) (omega2 INITIAL_STATE))
         [].

(** [n] frames on a canvas of a fixed size. *)
Definition frames (n : nat) (width height : R) (refs : Refs) : Refs :=
  Nat.iter n (animate (Some (width, height))) refs.

End Legacy.

(** ** Symmetries of the state space used in the statements *)

(** The mirror image of a state: every angle and velocity negated. *)
Definition mirror (s : PendulumState) : PendulumState :=
  mkState (- theta1 s) (- theta2 s) (- omega1 s) (- omega2 s).

(** The state with [j] whole turns added to the first angle and [k] to the
    second. *)
Definition turned (j k : Z) (s : PendulumState) : PendulumState :=
  mkState (theta1 s + 2 * PI * IZR j) (theta2 s + 2 * PI * IZR k)
          (omega1 s) (omega2 s).

Definition opposite (d : Derivatives) : Derivatives :=
  mkDerivatives (- dTheta1 d) (- dTheta2 d) (- dOmega1 d) (- dOmega2 d).

(** ** The numbers of the source language: binary64

    The definitions above read a [number] as an exact real.  Where a property
    turns on overflow, on rounding or on the special values, the same source
    lines are read here over the binary64 numbers of the kernel: [+], [-],
    [*] and [/] are the IEEE 754 operations, rounded to nearest, and a
    decimal literal is the nearest binary64 number, as in the source
    language.  [Math.sin] and [Math.cos] are functions from numbers to
    numbers that the language leaves to the implementation; they are
    arguments of the definitions that call them. *)

Module B64.

Import Floats.
#[local] Open Scope float_scope.
#[local] Set Warnings "-inexact-float".

Record PendulumState : Type := mkState
  { theta1 : float; theta2 : float; omega1 : float; omega2 : float }.

Record PhysicsParams : Type := mkParams
  { l1 : float; l2 : float; m1 : float; m2 : float; g : float }.

Record Derivatives : Type := mkDerivatives
  { dTheta1 : float; dTheta2 : float; dOmega1 : float; dOmega2 : float }.

Definition DEFAULT_PARAMS : PhysicsParams :=
  {| l1 := 150; l2 := 150; m1 := 20; m2 := 20; g := 1 |}.

(** *** Kinds of numbers *)

(** Neither an infinity nor NaN. *)
Definition finite (x : float) : bool :=
  match Prim2SF x with
  | S754_zero _ | S754_finite _ _ _ => true
  | S754_infinity _ | S754_nan => false
  end.

(** A zero of either sign. *)
Definition isZero (x : float) : bool :=
  match Prim2SF x with
  | S754_zero _ => true
  | _ => false
  end.

(** The same number: identical, or two zeros, whose sign the source language
    does not tell apart with [===]. *)
Definition same (x y : float) : Prop :=
  x = y \/ (isZero x = true /\ isZero y = true).

(** What a step of size zero returns in one component, given the weighted
    sum of the four derivatives of that component: the component as it was
    when the sum is finite, NaN when it is not. *)
Definition returned (sum before after : float) : Prop :=
  if finite sum then same after before else after = nan.

(** The number [2 ^ k]. *)
Definition pow2 (k : Z) : float := Z.ldexp 1 k.

(** *** utils/physics.ts over binary64 *)

Section Trigonometry.

Variables Math_sin Math_cos : float -> float.

Definition delta (state : PendulumState) : float :=
  theta1 state - theta2 state.

Definition den1 (state : PendulumState) (params : PhysicsParams) : float :=
  2 * m1 params + m2 params
  - m2 params * Math_cos (2 * theta1 state - 2 * theta2 state).

Definition num1 (state : PendulumState) (params : PhysicsParams) : float :=
  - g params * (2 * m1 params + m2 params) * Math_sin (theta1 state)
  - m2 params * g params * Math_sin (theta1 state - 2 * theta2 state)
  - 2 * Math_sin (delta state) * m2 params
    * (omega2 state * omega2 state * l2 params
       + omega1 state * omega1 state * l1 params * Math_cos (delta state)).

Definition alpha1 (state : PendulumState) (params : PhysicsParams) : float :=
  num1 state params / (l1 params * den1 state params).

Definition num2 (state : PendulumState) (params : PhysicsParams) : float :=
  2 * Math_sin (delta state)
  * (omega1 state * omega1 state * l1 params * (m1 params + m2 params)
     + g params * (m1 params + m2 params) * Math_cos (theta1 state)
     + omega2 state * omega2 state * l2 params * m2 params
       * Math_cos (delta state)).

Definition den2 (state : PendulumState) (params : PhysicsParams) : float :=
  2 * m1 params + m2 params
  - m2 params * Math_cos (2 * theta1 state - 2 * theta2 state).

Definition alpha2 (state : PendulumState) (params : PhysicsParams) : float :=
  num2 state params / (l2 params * den2 state params).

Definition getDerivatives (state : PendulumState) (params : PhysicsParams)
  : Derivatives :=
  {| dTheta1 := omega1 state;
     dTheta2 := omega2 state;
     dOmega1 := alpha1 state params;
     dOmega2 := alpha2 state params |}.

Definition k1 (state : PendulumState) (params : PhysicsParams) : Derivatives :=
  getDerivatives state params.

Definition s2 (state : PendulumState) (params : PhysicsParams) (dt : float)
  : PendulumState :=
  {| theta1 := theta1 state + dTheta1 (k1 state params) * dt * 0.5;
     theta2 := theta2 state + dTheta2 (k1 state params) * dt * 0.5;
     omega1 := omega1 state + dOmega1 (k1 state params) * dt * 0.5;
     omega2 := omega2 state + dOmega2 (k1 state params) * dt * 0.5 |}.

Definition k2 (state : PendulumState) (params : PhysicsParams) (dt : float)
  : Derivatives :=
  getDerivatives (s2 state params dt) params.

Definition s3 (state : PendulumState) (params : PhysicsParams) (dt : float)
  : PendulumState :=
  {| theta1 := theta1 state + dTheta1 (k2 state params dt) * dt * 0.5;
     theta2 := theta2 state + dTheta2 (k2 state params dt) * dt * 0.5;
     omega1 := omega1 state + dOmega1 (k2 state params dt) * dt * 0.5;
     omega2 := omega2 state + dOmega2 (k2 state params dt) * dt * 0.5 |}.

Definition k3 (state : PendulumState) (params : PhysicsParams) (dt : float)
  : Derivatives :=
  getDerivatives (s3 state params dt) params.

Definition s4 (state : PendulumState) (params : PhysicsParams) (dt : float)
  : PendulumState :=
  {| theta1 := theta1 state + dTheta1 (k3 state params dt) * dt;
     theta2 := theta2 state + dTheta2 (k3 state params dt) * dt;
     omega1 := omega1 state + dOmega1 (k3 state params dt) * dt;
     omega2 := omega2 state + dOmega2 (k3 state params dt) * dt |}.

Definition k4 (state : PendulumState) (params : PhysicsParams) (dt : float)
  : Derivatives :=
  getDerivatives (s4 state params dt) params.

(** The sum [k1.f + 2 * k2.f + 2 * k3.f + k4.f] of the [return] statement,
    for the field [f]. *)
Definition weightedSum (f : Derivatives -> float)
  (state : PendulumState) (params : PhysicsParams) (dt : float) : float :=
  f (k1 state params) + 2 * f (k2 state params dt)
  + 2 * f (k3 state params dt) + f (k4 state params dt).

Definition integrateRK4Step
  (state : PendulumState) (params : PhysicsParams) (dt : float)
  : PendulumState :=
  {| theta1 := theta1 state
               + (dt / 6) * weightedSum dTheta1 state params dt;
     theta2 := theta2 state
               + (dt / 6) * weightedSum dTheta2 state params dt;
     omega1 := omega1 state
               + (dt / 6) * weightedSum dOmega1 state params dt;
     omega2 := omega2 state
               + (dt / 6) * weightedSum dOmega2 state params dt |}.

End Trigonometry.

(** *** The speed multiplier over binary64 *)

(** [this.speedMultiplier *= factor]: the new value of the field. *)
Definition multiplySpeed (factor speedMultiplier : float) : float :=
  speedMultiplier * factor.

Import String.

(** The key handler of [App], as it acts on the field. *)
Definition handleKeyDown (key : String.string) (speedMultiplier : float)
  : float :=
  let speedMultiplier :=
    if String.eqb key "m" then multiplySpeed 2 speedMultiplier
    else speedMultiplier in
  if String.eqb key "n" then multiplySpeed 0.5 speedMultiplier
  else speedMultiplier.

(** The two keys at the speed [2 ^ k]: they undo each other in either
    order, [m] gives [2 ^ (k + 1)] and [n] gives [2 ^ (k - 1)]. *)
Definition keysAgreeAt (k : Z) : bool :=
  let s := pow2 k in
  Leibniz.eqb (handleKeyDown "n" (handleKeyDown "m" s)) s
  && Leibniz.eqb (handleKeyDown "m" (handleKeyDown "n" s)) s
  && Leibniz.eqb (handleKeyDown "m" s) (pow2 (k + 1))
  && Leibniz.eqb (handleKeyDown "n" s) (pow2 (k - 1)).

End B64.

(** ** Proof steps *)

(** Split an equation between colours into its three components, without
    computing in them. *)
Ltac colour_components H :=
  cbv zeta in H;
  let Hrg := fresh "Hrg" in
  let Hr := fresh "Hr" in
  let Hg := fresh "Hg" in
  let Hb := fresh "Hb" in
  apply pair_equal_spec in H as [Hrg Hb];
  apply pair_equal_spec in Hrg as [Hr Hg];
  subst.

(** * Properties *)

(** ** The derivative function and the RK4 step *)

Section Integrator.

#[local] Open Scope R_scope.

Lemma den1_ge (state : PendulumState) (params : PhysicsParams) :
  0 <= m2 params -> 2 * m1 params <= Deriv.den1 state params.
Proof.
  intros Hm2. unfold Deriv.den1.
  pose proof (COS_bound (2 * theta1 state - 2 * theta2 state)) as [_ Hc].
  nra.
Qed.

Lemma divisionsDefined_of_positive
  (state : PendulumState) (params : PhysicsParams) :
  0 < m1 params -> 0 <= m2 params -> l1 params <> 0 -> l2 params <> 0 ->
  divisionsDefined state params.
Proof.
  intros Hm1 Hm2 Hl1 Hl2.
  pose proof (den1_ge state params Hm2) as Hden.
  unfold divisionsDefined, Deriv.divisor1, Deriv.divisor2.
  change (Deriv.den2 state params) with (Deriv.den1 state params).
  split; apply Rmult_integral_contrapositive_currified; trivial; lra.
Qed.



Lemma state_eq (a b : PendulumState) :
  theta1 a = theta1 b -> theta2 a = theta2 b ->
  omega1 a = omega1 b -> omega2 a = omega2 b -> a = b.
Proof. destruct a, b; simpl; intros; subst; reflexivity. Qed.

(** In exact arithmetic, for positive [l1], [l2], [m1], [m2], a step of size
    zero returns the input state in all four components, and none of its
    divisions has a zero divisor.  Over binary64 the first part holds only
    where nothing overflows. *)
Lemma integrateRK4Step_zero_dt_exact
  (state : PendulumState) (params : PhysicsParams) :
  0 < l1 params -> 0 < l2 params -> 0 < m1 params -> 0 < m2 params ->
  stepDivisionsDefined state params 0
  /\ integrateRK4Step state params 0 = state
  /\ theta1 (integrateRK4Step state params 0) = theta1 state
  /\ theta2 (integrateRK4Step state params 0) = theta2 state
  /\ omega1 (integrateRK4Step state params 0) = omega1 state
  /\ omega2 (integrateRK4Step state params 0) = omega2 state.
Proof.
  intros Hl1 Hl2 Hm1 Hm2.
  assert (Hdef : forall s, divisionsDefined s params).
  { intro s. apply divisionsDefined_of_positive; lra. }
  assert (Hfix : integrateRK4Step state params 0 = state).
  { apply state_eq; unfold integrateRK4Step; simpl; field. }
  split; [| split; [exact Hfix | rewrite Hfix; auto]].
  unfold stepDivisionsDefined; auto.
Qed.

(** At the origin of the state space both accelerations vanish. *)
Lemma getDerivatives_zeroState :
  getDerivatives zeroState FRACTAL_PARAMS = mkDerivatives 0 0 0 0.
Proof.
  unfold getDerivatives, Deriv.alpha1, Deriv.alpha2, Deriv.num1, Deriv.num2,
    Deriv.delta, zeroState; simpl.
  replace (0 - 0) with 0 by ring.
  replace (0 - 2 * 0) with 0 by ring.
  rewrite sin_0.
  f_equal; unfold Rdiv; ring.
Qed.

Lemma integrateRK4Step_zeroState (dt : R) :
  integrateRK4Step zeroState FRACTAL_PARAMS dt = zeroState.
Proof.
  assert (H2 : RK4.s2 zeroState FRACTAL_PARAMS dt = zeroState).
  { unfold RK4.s2, RK4.k1. rewrite getDerivatives_zeroState.
    apply state_eq; simpl; ring. }
  assert (H3 : RK4.s3 zeroState FRACTAL_PARAMS dt = zeroState).
  { unfold RK4.s3, RK4.k2. rewrite H2, getDerivatives_zeroState.
    apply state_eq; simpl; ring. }
  assert (H4 : RK4.s4 zeroState FRACTAL_PARAMS dt = zeroState).
  { unfold RK4.s4, RK4.k3. rewrite H3, getDerivatives_zeroState.
    apply state_eq; simpl; ring. }
  unfold integrateRK4Step, RK4.k4, RK4.k3, RK4.k2, RK4.k1.
  rewrite H4, H3, H2, getDerivatives_zeroState.
  apply state_eq; simpl; ring.
Qed.

(** C6: with the parameters [{l1: 1, l2: 1, m1: 1, m2: 1, g: 9.81}] the
    all-zero state is a fixed point of the step for every [dt], and stays
    one under any number of repeated applications. *)
Theorem zeroState_fixed_point (dt : R) (n : nat) :
  FRACTAL_PARAMS = mkParams 1 1 1 1 9.81
  /\ zeroState = mkState 0 0 0 0
  /\ getDerivatives zeroState FRACTAL_PARAMS = mkDerivatives 0 0 0 0
  /\ integrateRK4Step zeroState FRACTAL_PARAMS dt = zeroState
  /\ repeatStep n zeroState FRACTAL_PARAMS dt = zeroState.
Proof.
  split; [unfold FRACTAL_PARAMS; f_equal; lra | split; [reflexivity |]].
  split; [exact getDerivatives_zeroState |].
  split; [exact (integrateRK4Step_zeroState dt) |].
  induction n as [| n IH]; simpl.
  - reflexivity.
  - rewrite integrateRK4Step_zeroState. exact IH.
Qed.


End Integrator.

(** ** The integrator over binary64 *)

Section Binary64.

Import Floats.
#[local] Open Scope float_scope.
#[local] Set Warnings "-inexact-float".

Lemma nan_of_spec (x : float) : Prim2SF x = S754_nan -> x = nan.
Proof. intro H. apply Prim2SF_inj. now rewrite H. Qed.

Lemma finite_nan : B64.finite nan = false.
Proof. reflexivity. Qed.

(** An infinity or NaN times anything, plus or minus anything, or divided
    by anything is an infinity or NaN. *)
Lemma mul_not_finite_l (x y : float) :
  B64.finite x = false -> B64.finite (x * y) = false.
Proof.
  unfold B64.finite. rewrite mul_spec.
  destruct (Prim2SF x); try discriminate; intros _;
    destruct (Prim2SF y); reflexivity.
Qed.

Lemma mul_not_finite_r (x y : float) :
  B64.finite y = false -> B64.finite (x * y) = false.
Proof.
  unfold B64.finite. rewrite mul_spec.
  destruct (Prim2SF y); try discriminate; intros _;
    destruct (Prim2SF x); reflexivity.
Qed.

Lemma add_not_finite_l (x y : float) :
  B64.finite x = false -> B64.finite (x + y) = false.
Proof.
  unfold B64.finite. rewrite add_spec.
  destruct (Prim2SF x) as [| [|] | |]; try discriminate; intros _;
    destruct (Prim2SF y) as [| [|] | |]; reflexivity.
Qed.

Lemma add_not_finite_r (x y : float) :
  B64.finite y = false -> B64.finite (x + y) = false.
Proof.
  unfold B64.finite. rewrite add_spec.
  destruct (Prim2SF y) as [| [|] | |]; try discriminate; intros _;
    destruct (Prim2SF x) as [| [|] | |]; reflexivity.
Qed.

Lemma sub_not_finite_r (x y : float) :
  B64.finite y = false -> B64.finite (x - y) = false.
Proof.
  unfold B64.finite. rewrite sub_spec.
  destruct (Prim2SF y) as [| [|] | |]; try discriminate; intros _;
    destruct (Prim2SF x) as [| [|] | |]; reflexivity.
Qed.

Lemma div_not_finite_l (x y : float) :
  B64.finite x = false -> B64.finite (x / y) = false.
Proof.
  unfold B64.finite. rewrite div_spec.
  destruct (Prim2SF x); try discriminate; intros _;
    destruct (Prim2SF y); reflexivity.
Qed.

(** An infinity or NaN times zero is NaN, and NaN spreads. *)
Lemma not_finite_mul_zero (x : float) :
  B64.finite x = false -> x * 0 = nan.
Proof.
  unfold B64.finite. intro H. apply nan_of_spec. rewrite mul_spec.
  change (Prim2SF 0) with (S754_zero false).
  destruct (Prim2SF x); try discriminate; reflexivity.
Qed.

Lemma zero_mul_not_finite (x : float) :
  B64.finite x = false -> 0 * x = nan.
Proof.
  unfold B64.finite. intro H. apply nan_of_spec. rewrite mul_spec.
  change (Prim2SF 0) with (S754_zero false).
  destruct (Prim2SF x); try discriminate; reflexivity.
Qed.

Lemma mul_nan_l (y : float) : nan * y = nan.
Proof.
  apply nan_of_spec. rewrite mul_spec.
  change (Prim2SF nan) with S754_nan. reflexivity.
Qed.

Lemma mul_nan_r (x : float) : x * nan = nan.
Proof.
  apply nan_of_spec. rewrite mul_spec.
  change (Prim2SF nan) with S754_nan. now destruct (Prim2SF x).
Qed.

Lemma add_nan_l (y : float) : nan + y = nan.
Proof.
  apply nan_of_spec. rewrite add_spec.
  change (Prim2SF nan) with S754_nan. reflexivity.
Qed.

Lemma add_nan_r (x : float) : x + nan = nan.
Proof.
  apply nan_of_spec. rewrite add_spec.
  change (Prim2SF nan) with S754_nan. now destruct (Prim2SF x).
Qed.

(** One component of the [return] statement at [dt = 0]: the factor
    [dt / 6] is zero, and zero times the sum is a zero when the sum is
    finite and NaN when it is not. *)
Lemma component_at_zero_dt (before sum : float) :
  B64.returned sum before (before + (0 / 6) * sum).
Proof.
  change (0 / 6) with 0. unfold B64.returned.
  destruct (B64.finite sum) eqn:Hsum.
  - unfold B64.same, B64.isZero.
    assert (Hz : exists s, Prim2SF (0 * sum) = S754_zero s).
    { unfold B64.finite in Hsum. rewrite mul_spec.
      change (Prim2SF 0) with (S754_zero false).
      destruct (Prim2SF sum) as [s | s | | s m e]; try discriminate;
        eexists; reflexivity. }
    destruct Hz as [s Hz].
    destruct (Prim2SF before) as [sb | sb | | sb mb eb] eqn:Hb.
    + right. rewrite add_spec, Hb, Hz.
      split; [| reflexivity].
      destruct sb, s; reflexivity.
    + left. apply Prim2SF_inj. rewrite add_spec, Hb, Hz. reflexivity.
    + left. apply Prim2SF_inj. rewrite add_spec, Hb, Hz. reflexivity.
    + left. apply Prim2SF_inj. rewrite add_spec, Hb, Hz. reflexivity.
  - rewrite (zero_mul_not_finite sum Hsum). apply add_nan_r.
Qed.

(** C7, as the code has it over binary64: a step of size zero returns, in
    each component, the component of the input (a negative zero may come
    back as a positive zero) when the weighted sum of the four derivatives
    of that component is finite, and NaN when that sum is an infinity or
    NaN.  This holds for every state, all parameters and whatever
    [Math.sin] and [Math.cos] compute. *)
Theorem integrateRK4Step_zero_dt_binary64
  (Math_sin Math_cos : float -> float)
  (state : B64.PendulumState) (params : B64.PhysicsParams) :
  let after := B64.integrateRK4Step Math_sin Math_cos state params 0 in
  let sum := fun f => B64.weightedSum Math_sin Math_cos f state params 0 in
  B64.returned (sum B64.dTheta1) (B64.theta1 state) (B64.theta1 after)
  /\ B64.returned (sum B64.dTheta2) (B64.theta2 state) (B64.theta2 after)
  /\ B64.returned (sum B64.dOmega1) (B64.omega1 state) (B64.omega1 after)
  /\ B64.returned (sum B64.dOmega2) (B64.omega2 state) (B64.omega2 after).
Proof.
  cbv zeta. unfold B64.integrateRK4Step.
  cbn [B64.theta1 B64.theta2 B64.omega1 B64.omega2].
  repeat split; apply component_at_zero_dt.
Qed.

(** The state of the counterexample: finite, with a first velocity whose
    square overflows. *)
Lemma fast_state_accelerations (Math_sin Math_cos : float -> float) :
  let state := B64.mkState 1 2 1e200 0 in
  B64.finite (B64.alpha1 Math_sin Math_cos state B64.DEFAULT_PARAMS) = false
  /\ B64.finite (B64.alpha2 Math_sin Math_cos state B64.DEFAULT_PARAMS)
     = false.
Proof.
  cbv zeta. split.
  - unfold B64.alpha1, B64.num1.
    apply div_not_finite_l, sub_not_finite_r, mul_not_finite_r,
      add_not_finite_r, mul_not_finite_l.
    reflexivity.
  - unfold B64.alpha2, B64.num2.
    apply div_not_finite_l, mul_not_finite_r, add_not_finite_l,
      add_not_finite_l.
    reflexivity.
Qed.

Lemma fast_state_sums (Math_sin Math_cos : float -> float) :
  let state := B64.mkState 1 2 1e200 0 in
  let sum := fun f =>
    B64.weightedSum Math_sin Math_cos f state B64.DEFAULT_PARAMS 0 in
  B64.finite (sum B64.dTheta1) = false
  /\ B64.finite (sum B64.dTheta2) = false
  /\ B64.finite (sum B64.dOmega1) = false
  /\ B64.finite (sum B64.dOmega2) = false.
Proof.
  cbv zeta.
  destruct (fast_state_accelerations Math_sin Math_cos) as [H1 H2].
  cbv zeta in H1, H2.
  set (state := B64.mkState 1 2 1e200 0) in *.
  assert (Ho1 : B64.omega1 (B64.s2 Math_sin Math_cos state
                              B64.DEFAULT_PARAMS 0) = nan).
  { unfold B64.s2, B64.k1, B64.getDerivatives.
    cbn [B64.omega1 B64.dOmega1].
    rewrite (not_finite_mul_zero _ H1), mul_nan_l. apply add_nan_r. }
  assert (Ho2 : B64.omega2 (B64.s2 Math_sin Math_cos state
                              B64.DEFAULT_PARAMS 0) = nan).
  { unfold B64.s2, B64.k1, B64.getDerivatives.
    cbn [B64.omega2 B64.dOmega2].
    rewrite (not_finite_mul_zero _ H2), mul_nan_l. apply add_nan_r. }
  unfold B64.weightedSum.
  split; [| split; [| split]].
  - change (B64.dTheta1 (B64.k2 Math_sin Math_cos state
                             B64.DEFAULT_PARAMS 0))
      with (B64.omega1 (B64.s2 Math_sin Math_cos state
                          B64.DEFAULT_PARAMS 0)).
    rewrite Ho1, mul_nan_r, add_nan_r, !add_nan_l. reflexivity.
  - change (B64.dTheta2 (B64.k2 Math_sin Math_cos state
                             B64.DEFAULT_PARAMS 0))
      with (B64.omega2 (B64.s2 Math_sin Math_cos state
                          B64.DEFAULT_PARAMS 0)).
    rewrite Ho2, mul_nan_r, add_nan_r, !add_nan_l. reflexivity.
  - apply add_not_finite_l, add_not_finite_l, add_not_finite_l.
    exact H1.
  - apply add_not_finite_l, add_not_finite_l, add_not_finite_l.
    exact H2.
Qed.

(** C7 fails as stated: at the finite state [{1, 2, 1e200, 0}] with the
    default parameters the square of the first velocity overflows, and a
    step of size zero returns NaN in all four components, whatever
    [Math.sin] and [Math.cos] compute; so for no implementation of them
    does the step return the state. *)
Lemma integrateRK4Step_zero_dt_counterexample :
  (~ exists Math_sin Math_cos : float -> float,
       B64.integrateRK4Step Math_sin Math_cos (B64.mkState 1 2 1e200 0)
         B64.DEFAULT_PARAMS 0
       <> B64.mkState nan nan nan nan)
  /\ (~ exists Math_sin Math_cos : float -> float,
        B64.integrateRK4Step Math_sin Math_cos (B64.mkState 1 2 1e200 0)
          B64.DEFAULT_PARAMS 0
        = B64.mkState 1 2 1e200 0).
Proof.
  assert (Hnan : forall Math_sin Math_cos : float -> float,
            B64.integrateRK4Step Math_sin Math_cos (B64.mkState 1 2 1e200 0)
              B64.DEFAULT_PARAMS 0
            = B64.mkState nan nan nan nan).
  { intros Math_sin Math_cos.
    destruct (fast_state_sums Math_sin Math_cos) as (H1 & H2 & H3 & H4).
    cbv zeta in H1, H2, H3, H4.
    unfold B64.integrateRK4Step. change (0 / 6) with 0.
    rewrite (zero_mul_not_finite _ H1), (zero_mul_not_finite _ H2),
      (zero_mul_not_finite _ H3), (zero_mul_not_finite _ H4).
    now rewrite !add_nan_r. }
  split.
  - intros (Math_sin & Math_cos & Hne). apply Hne, Hnan.
  - intros (Math_sin & Math_cos & Heq). rewrite Hnan in Heq.
    discriminate Heq.
Qed.


End Binary64.

(** ** The simulation actor: one frame *)

Section Frame.

#[local] Open Scope R_scope.
#[local] Open Scope action_scope.

Lemma setState_same (sim : PendulumSimulation) :
  Sim.setState (state sim) sim = sim.
Proof. destruct sim; reflexivity. Qed.

Lemma logged_nil (h : Host) : Sim.logged [] h = h.
Proof. destruct h; unfold Sim.logged; simpl; now rewrite app_nil_r. Qed.

Lemma logged_logged (es fs : list Event) (h : Host) :
  Sim.logged fs (Sim.logged es h) = Sim.logged (es ++ fs) h.
Proof. unfold Sim.logged; simpl; now rewrite app_assoc. Qed.

Lemma emit_logged (e : Event) (sim : PendulumSimulation) (h : Host) :
  Sim.emit e (sim, h) = (tt, (sim, Sim.logged [e] h)).
Proof. reflexivity. Qed.

Lemma forEach_emit {A : Type} (f : A -> Event) (l : list A)
  (sim : PendulumSimulation) (h : Host) :
  Sim.forEach l (fun a => Sim.emit (f a)) (sim, h)
  = (tt, (sim, Sim.logged (map f l) h)).
Proof.
  revert h; induction l as [| a l IH]; intro h; simpl.
  - now rewrite logged_nil.
  - unfold Sim.bind at 1. rewrite emit_logged, IH, logged_logged.
    reflexivity.
Qed.

Lemma notify_logged (history : list PendulumState)
  (sim : PendulumSimulation) (h : Host) :
  Sim.notify history (sim, h)
  = (tt, (sim, Sim.logged
                 (map (fun cb => HistoryDelivered cb history)
                      (subscribers sim)) h)).
Proof.
  unfold Sim.notify, Sim.bind, Sim.this; simpl.
  apply (forEach_emit (fun cb => HistoryDelivered cb history)).
Qed.




(** The [for] loop of a frame pushes the states of [frameHistory] after the
    one it starts in, and leaves the last of them as the live state. *)
Lemma stepLoop_frameHistory (n : nat) (dt : R) (history : list PendulumState)
  (sim : PendulumSimulation) (h : Host) :
  Sim.stepLoop n dt history (sim, h)
  = (history ++ tl (Sim.frameHistory n (state sim) (params sim) dt),
     (Sim.setState (repeatStep n (state sim) (params sim) dt) sim, h)).
Proof.
  revert history sim; induction n as [| n IH]; intros history sim.
  - simpl. unfold Sim.ret. now rewrite app_nil_r, setState_same.
  - simpl. unfold Sim.bind at 1, Sim.this at 1; simpl.
    unfold Sim.bind at 1, Sim.assign at 1; simpl.
    unfold Sim.bind at 1, Sim.this at 1; simpl.
    rewrite IH; simpl.
    rewrite <- app_assoc; simpl.
    f_equal.
    destruct n; reflexivity.
Qed.

Lemma deliveredTo_app (cb : Callback) (es fs : list Event) :
  Sim.deliveredTo cb (es ++ fs)
  = Sim.deliveredTo cb es ++ Sim.deliveredTo cb fs.
Proof.
  induction es as [| e es IH]; simpl; [reflexivity |].
  destruct e; trivial.
  destruct (Nat.eqb callback cb); simpl; now rewrite IH.
Qed.

Lemma deliveredTo_notify_absent (cb : Callback)
  (history : list PendulumState) (l : list Callback) :
  ~ In cb l ->
  Sim.deliveredTo cb (map (fun c => HistoryDelivered c history) l) = [].
Proof.
  induction l as [| c l IH]; simpl; intro Hn; [reflexivity |].
  destruct (Nat.eqb_spec c cb) as [-> | Hne].
  - exfalso; apply Hn; now left.
  - apply IH. intro Hin; apply Hn; now right.
Qed.


(** What one call of [loop] does to a running simulation. *)
Lemma loop_running (sim : PendulumSimulation) (h : Host) :
  isRunning sim = true ->
  let n := Z.to_nat (Sim.stepsPerFrame (speedMultiplier sim)) in
  let history := Sim.frameHistory n (state sim) (params sim) 0.01 in
  Sim.loop (sim, h)
  = (tt,
     (Sim.setAnimationFrameId (Some (nextHandle h))
        (Sim.setState (repeatStep n (state sim) (params sim) 0.01) sim),
      mkHost (randomSource h) (randomsDrawn h) (S (nextHandle h))
        (log h
         ++ map (fun cb => HistoryDelivered cb history) (subscribers sim)
         ++ [FrameRequested (nextHandle h)]))).
Proof.
  intros Hrun n history.
  unfold Sim.loop.
  unfold Sim.bind at 1, Sim.this at 1; simpl.
  rewrite Hrun; simpl.
  unfold Sim.bind at 1. rewrite stepLoop_frameHistory.
  fold n.
  change ([state sim] ++ tl (Sim.frameHistory n (state sim) (params sim) 0.01))
    with (state sim :: tl (Sim.frameHistory n (state sim) (params sim) 0.01)).
  replace (state sim :: tl (Sim.frameHistory n (state sim) (params sim) 0.01))
    with history by (unfold history; destruct n; reflexivity).
  unfold Sim.bind at 1. rewrite notify_logged.
  unfold Sim.bind, Sim.requestAnimationFrame, Sim.assign, Sim.logged; simpl.
  now rewrite <- app_assoc.
Qed.




End Frame.

(** ** The first frame of the default simulation

    With the default parameters and the default start, the first pendulum is
    horizontal and at rest: gravity pulls it down, and within the forty
    steps of a frame its angular velocity becomes and stays negative. *)

Section FirstFrame.

#[local] Open Scope R_scope.









End FirstFrame.

(** ** The simulation actor: reset *)

Section Reset.

#[local] Open Scope R_scope.

Lemma stop_result (sim : PendulumSimulation) (h : Host) :
  Sim.stop (sim, h)
  = (tt, (Sim.setAnimationFrameId None (Sim.setIsRunning false sim),
          Sim.logged (Sim.cancelled sim) h)).
Proof.
  destruct sim as [s0 i0 p0 subs listeners [handle |] running speed].
  - reflexivity.
  - unfold Sim.stop, Sim.bind, Sim.assign, Sim.this, Sim.cancelled, Sim.ret.
    cbn. now rewrite logged_nil.
Qed.

Lemma reset_result (a b c d : option R) (sim : PendulumSimulation) (h : Host) :
  let s := Sim.stateAssigned a b c d sim h in
  let n := Z.to_nat (Sim.stepsPerFrame (speedMultiplier sim)) in
  Sim.reset a b c d (sim, h)
  = (tt,
     (mkSim (repeatStep n s (params sim) 0.01) s (params sim)
            (subscribers sim) (resetListeners sim) (Some (nextHandle h))
            true (speedMultiplier sim),
      mkHost (randomSource h)
             (if Sim.allOmitted a b c d then S (S (randomsDrawn h))
              else randomsDrawn h)
             (S (nextHandle h))
             (log h ++ Sim.cancelled sim
              ++ map ResetDelivered (resetListeners sim)
              ++ map (fun cb => HistoryDelivered cb [s]) (subscribers sim)
              ++ map (fun cb => HistoryDelivered cb
                                  (Sim.frameHistory n s (params sim) 0.01))
                     (subscribers sim)
              ++ [FrameRequested (nextHandle h)]))).
Proof.
  intros s n.
  unfold Sim.reset.
  unfold Sim.bind at 1. rewrite stop_result.
  unfold Sim.bind at 1, Sim.this at 1.
  cbn [fst snd initialState Sim.setAnimationFrameId Sim.setIsRunning].
  destruct (initialState sim) as [i1 i2 i3 i4] eqn:Hinit.
  unfold Sim.bind at 1.
  assert (Hassign :
    (if Sim.allOmitted a b c d
     then Sim.bind Sim.Math_random (fun r1 =>
            Sim.bind Sim.Math_random (fun r2 =>
              Sim.assign (Sim.setState
                (mkState (PI / 2 + (r1 * 0.5 - 0.25))
                         (PI / 2 + 1 + (r2 * 0.5 - 0.25)) 0 0))))
     else Sim.assign (Sim.setState
            (mkState (Sim.orElse a i1) (Sim.orElse b i2)
                     (Sim.orElse c i3) (Sim.orElse d i4))))
      (Sim.setAnimationFrameId None (Sim.setIsRunning false sim),
       Sim.logged (Sim.cancelled sim) h)
    = (tt,
       (Sim.setState s
          (Sim.setAnimationFrameId None (Sim.setIsRunning false sim)),
        mkHost (randomSource h)
               (if Sim.allOmitted a b c d then S (S (randomsDrawn h))
                else randomsDrawn h)
               (nextHandle h) (log h ++ Sim.cancelled sim)))).
  { unfold s, Sim.stateAssigned. rewrite Hinit.
    destruct (Sim.allOmitted a b c d); reflexivity. }
  rewrite Hassign; clear Hassign.
  unfold Sim.bind at 1, Sim.this at 1; cbn [fst snd].
  unfold Sim.bind at 1, Sim.assign at 1; cbn [fst snd].
  unfold Sim.bind at 1, Sim.this at 1; cbn [fst snd].
  unfold Sim.bind at 1.
  rewrite (forEach_emit ResetDelivered).
  unfold Sim.bind at 1, Sim.this at 1; cbn [fst snd].
  unfold Sim.bind at 1. rewrite notify_logged.
  unfold Sim.start.
  unfold Sim.bind at 1, Sim.this at 1; cbn [fst snd].
  cbn [isRunning Sim.setInitialState Sim.setState Sim.setAnimationFrameId
       Sim.setIsRunning state initialState params subscribers resetListeners
       animationFrameId speedMultiplier].
  unfold Sim.bind at 1, Sim.assign at 1; cbn [fst snd].
  rewrite loop_running by reflexivity.
  cbn [isRunning Sim.setInitialState Sim.setState Sim.setAnimationFrameId
       Sim.setIsRunning state initialState params subscribers resetListeners
       animationFrameId speedMultiplier Sim.logged randomSource randomsDrawn
       nextHandle log].
  fold n.
  rewrite <- !app_assoc.
  reflexivity.
Qed.








End Reset.

(** ** The simulation actor: the sets of callbacks *)

Section Callbacks.

#[local] Open Scope R_scope.

Lemma setAdd_NoDup (cb : Callback) (l : list Callback) :
  NoDup l -> NoDup (Sim.setAdd cb l).
Proof.
  intro Hl. unfold Sim.setAdd.
  destruct (in_dec Nat.eq_dec cb l) as [Hin | Hnot]; [exact Hl |].
  apply NoDup_app; [exact Hl | repeat constructor; simpl; tauto |].
  intros c Hc [<- | []]. contradiction.
Qed.

Lemma setDelete_NoDup (cb : Callback) (l : list Callback) :
  NoDup l -> NoDup (Sim.setDelete cb l).
Proof.
  intro Hl. unfold Sim.setDelete.
  induction Hl as [| c l Hnot Hl IH]; simpl; [constructor |].
  destruct (Nat.eq_dec cb c); [exact IH |].
  constructor; [| exact IH].
  intro Hin. apply in_remove in Hin as [Hin _]. contradiction.
Qed.

Lemma loop_callbacks (sim : PendulumSimulation) (h : Host) :
  subscribers (fst (snd (Sim.loop (sim, h)))) = subscribers sim
  /\ resetListeners (fst (snd (Sim.loop (sim, h)))) = resetListeners sim.
Proof.
  destruct (isRunning sim) eqn:Hrun.
  - rewrite (loop_running sim h Hrun). split; reflexivity.
  - unfold Sim.loop, Sim.bind, Sim.this; cbn [fst]. rewrite Hrun.
    split; reflexivity.
Qed.

Lemma start_unfold (sim : PendulumSimulation) (h : Host) :
  Sim.start (sim, h)
  = if isRunning sim then (tt, (sim, h))
    else Sim.loop (Sim.setIsRunning true sim, h).
Proof.
  unfold Sim.start, Sim.bind, Sim.this, Sim.assign, Sim.ret; cbn [fst snd].
  destruct (isRunning sim); reflexivity.
Qed.

Lemma start_callbacks (sim : PendulumSimulation) (h : Host) :
  subscribers (fst (snd (Sim.start (sim, h)))) = subscribers sim
  /\ resetListeners (fst (snd (Sim.start (sim, h)))) = resetListeners sim.
Proof.
  rewrite start_unfold.
  destruct (isRunning sim) eqn:Hrun; [split; reflexivity |].
  apply (loop_callbacks (Sim.setIsRunning true sim) h).
Qed.

(** Each call leaves both sets of callbacks duplicate-free. *)
Lemma perform_wellFormed (call : Sim.Call) (sim : PendulumSimulation)
  (h : Host) :
  Sim.wellFormed sim -> Sim.wellFormed (fst (snd (Sim.perform call (sim, h)))).
Proof.
  intros [Hsubs Hlisteners]. unfold Sim.wellFormed.
  destruct call as [cb | cb | cb | cb | | | a b c d | factor |];
    cbn [Sim.perform].
  - split; [apply setAdd_NoDup |]; assumption.
  - split; [apply setDelete_NoDup |]; assumption.
  - split; [| apply setAdd_NoDup]; assumption.
  - split; [| apply setDelete_NoDup]; assumption.
  - destruct (start_callbacks sim h) as [-> ->]. now split.
  - rewrite stop_result. now split.
  - rewrite reset_result. now split.
  - now split.
  - destruct (loop_callbacks sim h) as [-> ->]. now split.
Qed.

(** Whatever is done to a new simulation, its sets of callbacks hold each
    reference once: every simulation that can arise is well-formed. *)
Lemma reachable_wellFormed (calls : list Sim.Call) (initial : PendulumState)
  (p : PhysicsParams) (h : Host) :
  Sim.wellFormed (fst (Sim.performAll calls (Sim.new initial p, h))).
Proof.
  assert (Hall : forall w, Sim.wellFormed (fst w) ->
                           Sim.wellFormed (fst (Sim.performAll calls w))).
  { induction calls as [| call calls IH]; intros [sim host] Hw;
      [exact Hw |].
    cbn [Sim.performAll]. 
    pose proof (perform_wellFormed call sim host Hw) as Hnext.
    destruct (Sim.perform call (sim, host)) as [u [sim' host']].
    apply IH. exact Hnext. }
  apply Hall. split; constructor.
Qed.

End Callbacks.

(** ** The map generator: colours *)

Section Colours.

#[local] Open Scope R_scope.

Lemma Zfloor_between (x : R) (a b : Z) :
  IZR a <= x -> x < IZR b + 1 -> (a <= Zfloor x <= b)%Z.
Proof.
  intros Ha Hb.
  pose proof (Zfloor_bound x) as [Hlo Hhi].
  split.
  - now apply Zfloor_lub.
  - assert (H : (Zfloor x < b + 1)%Z); [| lia].
    apply lt_IZR. rewrite plus_IZR. lra.
Qed.

Lemma branch1_range (i : R) (r g b : Z) :
  0 <= i < 0.2 -> Fractal.branch1 i = (r, g, b) ->
  (0 <= r <= 255 /\ 0 <= g <= 255 /\ 0 <= b <= 255)%Z.
Proof.
  intros Hi Heq. unfold Fractal.branch1 in Heq.
  colour_components Heq.
  assert (H := Zfloor_between (i / 0.2 * 160) 0 159 ltac:(lra) ltac:(lra)).
  lia.
Qed.

Lemma branch2_range (i : R) (r g b : Z) :
  0.2 <= i < 0.4 -> Fractal.branch2 i = (r, g, b) ->
  (0 <= r <= 255 /\ 0 <= g <= 255 /\ 0 <= b <= 255)%Z.
Proof.
  intros Hi Heq. unfold Fractal.branch2 in Heq.
  colour_components Heq.
  assert (H1 := Zfloor_between ((i - 0.2) / 0.2 * 100) 0 99
                  ltac:(lra) ltac:(lra)).
  assert (H2 := Zfloor_between ((i - 0.2) / 0.2 * 95) 0 94
                  ltac:(lra) ltac:(lra)).
  lia.
Qed.

Lemma branch3_range (i : R) (r g b : Z) :
  0.4 <= i < 0.6 -> Fractal.branch3 i = (r, g, b) ->
  (0 <= r <= 255 /\ 0 <= g <= 255 /\ 0 <= b <= 255)%Z.
Proof.
  intros Hi Heq. unfold Fractal.branch3 in Heq.
  colour_components Heq.
  assert (H1 := Zfloor_between ((i - 0.4) / 0.2 * 155) 0 154
                  ltac:(lra) ltac:(lra)).
  assert (H2 := Zfloor_between ((i - 0.4) / 0.2 * 255) 0 254
                  ltac:(lra) ltac:(lra)).
  lia.
Qed.

Lemma branch4_range (i : R) (r g b : Z) :
  0.6 <= i < 0.8 -> Fractal.branch4 i = (r, g, b) ->
  (0 <= r <= 255 /\ 0 <= g <= 255 /\ 0 <= b <= 255)%Z.
Proof.
  intros Hi Heq. unfold Fractal.branch4 in Heq.
  colour_components Heq.
  assert (H1 := Zfloor_between ((i - 0.6) / 0.2 * 200) 0 199
                  ltac:(lra) ltac:(lra)).
  lia.
Qed.

Lemma branch5_range (i : R) (r g b : Z) :
  0.8 <= i <= 1 -> Fractal.branch5 i = (r, g, b) ->
  (0 <= r <= 255 /\ 0 <= g <= 255 /\ 0 <= b <= 255)%Z.
Proof.
  intros Hi Heq. unfold Fractal.branch5 in Heq.
  colour_components Heq.
  assert (H1 := Zfloor_between ((i - 0.8) / 0.2 * 55) 0 55
                  ltac:(lra) ltac:(lra)).
  assert (H2 := Zfloor_between ((i - 0.8) / 0.2 * 255) 0 255
                  ltac:(lra) ltac:(lra)).
  lia.
Qed.

Lemma colourOf_range (i : R) (r g b : Z) :
  0 <= i <= 1 -> Fractal.colourOf i = (r, g, b) ->
  (0 <= r <= 255 /\ 0 <= g <= 255 /\ 0 <= b <= 255)%Z.
Proof.
  intros Hi. unfold Fractal.colourOf.
  destruct (Rlt_dec i 0.2); [apply branch1_range; lra |].
  destruct (Rlt_dec i 0.4); [apply branch2_range; lra |].
  destruct (Rlt_dec i 0.6); [apply branch3_range; lra |].
  destruct (Rlt_dec i 0.8); [apply branch4_range; lra |].
  apply branch5_range; lra.
Qed.

Lemma Zfloor_of_Z (x : R) (z : Z) : x = IZR z -> Zfloor x = z.
Proof. intros ->. apply ZfloorZ. Qed.

Lemma branches_agree :
  Fractal.branch1 0.2 = Fractal.branch2 0.2
  /\ Fractal.branch2 0.4 = Fractal.branch3 0.4
  /\ Fractal.branch3 0.6 = Fractal.branch4 0.6
  /\ Fractal.branch4 0.8 = Fractal.branch5 0.8.
Proof.
  unfold Fractal.branch1, Fractal.branch2, Fractal.branch3, Fractal.branch4,
    Fractal.branch5.
  repeat split.
  - rewrite (Zfloor_of_Z (0.2 / 0.2 * 160) 160) by lra.
    rewrite (Zfloor_of_Z ((0.2 - 0.2) / 0.2 * 100) 0) by lra.
    rewrite (Zfloor_of_Z ((0.2 - 0.2) / 0.2 * 95) 0) by lra.
    reflexivity.
  - rewrite (Zfloor_of_Z ((0.4 - 0.2) / 0.2 * 100) 100) by lra.
    rewrite (Zfloor_of_Z ((0.4 - 0.2) / 0.2 * 95) 95) by lra.
    rewrite (Zfloor_of_Z ((0.4 - 0.4) / 0.2 * 155) 0) by lra.
    rewrite (Zfloor_of_Z ((0.4 - 0.4) / 0.2 * 255) 0) by lra.
    reflexivity.
  - rewrite (Zfloor_of_Z ((0.6 - 0.4) / 0.2 * 155) 155) by lra.
    rewrite (Zfloor_of_Z ((0.6 - 0.4) / 0.2 * 255) 255) by lra.
    rewrite (Zfloor_of_Z ((0.6 - 0.6) / 0.2 * 200) 0) by lra.
    reflexivity.
  - rewrite (Zfloor_of_Z ((0.8 - 0.6) / 0.2 * 200) 200) by lra.
    rewrite (Zfloor_of_Z ((0.8 - 0.8) / 0.2 * 55) 0) by lra.
    rewrite (Zfloor_of_Z ((0.8 - 0.8) / 0.2 * 255) 0) by lra.
    reflexivity.
Qed.

(** The colour the chain gives at a boundary is the one the branch below
    the boundary would give there. *)
Lemma colourOf_at_boundaries :
  Fractal.colourOf 0.2 = Fractal.branch1 0.2
  /\ Fractal.colourOf 0.4 = Fractal.branch2 0.4
  /\ Fractal.colourOf 0.6 = Fractal.branch3 0.6
  /\ Fractal.colourOf 0.8 = Fractal.branch4 0.8.
Proof.
  destruct branches_agree as (H1 & H2 & H3 & H4).
  unfold Fractal.colourOf.
  repeat split.
  - destruct (Rlt_dec 0.2 0.2); [lra |].
    destruct (Rlt_dec 0.2 0.4); [now rewrite H1 | lra].
  - destruct (Rlt_dec 0.4 0.2); [lra |].
    destruct (Rlt_dec 0.4 0.4); [lra |].
    destruct (Rlt_dec 0.4 0.6); [now rewrite H2 | lra].
  - destruct (Rlt_dec 0.6 0.2); [lra |].
    destruct (Rlt_dec 0.6 0.4); [lra |].
    destruct (Rlt_dec 0.6 0.6); [lra |].
    destruct (Rlt_dec 0.6 0.8); [now rewrite H3 | lra].
  - destruct (Rlt_dec 0.8 0.2); [lra |].
    destruct (Rlt_dec 0.8 0.4); [lra |].
    destruct (Rlt_dec 0.8 0.6); [lra |].
    destruct (Rlt_dec 0.8 0.8); [lra |].
    now rewrite H4.
Qed.

Lemma rgbaOf_components (i : R) (r g b a : Z) :
  Fractal.rgbaOf i = (r, g, b, a) ->
  Fractal.colourOf i = (r, g, b) /\ a = 255%Z.
Proof.
  unfold Fractal.rgbaOf. destruct (Fractal.colourOf i) as [[r' g'] b'].
  intro Heq.
  apply pair_equal_spec in Heq as [Heq <-].
  apply pair_equal_spec in Heq as [Heq <-].
  apply pair_equal_spec in Heq as [<- <-].
  split; reflexivity.
Qed.

(** C10: for an intensity in [0, 1] the five-branch colour mapping gives
    [r], [g], [b] within [0, 255] and alpha 255, and at each of the
    boundaries 0.2, 0.4, 0.6, 0.8 the formulas of the two adjacent branches
    give the same colour, which is the colour of the mapping there. *)
Theorem colour_mapping_range_and_boundaries (i : R) (r g b a : Z) :
  0 <= i <= 1 -> Fractal.rgbaOf i = (r, g, b, a) ->
  (0 <= r <= 255)%Z /\ (0 <= g <= 255)%Z /\ (0 <= b <= 255)%Z
  /\ a = 255%Z
  /\ Fractal.branch1 0.2 = Fractal.branch2 0.2
  /\ Fractal.branch2 0.4 = Fractal.branch3 0.4
  /\ Fractal.branch3 0.6 = Fractal.branch4 0.6
  /\ Fractal.branch4 0.8 = Fractal.branch5 0.8
  /\ Fractal.colourOf 0.2 = Fractal.branch1 0.2
  /\ Fractal.colourOf 0.4 = Fractal.branch2 0.4
  /\ Fractal.colourOf 0.6 = Fractal.branch3 0.6
  /\ Fractal.colourOf 0.8 = Fractal.branch4 0.8.
Proof.
  intros Hi Heq.
  destruct (rgbaOf_components i r g b a Heq) as [Hc Ha].
  destruct (colourOf_range i r g b Hi Hc) as (Hr & Hg & Hb).
  destruct branches_agree as (H1 & H2 & H3 & H4).
  destruct colourOf_at_boundaries as (B1 & B2 & B3 & B4).
  repeat split; solve [lia | assumption].
Qed.

Lemma rgbaOf_half : Fractal.rgbaOf 0.5 = (177, 0, 128, 255)%Z.
Proof.
  unfold Fractal.rgbaOf, Fractal.colourOf.
  destruct (Rlt_dec 0.5 0.2); [lra |].
  destruct (Rlt_dec 0.5 0.4); [lra |].
  destruct (Rlt_dec 0.5 0.6); [| lra].
  unfold Fractal.branch3, Fractal.alpha.
  rewrite (Zfloor_eq 77 ((0.5 - 0.4) / 0.2 * 155)) by lra.
  rewrite (Zfloor_eq 127 ((0.5 - 0.4) / 0.2 * 255)) by lra.
  reflexivity.
Qed.

Lemma colour_mapping_range_and_boundaries_witness :
  (0 <= 177 <= 255)%Z /\ (0 <= 0 <= 255)%Z /\ (0 <= 128 <= 255)%Z.
Proof.
  assert (Hi : 0 <= 0.5 <= 1) by lra.
  destruct (colour_mapping_range_and_boundaries 0.5 177 0 128 255 Hi
              rgbaOf_half) as (Hr & Hg & Hb & _).
  exact (conj Hr (conj Hg Hb)).
Defined.

End Colours.

(** ** The map generator: one cell *)

Section Cell.

#[local] Open Scope R_scope.

Lemma x_of_cell (c : Fractal.Constants) (x y : Z) :
  (0 <= x < Fractal.RESOLUTION c)%Z -> (0 <= y)%Z ->
  Fractal.x c (y * Fractal.RESOLUTION c + x) = x.
Proof.
  intros Hx Hy. unfold Fractal.x.
  rewrite Z.rem_mod_nonneg by nia.
  rewrite Z.add_comm, Z_mod_plus_full.
  apply Z.mod_small; lia.
Qed.

Lemma y_of_cell (c : Fractal.Constants) (x y : Z) :
  (0 <= x < Fractal.RESOLUTION c)%Z ->
  Fractal.y c (y * Fractal.RESOLUTION c + x) = y.
Proof.
  intros Hx. unfold Fractal.y.
  apply Zfloor_eq.
  rewrite plus_IZR, mult_IZR.
  assert (Hr : 0 < IZR (Fractal.RESOLUTION c)) by (apply IZR_lt; lia).
  assert (Hx0 : 0 <= IZR x) by (apply IZR_le; lia).
  assert (Hx1 : IZR x < IZR (Fractal.RESOLUTION c)) by (apply IZR_lt; lia).
  set (r := IZR (Fractal.RESOLUTION c)) in *.
  replace ((IZR y * r + IZR x) / r) with (IZR y + IZR x / r)
    by (field; lra).
  assert (Hq : 0 <= IZR x / r < 1).
  { split.
    - apply Rmult_le_pos; [lra | left; now apply Rinv_0_lt_compat].
    - apply Rmult_lt_reg_r with r; trivial.
      unfold Rdiv. rewrite Rmult_assoc, Rinv_l by lra. lra. }
  lra.
Qed.

Lemma simLoop_trajectories (c : Fractal.Constants) (n : nat)
  (a b : PendulumState) (acc : R) :
  Fractal.simLoop c n a b acc
  = (repeatStep n a FRACTAL_PARAMS (Fractal.DT c),
     repeatStep n b FRACTAL_PARAMS (Fractal.DT c),
     acc + Fractal.Spec.sumList
             (map (fun i =>
                     Rmin (Fractal.Spec.distance
                             (repeatStep i a FRACTAL_PARAMS (Fractal.DT c))
                             (repeatStep i b FRACTAL_PARAMS (Fractal.DT c)))
                          2.0)
                  (seq 1 n))).
Proof.
  revert a b acc; induction n as [| n IH]; intros a b acc.
  - simpl. f_equal. ring.
  - cbn [Fractal.simLoop]. unfold Fractal.simStep. rewrite IH.
    set (a' := integrateRK4Step a FRACTAL_PARAMS (Fractal.DT c)).
    set (b' := integrateRK4Step b FRACTAL_PARAMS (Fractal.DT c)).
    apply f_equal2; [reflexivity |].
    change (seq 1 (S n)) with (1%nat :: seq 2 n).
    rewrite <- (seq_shift n 1).
    change (map ?f (1%nat :: ?l)) with (f 1%nat :: map f l).
    rewrite map_map.
    unfold Fractal.Spec.sumList; cbn [fold_right repeatStep].
    fold a' b'.
    unfold Fractal.Spec.distance at 2.
    replace ((theta1 a' - theta1 b') ^ 2 + (theta2 a' - theta2 b') ^ 2
             + (omega1 a' - omega1 b') ^ 2 + (omega2 a' - omega2 b') ^ 2)
      with ((theta1 a' - theta1 b') * (theta1 a' - theta1 b')
            + (theta2 a' - theta2 b') * (theta2 a' - theta2 b')
            + (omega1 a' - omega1 b') * (omega1 a' - omega1 b')
            + (omega2 a' - omega2 b') * (omega2 a' - omega2 b'))
      by ring.
    rewrite Rplus_assoc. reflexivity.
Qed.

Lemma sumList_nonneg (l : list R) :
  (forall v, In v l -> 0 <= v) -> 0 <= Fractal.Spec.sumList l.
Proof.
  induction l as [| a l IH]; intro Hall; simpl; [lra |].
  assert (0 <= a) by (apply Hall; now left).
  assert (0 <= Fractal.Spec.sumList l)
    by (apply IH; intros v Hv; apply Hall; now right).
  unfold Fractal.Spec.sumList in *. lra.
Qed.

(** The base handed to [Math.pow] is never negative: the average of the
    clamped distances is at least 0 when the step count is positive. *)
Lemma avgDist_nonneg (c : Fractal.Constants) (pixelIndex : Z) :
  (0 < Fractal.SIM_STEPS c)%Z -> 0 <= Fractal.avgDist c pixelIndex / 1.5.
Proof.
  intro Hsteps. unfold Fractal.avgDist, Fractal.afterSimLoop.
  rewrite simLoop_trajectories. cbn [snd].
  assert (Hn : 0 < IZR (Fractal.SIM_STEPS c)) by (apply IZR_lt; lia).
  assert (Hsum : 0 <= 0 + Fractal.Spec.sumList
            (map (fun i =>
                    Rmin (Fractal.Spec.distance
                            (repeatStep i (Fractal.s1Of c pixelIndex)
                               FRACTAL_PARAMS (Fractal.DT c))
                            (repeatStep i (Fractal.s2Of c pixelIndex)
                               FRACTAL_PARAMS (Fractal.DT c)))
                         2.0)
                 (seq 1 (Z.to_nat (Fractal.SIM_STEPS c))))).
  { rewrite Rplus_0_l. apply sumList_nonneg.
    intros v Hv. apply in_map_iff in Hv as (i & <- & _).
    apply Rmin_glb; [apply sqrt_pos | lra]. }
  apply Rmult_le_pos; [| lra].
  apply Rmult_le_pos; [exact Hsum |].
  left. now apply Rinv_0_lt_compat.
Qed.

Lemma Math_pow_nonneg (x y : R) : 0 <= JS.Math_pow x y.
Proof.
  unfold JS.Math_pow. destruct (Rlt_dec 0 x); [| lra].
  unfold Rpower. left. apply exp_pos.
Qed.

Lemma clamp_of_nonneg (v : R) :
  0 <= v -> Fractal.Spec.clamp 0 1 v = Rmin 1 v.
Proof.
  intro Hv. unfold Fractal.Spec.clamp.
  apply Rmax_right. apply Rmin_glb; lra.
Qed.

(** C1: for every cell [(x, y)] of the grid, the generator seeds trajectory A
    at angles 0 and velocities [minOmega + (x/RESOLUTION)*range] and
    [minOmega + (y/RESOLUTION)*range], trajectory B at the same state with
    both velocities offset by [EPSILON], advances both [SIM_STEPS] times with
    step [DT]; its score is the mean over the steps of the Euclidean
    distance of the two states clamped to 2.0, and its intensity is
    [clamp(0, 1, (score/1.5)^0.4)]. *)
Theorem cell_intensity_matches_specification
  (c : Fractal.Constants) (x y : Z) :
  (0 <= x < Fractal.RESOLUTION c)%Z -> (0 <= y < Fractal.RESOLUTION c)%Z ->
  let pixelIndex := (y * Fractal.RESOLUTION c + x)%Z in
  let steps := Z.to_nat (Fractal.SIM_STEPS c) in
  Fractal.x c pixelIndex = x
  /\ Fractal.y c pixelIndex = y
  /\ Fractal.s1Of c pixelIndex
     = mkState 0 0
         (Fractal.minOmega Fractal.BOUNDS
          + (IZR x / IZR (Fractal.RESOLUTION c))
            * Fractal.range Fractal.BOUNDS)
         (Fractal.minOmega Fractal.BOUNDS
          + (IZR y / IZR (Fractal.RESOLUTION c))
            * Fractal.range Fractal.BOUNDS)
  /\ Fractal.s1Of c pixelIndex = Fractal.Spec.seedA c x y
  /\ Fractal.s2Of c pixelIndex = Fractal.Spec.seedB c x y
  /\ fst (fst (Fractal.afterSimLoop c pixelIndex))
     = Fractal.Spec.trajectory c (Fractal.Spec.seedA c x y) steps
  /\ snd (fst (Fractal.afterSimLoop c pixelIndex))
     = Fractal.Spec.trajectory c (Fractal.Spec.seedB c x y) steps
  /\ Fractal.avgDist c pixelIndex = Fractal.Spec.score c x y
  /\ Fractal.intensity c pixelIndex = Fractal.Spec.intensity c x y
  /\ Fractal.intensity c pixelIndex
     = Rmax 0 (Rmin 1 (JS.Math_pow (Fractal.Spec.score c x y / 1.5) 0.4)).
Proof.
  intros Hx Hy pixelIndex steps.
  assert (Hxc : Fractal.x c pixelIndex = x) by (apply x_of_cell; lia).
  assert (Hyc : Fractal.y c pixelIndex = y) by (apply y_of_cell; lia).
  assert (Hs1 : Fractal.s1Of c pixelIndex = Fractal.Spec.seedA c x y).
  { unfold Fractal.s1Of, Fractal.omega1Of, Fractal.omega2Of,
      Fractal.Spec.seedA. now rewrite Hxc, Hyc. }
  assert (Hs2 : Fractal.s2Of c pixelIndex = Fractal.Spec.seedB c x y).
  { unfold Fractal.s2Of, Fractal.omega1Of, Fractal.omega2Of,
      Fractal.Spec.seedB, Fractal.Spec.seedA. now rewrite Hxc, Hyc. }
  assert (Hloop : Fractal.afterSimLoop c pixelIndex
    = (Fractal.Spec.trajectory c (Fractal.Spec.seedA c x y) steps,
       Fractal.Spec.trajectory c (Fractal.Spec.seedB c x y) steps,
       0 + Fractal.Spec.sumList
             (map (Fractal.Spec.clampedDistance c x y) (seq 1 steps)))).
  { unfold Fractal.afterSimLoop. rewrite simLoop_trajectories, Hs1, Hs2.
    reflexivity. }
  assert (Havg : Fractal.avgDist c pixelIndex = Fractal.Spec.score c x y).
  { unfold Fractal.avgDist, Fractal.Spec.score. rewrite Hloop.
    cbn [snd]. fold steps. now rewrite Rplus_0_l. }
  assert (Hint : Fractal.intensity c pixelIndex
                 = Fractal.Spec.intensity c x y).
  { unfold Fractal.intensity, Fractal.normalized, Fractal.Spec.intensity.
    rewrite Havg. symmetry. apply clamp_of_nonneg, Math_pow_nonneg. }
  split; [exact Hxc |].
  split; [exact Hyc |].
  split; [rewrite Hs1; reflexivity |].
  split; [exact Hs1 |].
  split; [exact Hs2 |].
  split; [now rewrite Hloop |].
  split; [now rewrite Hloop |].
  split; [exact Havg |].
  split; [exact Hint |].
  rewrite Hint. reflexivity.
Qed.

Lemma cell_intensity_matches_specification_witness :
  Fractal.intensity Fractal.sourceConstants (7 * 250 + 3)%Z
  = Fractal.Spec.intensity Fractal.sourceConstants 3 7.
Proof.
  assert (Hx : (0 <= 3 < Fractal.RESOLUTION Fractal.sourceConstants)%Z)
    by (simpl; lia).
  assert (Hy : (0 <= 7 < Fractal.RESOLUTION Fractal.sourceConstants)%Z)
    by (simpl; lia).
  destruct (cell_intensity_matches_specification
              Fractal.sourceConstants 3 7 Hx Hy)
    as (_ & _ & _ & _ & _ & _ & _ & _ & H & _).
  exact H.
Defined.

(** The intensity the generator computes is always in [0, 1], so the
    colour of every pixel is covered by the range statement above. *)
Lemma intensity_unit_interval (c : Fractal.Constants) (pixelIndex : Z) :
  0 <= Fractal.intensity c pixelIndex <= 1.
Proof.
  unfold Fractal.intensity, Fractal.normalized.
  pose proof (Math_pow_nonneg (Fractal.avgDist c pixelIndex / 1.5) 0.4).
  split; [apply Rmin_glb; lra | apply Rmin_l].
Qed.

Lemma listSet_length (data : list Z) (i : nat) (v : Z) :
  length (JS.listSet data i v) = length data.
Proof.
  revert i; induction data as [| d data IH]; intros [| i]; simpl;
    try reflexivity.
  now rewrite IH.
Qed.

Lemma listSet_same (data : list Z) (i : nat) (v : Z) :
  (i < length data)%nat -> nth_error (JS.listSet data i v) i = Some v.
Proof.
  revert i; induction data as [| d data IH]; intros [| i] Hi; simpl in *;
    try lia; [reflexivity |].
  apply IH. lia.
Qed.

Lemma listSet_other (data : list Z) (i j : nat) (v : Z) :
  i <> j -> nth_error (JS.listSet data i v) j = nth_error data j.
Proof.
  revert i j; induction data as [| d data IH]; intros [| i] [| j] Hij;
    simpl; try reflexivity; try lia.
  apply IH. lia.
Qed.

Lemma clampedSet_length (data : list Z) (i v : Z) :
  length (JS.clampedSet data i v) = length data.
Proof.
  unfold JS.clampedSet. destruct (i <? 0)%Z; [reflexivity |].
  apply listSet_length.
Qed.

Lemma clampedSet_same (data : list Z) (i v : Z) :
  (0 <= i < Z.of_nat (length data))%Z -> (0 <= v <= 255)%Z ->
  nth_error (JS.clampedSet data i v) (Z.to_nat i) = Some v.
Proof.
  intros Hi Hv. unfold JS.clampedSet.
  destruct (Z.ltb_spec i 0); [lia |].
  rewrite listSet_same by lia. f_equal. lia.
Qed.

Lemma clampedSet_other (data : list Z) (i j v : Z) :
  (0 <= i)%Z -> (0 <= j)%Z -> i <> j ->
  nth_error (JS.clampedSet data i v) (Z.to_nat j)
  = nth_error data (Z.to_nat j).
Proof.
  intros Hi Hj Hij. unfold JS.clampedSet.
  destruct (Z.ltb_spec i 0); [reflexivity |].
  apply listSet_other. lia.
Qed.

(** [processPixel] stores the four values of the pixel's colour, unaltered
    by the clamping of the array, at the four indices of the pixel. *)
Lemma processPixel_writes (c : Fractal.Constants) (run : Fractal.Run)
  (r g b a : Z) :
  (0 <= Fractal.pixelIndex run)%Z ->
  (Fractal.pixelIndex run * 4 + 3
   < Z.of_nat (length (Fractal.data run)))%Z ->
  Fractal.rgbaOf (Fractal.intensity c (Fractal.pixelIndex run))
  = (r, g, b, a) ->
  let data' := Fractal.data (Fractal.processPixel c run) in
  let idx := (Fractal.pixelIndex run * 4)%Z in
  length data' = length (Fractal.data run)
  /\ nth_error data' (Z.to_nat idx) = Some r
  /\ nth_error data' (Z.to_nat (idx + 1)) = Some g
  /\ nth_error data' (Z.to_nat (idx + 2)) = Some b
  /\ nth_error data' (Z.to_nat (idx + 3)) = Some 255%Z.
Proof.
  intros Hidx Hlen Hcolour data' idx.
  destruct (rgbaOf_components _ r g b a Hcolour) as [Hc Ha].
  destruct (colourOf_range _ r g b
              (intensity_unit_interval c (Fractal.pixelIndex run)) Hc)
    as (Hr & Hg & Hb).
  unfold data', Fractal.processPixel. rewrite Hcolour.
  cbn [Fractal.data]. fold idx. subst a.
  split; [now rewrite !clampedSet_length |].
  split.
  { rewrite !(clampedSet_other _ _ idx) by lia.
    apply clampedSet_same; lia. }
  split.
  { rewrite !(clampedSet_other _ _ (idx + 1)) by lia.
    apply clampedSet_same; [rewrite clampedSet_length |]; lia. }
  split.
  { rewrite !(clampedSet_other _ _ (idx + 2)) by lia.
    apply clampedSet_same; [rewrite !clampedSet_length |]; lia. }
  apply clampedSet_same; [rewrite !clampedSet_length |]; lia.
Qed.

(** After the clean-up function has run, a callback does nothing. *)
Lemma processBatch_cancelled (c : Fractal.Constants) (clock : nat -> R)
  (run : Fractal.Run) :
  let after := Fractal.processBatch c clock (Fractal.cleanup run) in
  Fractal.pixelIndex after = Fractal.pixelIndex run
  /\ Fractal.data after = Fractal.data run
  /\ Fractal.effects after = Fractal.effects run ++ [Fractal.CancelFrame]
  /\ Fractal.frameScheduled after = false.
Proof. repeat split. Qed.

End Cell.

(** ** The map generator: batches and progress *)

Section Progress.

#[local] Open Scope R_scope.

Lemma totalPixels_source :
  Fractal.totalPixels Fractal.sourceConstants = 62500%Z.
Proof. reflexivity. Qed.

(** The published percentage, in integer arithmetic. *)
Lemma progressOf_source (p : Z) :
  Fractal.progressOf Fractal.sourceConstants p = ((2 * p + 625) / 1250)%Z.
Proof.
  unfold Fractal.progressOf, JS.Math_round. rewrite totalPixels_source.
  apply Zfloor_eq.
  pose proof (Z.div_mod (2 * p + 625) 1250 ltac:(lia)) as Hdiv.
  pose proof (Z.mod_pos_bound (2 * p + 625) 1250 ltac:(lia)) as Hmod.
  set (q := ((2 * p + 625) / 1250)%Z) in *.
  set (m := ((2 * p + 625) mod 1250)%Z) in *.
  assert (Hp : 2 * IZR p + 625 = 1250 * IZR q + IZR m).
  { rewrite <- (mult_IZR 2 p), <- (plus_IZR (2 * p) 625),
      <- (mult_IZR 1250 q), <- plus_IZR. now f_equal. }
  assert (Hm0 : 0 <= IZR m) by (apply IZR_le; lia).
  assert (Hm1 : IZR m < 1250) by (apply IZR_lt; lia).
  lra.
Qed.

Lemma progressOf_monotone (p q : Z) :
  (p <= q)%Z ->
  (Fractal.progressOf Fractal.sourceConstants p
   <= Fractal.progressOf Fractal.sourceConstants q)%Z.
Proof.
  intro H. rewrite !progressOf_source.
  apply Z.div_le_mono; lia.
Qed.

Lemma progressOf_hundred (p : Z) :
  (0 <= p <= 62500)%Z ->
  (Fractal.progressOf Fractal.sourceConstants p = 100 <-> 62188 <= p)%Z.
Proof.
  intro Hp. rewrite progressOf_source.
  pose proof (Z.mod_pos_bound (2 * p + 625) 1250 ltac:(lia)).
  pose proof (Z.div_mod (2 * p + 625) 1250 ltac:(lia)).
  split; intro; lia.
Qed.

Lemma published_app (es fs : list Fractal.Effect) :
  Fractal.published (es ++ fs)
  = Fractal.published es ++ Fractal.published fs.
Proof.
  induction es as [| e es IH]; simpl; [reflexivity |].
  destruct e; simpl; now rewrite ?IH.
Qed.

Lemma nonDecreasing_snoc (l : list Z) (v : Z) :
  nonDecreasing l -> (forall u, In u l -> (u <= v)%Z) ->
  nonDecreasing (l ++ [v]).
Proof.
  induction l as [| a l IH]; intros Hl Hle; simpl.
  - tauto.
  - destruct Hl as [Hhead Htail]. split.
    + destruct l as [| b l']; simpl.
      * apply Hle; now left.
      * exact Hhead.
    + apply IH; [exact Htail |]. intros u Hu. apply Hle; now right.
Qed.

Lemma processPixel_fields (c : Fractal.Constants) (run : Fractal.Run) :
  Fractal.pixelIndex (Fractal.processPixel c run)
  = (Fractal.pixelIndex run + 1)%Z
  /\ Fractal.effects (Fractal.processPixel c run) = Fractal.effects run
  /\ Fractal.isCancelled (Fractal.processPixel c run)
     = Fractal.isCancelled run
  /\ Fractal.clockReads (Fractal.processPixel c run)
     = Fractal.clockReads run.
Proof.
  unfold Fractal.processPixel.
  destruct (Fractal.rgbaOf _) as [[[r g] b] a].
  repeat split.
Qed.

(** The [while] loop of a batch only moves the pixel index forward, never
    past the last pixel, and touches neither the effects nor the flag. *)
Lemma batchLoop_frame (c : Fractal.Constants) (clock : nat -> R)
  (startTime : R) (fuel : nat) (run : Fractal.Run) :
  (Fractal.pixelIndex run <= Fractal.totalPixels c)%Z ->
  (Fractal.pixelIndex run
   <= Fractal.pixelIndex (Fractal.batchLoop c clock startTime fuel run)
   <= Fractal.totalPixels c)%Z
  /\ Fractal.effects (Fractal.batchLoop c clock startTime fuel run)
     = Fractal.effects run
  /\ Fractal.isCancelled (Fractal.batchLoop c clock startTime fuel run)
     = Fractal.isCancelled run.
Proof.
  revert run; induction fuel as [| fuel IH]; intros run Hle; simpl.
  - repeat split; lia.
  - destruct (Z.ltb_spec (Fractal.pixelIndex run) (Fractal.totalPixels c))
      as [Hlt | Hge]; [| repeat split; lia].
    destruct (Rlt_dec _ _); [| simpl; repeat split; lia].
    destruct (processPixel_fields c (Fractal.tick run))
      as (Hidx & Heff & Hcan & _).
    simpl in Hidx, Heff, Hcan.
    destruct (IH (Fractal.processPixel c (Fractal.tick run)))
      as (Hidx' & Heff' & Hcan'); [lia |].
    rewrite Heff', Hcan', Heff, Hcan. repeat split; lia.
Qed.

(** With enough fuel the loop is left for one of its two reasons: no pixel
    is left, or the reading of the clock is past the budget. *)
Lemma batchLoop_exit (c : Fractal.Constants) (clock : nat -> R)
  (startTime : R) (fuel : nat) (run : Fractal.Run) :
  (Fractal.totalPixels c - Fractal.pixelIndex run <= Z.of_nat fuel)%Z ->
  let run' := Fractal.batchLoop c clock startTime fuel run in
  (Fractal.totalPixels c <= Fractal.pixelIndex run')%Z
  \/ (exists i, Fractal.clockReads run' = S i
                /\ ~ clock i - startTime < Fractal.MAX_TIME_PER_FRAME).
Proof.
  revert run; induction fuel as [| fuel IH]; intros run Hfuel; simpl.
  - left. lia.
  - destruct (Z.ltb_spec (Fractal.pixelIndex run) (Fractal.totalPixels c))
      as [Hlt | Hge]; [| left; lia].
    destruct (Rlt_dec _ _) as [Hin | Hout].
    + apply IH.
      destruct (processPixel_fields c (Fractal.tick run)) as (Hidx & _).
      simpl in Hidx. lia.
    + right. exists (Fractal.clockReads run). simpl. tauto.
Qed.

(** While the clock stays within the budget for [k] readings and [k]
    pixels are left, the loop computes [k] pixels; it stops there when the
    next reading is past the budget. *)
Lemma batchLoop_counts (c : Fractal.Constants) (clock : nat -> R)
  (startTime : R) (k : nat) :
  forall (fuel : nat) (run : Fractal.Run),
  (k < fuel)%nat ->
  (Fractal.pixelIndex run + Z.of_nat k < Fractal.totalPixels c)%Z ->
  (forall j, (j < k)%nat ->
     clock (Fractal.clockReads run + j)%nat - startTime
     < Fractal.MAX_TIME_PER_FRAME) ->
  ~ clock (Fractal.clockReads run + k)%nat - startTime
    < Fractal.MAX_TIME_PER_FRAME ->
  Fractal.pixelIndex (Fractal.batchLoop c clock startTime fuel run)
  = (Fractal.pixelIndex run + Z.of_nat k)%Z.
Proof.
  induction k as [| k IH]; intros fuel run Hfuel Hleft Hin Hout.
  - destruct fuel as [| fuel]; [lia |]. simpl.
    destruct (Z.ltb_spec (Fractal.pixelIndex run) (Fractal.totalPixels c))
      as [Hlt | Hge]; [| lia].
    rewrite Nat.add_0_r in Hout.
    destruct (Rlt_dec _ _) as [Hyes | Hno]; [contradiction |].
    simpl. lia.
  - destruct fuel as [| fuel]; [lia |]. simpl.
    destruct (Z.ltb_spec (Fractal.pixelIndex run) (Fractal.totalPixels c))
      as [Hlt | Hge]; [| lia].
    destruct (Rlt_dec _ _) as [Hyes | Hno].
    + destruct (processPixel_fields c (Fractal.tick run))
        as (Hidx & _ & _ & Hclk).
      simpl in Hidx, Hclk.
      rewrite IH.
      * rewrite Hidx. lia.
      * lia.
      * rewrite Hidx. lia.
      * intros j Hj. rewrite Hclk.
        replace (S (Fractal.clockReads run) + j)%nat
          with (Fractal.clockReads run + S j)%nat by lia.
        apply Hin. lia.
      * rewrite Hclk.
        replace (S (Fractal.clockReads run) + k)%nat
          with (Fractal.clockReads run + S k)%nat by lia.
        exact Hout.
    + exfalso. apply Hno.
      specialize (Hin 0%nat ltac:(lia)).
      now rewrite Nat.add_0_r in Hin.
Qed.

(** A callback on a run that is not cancelled and not finished publishes
    one percentage, that of the pixel index the batch has reached. *)
Lemma processBatch_unfinished (c : Fractal.Constants) (clock : nat -> R)
  (run : Fractal.Run) :
  Fractal.isCancelled run = false ->
  (Fractal.pixelIndex run < Fractal.totalPixels c)%Z ->
  let after := Fractal.processBatch c clock run in
  Fractal.published (Fractal.effects after)
  = Fractal.published (Fractal.effects run)
    ++ [Fractal.progressOf c (Fractal.pixelIndex after)]
  /\ (Fractal.pixelIndex run <= Fractal.pixelIndex after
      <= Fractal.totalPixels c)%Z
  /\ Fractal.isCancelled after = false
  /\ Fractal.frameScheduled after = true
  /\ Fractal.pixelIndex after
     = Fractal.pixelIndex
         (Fractal.batchLoop c clock (clock (Fractal.clockReads run))
            (Z.to_nat (Fractal.totalPixels c - Fractal.pixelIndex run))
            (Fractal.tick (Fractal.withFrameScheduled false run))).
Proof.
  intros Hcan Hlt after. unfold after, Fractal.processBatch.
  cbn [Fractal.isCancelled Fractal.withFrameScheduled Fractal.pixelIndex
       Fractal.clockReads].
  rewrite Hcan.
  destruct (Z.geb_spec (Fractal.pixelIndex run) (Fractal.totalPixels c))
    as [Hge | _]; [lia |].
  set (start := Fractal.tick (Fractal.withFrameScheduled false run)).
  change (Fractal.pixelIndex run) with (Fractal.pixelIndex start) at 1.
  set (loop := Fractal.batchLoop c clock (clock (Fractal.clockReads run))
                 (Z.to_nat (Fractal.totalPixels c - Fractal.pixelIndex start))
                 start).
  destruct (batchLoop_frame c clock (clock (Fractal.clockReads run))
              (Z.to_nat (Fractal.totalPixels c - Fractal.pixelIndex start))
              start) as (Hidx & Heff & Hcan'); [simpl; lia |].
  fold loop in Hidx, Heff, Hcan'.
  cbn [Fractal.withEffect Fractal.withFrameScheduled Fractal.effects
       Fractal.pixelIndex Fractal.isCancelled Fractal.frameScheduled].
  rewrite !published_app, Heff, Hcan'. simpl.
  rewrite !app_nil_r.
  change (Fractal.pixelIndex start) with (Fractal.pixelIndex run) in Hidx.
  repeat split; try lia; try assumption.
Qed.

(** A callback on a finished run publishes nothing and schedules nothing. *)
Lemma processBatch_finished (c : Fractal.Constants) (clock : nat -> R)
  (run : Fractal.Run) :
  Fractal.isCancelled run = false ->
  (Fractal.totalPixels c <= Fractal.pixelIndex run)%Z ->
  let after := Fractal.processBatch c clock run in
  Fractal.published (Fractal.effects after)
  = Fractal.published (Fractal.effects run)
  /\ Fractal.pixelIndex after = Fractal.pixelIndex run
  /\ Fractal.isCancelled after = false
  /\ Fractal.frameScheduled after = false.
Proof.
  intros Hcan Hge after. unfold after, Fractal.processBatch.
  cbn [Fractal.isCancelled Fractal.withFrameScheduled Fractal.pixelIndex].
  rewrite Hcan.
  destruct (Z.geb_spec (Fractal.pixelIndex run) (Fractal.totalPixels c))
    as [_ | Hlt]; [| lia].
  cbn [Fractal.withEffect Fractal.effects Fractal.pixelIndex
       Fractal.isCancelled Fractal.frameScheduled].
  rewrite !published_app. simpl. rewrite !app_nil_r.
  repeat split; assumption.
Qed.

Lemma uncancelledRun_firstRun : uncancelledRun firstRun.
Proof.
  unfold uncancelledRun, firstRun; simpl.
  repeat split; try lia.
  intros u [<- | []]. rewrite progressOf_source. reflexivity.
Qed.

Lemma uncancelledRun_processBatch (clock : nat -> R) (run : Fractal.Run) :
  uncancelledRun run ->
  uncancelledRun (Fractal.processBatch Fractal.sourceConstants clock run).
Proof.
  intros (Hcan & Hidx & Hsorted & Hbound).
  destruct (Z.lt_ge_cases (Fractal.pixelIndex run)
              (Fractal.totalPixels Fractal.sourceConstants)) as [Hlt | Hge].
  - destruct (processBatch_unfinished Fractal.sourceConstants clock run
                Hcan Hlt)
      as (Hpub & Hidx' & Hcan' & _).
    rewrite totalPixels_source in Hidx'.
    unfold uncancelledRun. rewrite Hpub.
    split; [exact Hcan' |]. split; [lia |].
    assert (Hle : forall u,
               In u (Fractal.published (Fractal.effects run)) ->
               (u <= Fractal.progressOf Fractal.sourceConstants
                       (Fractal.pixelIndex
                          (Fractal.processBatch Fractal.sourceConstants
                             clock run)))%Z).
    { intros u Hu. etransitivity; [apply Hbound, Hu |].
      apply progressOf_monotone. lia. }
    split; [now apply nonDecreasing_snoc |].
    intros u Hu. apply in_app_or in Hu as [Hu | [<- | []]].
    + now apply Hle.
    + lia.
  - destruct (processBatch_finished Fractal.sourceConstants clock run Hcan Hge)
      as (Hpub & Hidx' & Hcan' & _).
    unfold uncancelledRun. rewrite Hpub, Hidx'. tauto.
Qed.

Lemma uncancelledRun_runFrames (clock : nat -> R) (n : nat)
  (run : Fractal.Run) :
  uncancelledRun run ->
  uncancelledRun (Fractal.runFrames Fractal.sourceConstants clock n run).
Proof.
  revert run; induction n as [| n IH]; intros run Hrun; simpl.
  - exact Hrun.
  - destruct (Fractal.frameScheduled run); [| exact Hrun].
    apply IH, uncancelledRun_processBatch, Hrun.
Qed.

(** C4, as the code has it: in a run that is never cancelled the published
    percentages never decrease; a callback on an unfinished run publishes
    one percentage, [round(cellsDone/totalCells*100)], which is 100 exactly
    when at least 62188 of the 62500 cells are done, so 100 is published
    whenever all cells are done; the callback that finds the run finished
    publishes nothing. *)
Theorem progress_of_uncancelled_run (clock : nat -> R) (n : nat) :
  let run := Fractal.runFrames Fractal.sourceConstants clock n firstRun in
  let after := Fractal.processBatch Fractal.sourceConstants clock run in
  Fractal.mountEffect Fractal.sourceConstants true = JS.Normal (Some firstRun)
  /\ Fractal.isCancelled run = false
  /\ nonDecreasing (Fractal.published (Fractal.effects run))
  /\ (Fractal.done Fractal.sourceConstants run = false ->
      exists v : Z,
        Fractal.published (Fractal.effects after)
        = Fractal.published (Fractal.effects run) ++ [v]
        /\ v = JS.Math_round
                 (IZR (Fractal.pixelIndex after) / IZR 62500 * 100)
        /\ (Fractal.pixelIndex run <= Fractal.pixelIndex after <= 62500)%Z
        /\ (v = 100%Z <-> (62188 <= Fractal.pixelIndex after)%Z)
        /\ (Fractal.done Fractal.sourceConstants after = true -> v = 100%Z))
  /\ (Fractal.done Fractal.sourceConstants run = true ->
      Fractal.published (Fractal.effects after)
      = Fractal.published (Fractal.effects run)).
Proof.
  intros run after.
  pose proof (uncancelledRun_runFrames clock n firstRun
                uncancelledRun_firstRun) as (Hcan & Hidx & Hsorted & _).
  fold run in Hcan, Hidx, Hsorted.
  split; [reflexivity |].
  split; [exact Hcan |].
  split; [exact Hsorted |].
  unfold Fractal.done. rewrite totalPixels_source.
  split.
  - intro Hdone. rewrite Z.geb_leb in Hdone. apply Z.leb_gt in Hdone.
    destruct (processBatch_unfinished Fractal.sourceConstants clock run Hcan)
      as (Hpub & Hidx' & _); [rewrite totalPixels_source; lia |].
    fold after in Hpub, Hidx'. rewrite totalPixels_source in Hidx'.
    exists (Fractal.progressOf Fractal.sourceConstants
              (Fractal.pixelIndex after)).
    split; [exact Hpub |].
    split; [reflexivity |].
    split; [lia |].
    split; [apply progressOf_hundred; lia |].
    intro Hall. apply Z.geb_le in Hall.
    apply progressOf_hundred; lia.
  - intro Hdone. apply Z.geb_le in Hdone.
    apply (processBatch_finished Fractal.sourceConstants clock run Hcan).
    rewrite totalPixels_source. lia.
Qed.

(** Under the steady clock a batch computes exactly three pixels. *)
Lemma processBatch_steadyClock (c : Fractal.Constants) (run : Fractal.Run) :
  Fractal.isCancelled run = false ->
  (Fractal.pixelIndex run + 3 < Fractal.totalPixels c)%Z ->
  Fractal.pixelIndex (Fractal.processBatch c steadyClock run)
  = (Fractal.pixelIndex run + 3)%Z.
Proof.
  intros Hcan Hlt.
  destruct (processBatch_unfinished c steadyClock run Hcan)
    as (_ & _ & _ & _ & Hidx); [lia |].
  rewrite Hidx.
  rewrite (batchLoop_counts c steadyClock _ 3).
  - reflexivity.
  - simpl Fractal.pixelIndex. lia.
  - simpl Fractal.pixelIndex. lia.
  - intros j Hj. unfold steadyClock, Fractal.MAX_TIME_PER_FRAME.
    simpl Fractal.clockReads.
    rewrite plus_INR, S_INR.
    assert (INR j <= 2).
    { replace 2 with (INR 2) by (simpl; lra). apply le_INR. lia. }
    lra.
  - unfold steadyClock, Fractal.MAX_TIME_PER_FRAME.
    simpl Fractal.clockReads.
    rewrite plus_INR, S_INR. simpl INR. lra.
Qed.

Lemma runFrames_steadyClock (n : nat) (run : Fractal.Run) :
  Fractal.isCancelled run = false ->
  Fractal.frameScheduled run = true ->
  (Fractal.pixelIndex run + 3 * Z.of_nat n < 62500)%Z ->
  let after := Fractal.runFrames Fractal.sourceConstants steadyClock n run in
  Fractal.pixelIndex after = (Fractal.pixelIndex run + 3 * Z.of_nat n)%Z
  /\ Fractal.isCancelled after = false
  /\ Fractal.frameScheduled after = true.
Proof.
  revert run; induction n as [| n IH]; intros run Hcan Hsched Hlt.
  - simpl. repeat split; trivial; lia.
  - cbn [Fractal.runFrames]. rewrite Hsched.
    destruct (processBatch_unfinished Fractal.sourceConstants steadyClock
                run Hcan)
      as (_ & _ & Hcan' & Hsched' & _); [rewrite totalPixels_source; lia |].
    pose proof (processBatch_steadyClock Fractal.sourceConstants run Hcan
                  ltac:(rewrite totalPixels_source; lia)) as Hidx.
    destruct (IH (Fractal.processBatch Fractal.sourceConstants steadyClock
                    run) Hcan' Hsched')
      as (Hidx' & Hrest); [lia |].
    split; [lia | exact Hrest].
Qed.

(** C4 fails as stated: under the steady clock the 20730th callback brings
    the run to cell 62190 of 62500 and publishes 100, and the run is not
    done. *)
Lemma progress_hundred_counterexample :
  let before :=
    Fractal.runFrames Fractal.sourceConstants steadyClock (Z.to_nat 20729)
      firstRun in
  let after :=
    Fractal.processBatch Fractal.sourceConstants steadyClock before in
  Fractal.published (Fractal.effects after)
  = Fractal.published (Fractal.effects before) ++ [100%Z]
  /\ Fractal.pixelIndex after = 62190%Z
  /\ Fractal.done Fractal.sourceConstants after = false.
Proof.
  intros before after.
  destruct (runFrames_steadyClock (Z.to_nat 20729) firstRun eq_refl eq_refl)
    as (Hidx & Hcan & _); [simpl Fractal.pixelIndex; lia |].
  fold before in Hidx, Hcan. simpl Fractal.pixelIndex in Hidx.
  assert (Hafter : Fractal.pixelIndex after = 62190%Z).
  { unfold after.
    rewrite processBatch_steadyClock; trivial;
      [| rewrite totalPixels_source]; lia. }
  destruct (processBatch_unfinished Fractal.sourceConstants steadyClock
              before Hcan)
    as (Hpub & _); [rewrite totalPixels_source; lia |].
  fold after in Hpub.
  unfold Fractal.done.
  rewrite Hpub, Hafter, progressOf_source.
  repeat split; reflexivity.
Qed.

End Progress.

(** ** The map generator: starting a run *)

Section Mount.

#[local] Open Scope R_scope.

Lemma mountEffect_returns (c : Fractal.Constants) (contextAvailable : bool) :
  Fractal.mountEffect c contextAvailable
  = JS.Normal
      (if contextAvailable
       then Some (Fractal.mkRun 0
                    (Fractal.blackImage (Z.to_nat (Fractal.totalPixels c)))
                    false true 0
                    [Fractal.SetIsProcessing true; Fractal.SetProgress 0;
                     Fractal.RequestFrame])
       else None).
Proof. destruct contextAvailable; reflexivity. Qed.

End Mount.

(** ** The simulation actor: subscribing and unsubscribing *)

Section Subscriptions.

Lemma loop_stopped (sim : PendulumSimulation) (h : Host) :
  isRunning sim = false -> Sim.loop (sim, h) = (tt, (sim, h)).
Proof.
  intro Hrun. unfold Sim.loop, Sim.bind, Sim.this; cbn [fst].
  now rewrite Hrun.
Qed.



Lemma setAdd_other (cb c : Callback) (l : list Callback) :
  c <> cb -> In c (Sim.setAdd cb l) -> In c l.
Proof.
  intros Hne. unfold Sim.setAdd.
  destruct (in_dec Nat.eq_dec cb l); [trivial |].
  intro Hin. apply in_app_or in Hin as [Hin | [-> | []]]; [assumption |].
  contradiction.
Qed.

Lemma subscribe_result (cb : Callback) (sim : PendulumSimulation) (h : Host) :
  Sim.subscribe cb (sim, h)
  = (tt, (Sim.setSubscribers (Sim.setAdd cb (subscribers sim)) sim, h)).
Proof. reflexivity. Qed.

Lemma unsubscribe_result (cb : Callback) (sim : PendulumSimulation)
  (h : Host) :
  Sim.unsubscribe cb (sim, h)
  = (tt, (Sim.setSubscribers (Sim.setDelete cb (subscribers sim)) sim, h)).
Proof. reflexivity. Qed.



Lemma deliveredTo_resets (cb : Callback) (l : list Callback) :
  Sim.deliveredTo cb (map ResetDelivered l) = [].
Proof. induction l; simpl; trivial. Qed.

Lemma deliveredTo_cancelled (cb : Callback) (sim : PendulumSimulation) :
  Sim.deliveredTo cb (Sim.cancelled sim) = [].
Proof. unfold Sim.cancelled. destruct (animationFrameId sim); reflexivity. Qed.

Lemma setDelete_absent (cb : Callback) (l : list Callback) :
  ~ In cb (Sim.setDelete cb l).
Proof. apply remove_In. Qed.

(** A call other than subscribing [cb] delivers nothing to a callback that
    is not subscribed, and leaves it unsubscribed. *)
Lemma perform_unsubscribed (cb : Callback) (call : Sim.Call)
  (sim : PendulumSimulation) (h : Host) :
  ~ In cb (subscribers sim) -> call <> Sim.CallSubscribe cb ->
  ~ In cb (subscribers (fst (snd (Sim.perform call (sim, h)))))
  /\ Sim.deliveredTo cb (log (snd (snd (Sim.perform call (sim, h)))))
     = Sim.deliveredTo cb (log h).
Proof.
  intros Hnot Hcall.
  assert (Hloop : forall sim' (h' : Host),
            subscribers sim' = subscribers sim ->
            ~ In cb (subscribers (fst (snd (Sim.loop (sim', h')))))
            /\ Sim.deliveredTo cb (log (snd (snd (Sim.loop (sim', h')))))
               = Sim.deliveredTo cb (log h')).
  { intros sim' h' Hsubs. destruct (isRunning sim') eqn:Hrun.
    - rewrite (loop_running sim' h' Hrun).
      cbn [fst snd log subscribers Sim.setAnimationFrameId Sim.setState].
      rewrite Hsubs. split; [exact Hnot |].
      rewrite !deliveredTo_app, deliveredTo_notify_absent by exact Hnot.
      cbn [Sim.deliveredTo]. now rewrite app_nil_r.
    - rewrite (loop_stopped sim' h' Hrun). cbn [fst snd].
      rewrite Hsubs. now split. }
  destruct call as [c | c | c | c | | | a b c d | factor |];
    cbn [Sim.perform].
  - rewrite subscribe_result; cbn [fst snd subscribers Sim.setSubscribers].
    split; [| reflexivity].
    intro Hin. apply Hnot. apply (setAdd_other c cb); [| exact Hin].
    intros ->. now apply Hcall.
  - rewrite unsubscribe_result; cbn [fst snd subscribers Sim.setSubscribers].
    split; [| reflexivity].
    intro Hin. apply in_remove in Hin as [Hin _]. contradiction.
  - now split.
  - now split.
  - rewrite start_unfold. destruct (isRunning sim); [now split |].
    apply Hloop. reflexivity.
  - rewrite stop_result.
    cbn [fst snd log subscribers Sim.setAnimationFrameId Sim.setIsRunning
         Sim.logged].
    split; [exact Hnot |].
    rewrite deliveredTo_app, deliveredTo_cancelled. now rewrite app_nil_r.
  - rewrite reset_result. cbn [fst snd log subscribers].
    split; [exact Hnot |].
    rewrite !deliveredTo_app, deliveredTo_cancelled, deliveredTo_resets,
      !deliveredTo_notify_absent by exact Hnot.
    cbn [Sim.deliveredTo]. now rewrite !app_nil_r.
  - unfold Sim.multiplySpeed, Sim.bind, Sim.this, Sim.assign, Sim.emit.
    cbn [fst snd log subscribers Sim.setSpeedMultiplier].
    split; [exact Hnot |].
    rewrite deliveredTo_app. cbn [Sim.deliveredTo]. now rewrite app_nil_r.
  - apply Hloop. reflexivity.
Qed.

(** X2: after a callback has been unsubscribed, nothing is delivered to it
    by anything that happens later, frames and resets included, until it is
    subscribed again. *)
Theorem unsubscribed_receives_nothing
  (cb : Callback) (calls : list Sim.Call) (sim : PendulumSimulation)
  (h : Host) :
  (forall call, In call calls -> call <> Sim.CallSubscribe cb) ->
  let after := Sim.performAll calls (snd (Sim.unsubscribe cb (sim, h))) in
  ~ In cb (subscribers (fst after))
  /\ Sim.deliveredTo cb (log (snd after)) = Sim.deliveredTo cb (log h).
Proof.
  intros Hcalls.
  rewrite unsubscribe_result. cbn [snd].
  assert (Hall : forall w : Sim.World,
            ~ In cb (subscribers (fst w)) ->
            ~ In cb (subscribers (fst (Sim.performAll calls w)))
            /\ Sim.deliveredTo cb (log (snd (Sim.performAll calls w)))
               = Sim.deliveredTo cb (log (snd w))).
  { induction calls as [| call calls IH]; intros [sim' h'] Hnot;
      [now split |].
    cbn [Sim.performAll].
    destruct (perform_unsubscribed cb call sim' h' Hnot) as [Hnot' Hlog].
    { apply Hcalls. now left. }
    destruct (Sim.perform call (sim', h')) as [u [sim'' h'']].
    cbn [fst snd] in *.
    destruct (IH (fun c Hc => Hcalls c (or_intror Hc)) (sim'', h'') Hnot')
      as [Hfinal Hlog'].
    split; [exact Hfinal |]. now rewrite Hlog'. }
  apply (Hall (Sim.setSubscribers (Sim.setDelete cb (subscribers sim)) sim, h)).
  apply setDelete_absent.
Qed.

Lemma unsubscribed_receives_nothing_witness :
  Sim.deliveredTo 7%nat
    (log (snd (Sim.performAll [Sim.CallStart; Sim.CallFrame]
                 (snd (Sim.unsubscribe 7%nat
                         (snd (Sim.subscribe 7%nat
                                 (Sim.newDefault,
                                  Sim.freshHost (fun _ => 0)))))))))
  = [].
Proof.
  refine (proj2 (unsubscribed_receives_nothing 7%nat
                   [Sim.CallStart; Sim.CallFrame]
                   (fst (snd (Sim.subscribe 7%nat
                                (Sim.newDefault, Sim.freshHost (fun _ => 0)))))
                   (Sim.freshHost (fun _ => 0)) _)).
  intros call [<- | [<- | []]]; discriminate.
Defined.

End Subscriptions.

(** ** The simulation actor: stopping, starting and the speed *)

Section Running.

Lemma runLoop_stopped (k : nat) (sim : PendulumSimulation) (h : Host) :
  isRunning sim = false -> runLoop k (sim, h) = (sim, h).
Proof.
  intro Hrun. induction k as [| k IH]; [reflexivity |].
  cbn [runLoop]. now rewrite loop_stopped.
Qed.

(** X3: [stop] leaves the live state, the initial state and the speed as
    they are, cancels the pending frame if there is one, and freezes the
    simulation: frame callbacks that still arrive, and a second [stop], do
    nothing. *)
Theorem stop_freezes (sim : PendulumSimulation) (h : Host) (k : nat) :
  let stopped := snd (Sim.stop (sim, h)) in
  state (fst stopped) = state sim
  /\ initialState (fst stopped) = initialState sim
  /\ speedMultiplier (fst stopped) = speedMultiplier sim
  /\ isRunning (fst stopped) = false
  /\ animationFrameId (fst stopped) = None
  /\ log (snd stopped)
     = log h ++ match animationFrameId sim with
                | Some handle => [FrameCancelled handle]
                | None => []
                end
  /\ runLoop k stopped = stopped
  /\ snd (Sim.stop stopped) = stopped.
Proof.
  intro stopped. unfold stopped. rewrite stop_result. cbn [snd fst].
  repeat split.
  apply runLoop_stopped. reflexivity.
Qed.



Lemma multiplySpeed_result (factor : R) (sim : PendulumSimulation)
  (h : Host) :
  Sim.multiplySpeed factor (sim, h)
  = (tt, (Sim.setSpeedMultiplier (speedMultiplier sim * factor) sim,
          Sim.logged [SpeedLogged (speedMultiplier sim * factor)] h)).
Proof. reflexivity. Qed.

(** X5: speed factors compound: two calls of [multiplySpeed] leave the
    simulation as one call with the product of the factors does (each call
    logs the speed it reached); nothing but the speed changes. *)
Theorem multiplySpeed_compounds (a b : R) (sim : PendulumSimulation)
  (h : Host) :
  let both := snd (Sim.multiplySpeed b (snd (Sim.multiplySpeed a (sim, h)))) in
  fst both = fst (snd (Sim.multiplySpeed (a * b) (sim, h)))
  /\ speedMultiplier (fst both) = speedMultiplier sim * (a * b)
  /\ fst both = Sim.setSpeedMultiplier (speedMultiplier sim * (a * b)) sim
  /\ log (snd both)
     = log h ++ [SpeedLogged (speedMultiplier sim * a);
                 SpeedLogged (speedMultiplier sim * a * b)].
Proof.
  intro both.
  assert (Hassoc : speedMultiplier sim * a * b = speedMultiplier sim * (a * b))
    by ring.
  assert (Hboth : both
    = (Sim.setSpeedMultiplier (speedMultiplier sim * (a * b)) sim,
       Sim.logged [SpeedLogged (speedMultiplier sim * a);
                   SpeedLogged (speedMultiplier sim * a * b)] h)).
  { unfold both. rewrite multiplySpeed_result. cbn [snd].
    rewrite multiplySpeed_result. cbn [snd].
    rewrite logged_logged. unfold Sim.setSpeedMultiplier; cbn.
    now rewrite Hassoc. }
  rewrite Hboth, multiplySpeed_result. repeat split.
Qed.

Section Keys.

Import String.

Lemma handleKeyDown_m (w : Sim.World) :
  App.handleKeyDown "m" w = Sim.multiplySpeed 2 w.
Proof.
  unfold App.handleKeyDown, Sim.bind. cbn.
  destruct (Sim.multiplySpeed 2 w) as [[] w']. reflexivity.
Qed.

Lemma handleKeyDown_n (w : Sim.World) :
  App.handleKeyDown "n" w = Sim.multiplySpeed 0.5 w.
Proof. reflexivity. Qed.

Import Floats.
#[local] Set Warnings "-inexact-float".

Lemma keysAgreeAt_range (k : Z) :
  (-1073 <= k <= 1022)%Z -> B64.keysAgreeAt k = true.
Proof.
  intro Hk.
  assert (Hall : forallb (fun i => B64.keysAgreeAt (-1073 + Z.of_nat i))
                   (seq 0 2096) = true) by (vm_compute; reflexivity).
  rewrite forallb_forall in Hall.
  specialize (Hall (Z.to_nat (k + 1073))).
  rewrite Z2Nat.id in Hall by lia.
  replace (-1073 + (k + 1073))%Z with k in Hall by lia.
  apply Hall, in_seq. lia.
Qed.

(** X6: the two speed keys of [App].  [m] calls [multiplySpeed(2)], [n]
    calls [multiplySpeed(0.5)] and any other key does nothing.  Over
    binary64 the speeds that the keys reach from the initial speed 1 are the
    powers of two: at [2 ^ k] the key [m] gives [2 ^ (k + 1)] and [n] gives
    [2 ^ (k - 1)], and for [-1073 <= k <= 1022] the two keys undo each other
    exactly, in either order.  At the ends they do not: at [2 ^ -1074], the
    smallest positive number, [n] then [m] leaves 0, and at [2 ^ 1023], [m]
    then [n] leaves infinity. *)
Theorem speed_keys_undo_each_other
  (k : Z) (key : string) (speed : float) (w : Sim.World) :
  (-1073 <= k <= 1022)%Z ->
  let s := B64.pow2 k in
  B64.handleKeyDown "n" (B64.handleKeyDown "m" s) = s
  /\ B64.handleKeyDown "m" (B64.handleKeyDown "n" s) = s
  /\ B64.handleKeyDown "m" s = B64.pow2 (k + 1)
  /\ B64.handleKeyDown "n" s = B64.pow2 (k - 1)
  /\ B64.pow2 0 = 1%float
  /\ B64.pow2 (-1074) = 5e-324%float
  /\ B64.handleKeyDown "m" (B64.handleKeyDown "n" (B64.pow2 (-1074)))
     = 0%float
  /\ B64.handleKeyDown "n" (B64.handleKeyDown "m" (B64.pow2 1023))
     = infinity
  /\ (key <> "m"%string -> key <> "n"%string ->
      B64.handleKeyDown key speed = speed
      /\ App.handleKeyDown key w = (tt, w))
  /\ App.handleKeyDown "m" w = Sim.multiplySpeed 2 w
  /\ App.handleKeyDown "n" w = Sim.multiplySpeed 0.5 w.
Proof.
  intros Hk s.
  pose proof (keysAgreeAt_range k Hk) as Hcheck.
  unfold B64.keysAgreeAt in Hcheck. fold s in Hcheck.
  apply andb_prop in Hcheck as [Hcheck H4].
  apply andb_prop in Hcheck as [Hcheck H3].
  apply andb_prop in Hcheck as [H1 H2].
  apply Leibniz.eqb_spec in H1, H2, H3, H4.
  split; [exact H1 |]. split; [exact H2 |].
  split; [exact H3 |]. split; [exact H4 |].
  split; [reflexivity |]. split; [reflexivity |].
  split; [reflexivity |]. split; [reflexivity |].
  split.
  - intros Hm Hn. apply String.eqb_neq in Hm, Hn.
    unfold B64.handleKeyDown, App.handleKeyDown, Sim.bind, Sim.ret.
    rewrite Hm, Hn. destruct w. split; reflexivity.
  - split; [apply handleKeyDown_m | apply handleKeyDown_n].
Qed.

Lemma speed_keys_undo_each_other_witness :
  B64.handleKeyDown "n" (B64.handleKeyDown "m" (B64.pow2 0)) = B64.pow2 0.
Proof.
  refine (proj1 (speed_keys_undo_each_other 0 "m" 1%float
                   (Sim.newDefault, Sim.freshHost (fun _ => 0%R)) _)).
  lia.
Defined.

End Keys.

Lemma Math_round_monotone (x y : R) :
  x <= y -> (JS.Math_round x <= JS.Math_round y)%Z.
Proof. intro H. unfold JS.Math_round. apply Zfloor_le. lra. Qed.

Lemma multiplyAll_zero (factors : list R) (sim : PendulumSimulation)
  (h : Host) :
  speedMultiplier sim = 0 ->
  speedMultiplier (fst (multiplyAll factors (sim, h))) = 0.
Proof.
  revert sim h; induction factors as [| f factors IH]; intros sim h Hzero;
    [exact Hzero |].
  cbn [multiplyAll]. rewrite multiplySpeed_result. cbn [snd].
  apply IH. cbn. rewrite Hzero. ring.
Qed.

(** X7: a frame never makes fewer than one step, however small, zero or
    negative the speed is; the step count does not decrease when the speed
    grows, and it is [40 * speed] whenever that is a whole number of at
    least 1.  A factor of 0 cannot be undone: whatever factors follow, the
    speed stays 0 and every frame makes exactly one step. *)
Theorem steps_per_frame_floor (speed speed' : R) (count : Z)
  (factors : list R) (sim : PendulumSimulation) (h : Host) :
  (1 <= Sim.stepsPerFrame speed)%Z
  /\ (speed <= speed' ->
      (Sim.stepsPerFrame speed <= Sim.stepsPerFrame speed')%Z)
  /\ (40 * speed < 1.5 -> Sim.stepsPerFrame speed = 1%Z)
  /\ ((1 <= count)%Z -> 40 * speed = IZR count ->
      Sim.stepsPerFrame speed = count)
  /\ speedMultiplier (fst (multiplyAll (0 :: factors) (sim, h))) = 0
  /\ Sim.stepsPerFrame
       (speedMultiplier (fst (multiplyAll (0 :: factors) (sim, h))))
     = 1%Z.
Proof.
  unfold Sim.stepsPerFrame, baseStepsPerFrame.
  split; [lia |].
  split.
  { intro Hle. apply Z.max_le_compat_l, Math_round_monotone. lra. }
  split.
  { intro Hsmall.
    assert (JS.Math_round (40 * speed) <= 1)%Z; [| lia].
    unfold JS.Math_round.
    assert (H : (Zfloor (40 * speed + 0.5) < 2)%Z); [| lia].
    apply lt_IZR. pose proof (Zfloor_bound (40 * speed + 0.5)). lra. }
  split.
  { intros Hcount Heq. unfold JS.Math_round. rewrite Heq.
    rewrite (Zfloor_eq count); [lia | lra]. }
  assert (Hzero : speedMultiplier (fst (multiplyAll (0 :: factors) (sim, h)))
                  = 0).
  { cbn [multiplyAll]. rewrite multiplySpeed_result. cbn [snd].
    apply multiplyAll_zero. cbn. ring. }
  split; [exact Hzero |].
  rewrite Hzero. unfold JS.Math_round.
  rewrite (Zfloor_eq 0); [reflexivity | lra].
Qed.

End Running.

(** ** The simulation actor: successive frames and the callers *)

Section Frames.

Lemma repeatStep_add (a b : nat) (s : PendulumState) (p : PhysicsParams)
  (dt : R) :
  repeatStep (a + b) s p dt = repeatStep b (repeatStep a s p dt) p dt.
Proof.
  revert s; induction a as [| a IH]; intro s; [reflexivity |].
  cbn [Nat.add repeatStep]. apply IH.
Qed.





Lemma loop_fields (sim : PendulumSimulation) (h : Host) :
  params (fst (snd (Sim.loop (sim, h)))) = params sim
  /\ initialState (fst (snd (Sim.loop (sim, h)))) = initialState sim
  /\ speedMultiplier (fst (snd (Sim.loop (sim, h)))) = speedMultiplier sim.
Proof.
  destruct (isRunning sim) eqn:Hrun.
  - rewrite (loop_running sim h Hrun). repeat split.
  - rewrite (loop_stopped sim h Hrun). repeat split.
Qed.

Lemma start_fields (sim : PendulumSimulation) (h : Host) :
  params (fst (snd (Sim.start (sim, h)))) = params sim
  /\ initialState (fst (snd (Sim.start (sim, h)))) = initialState sim
  /\ speedMultiplier (fst (snd (Sim.start (sim, h)))) = speedMultiplier sim.
Proof.
  rewrite start_unfold. destruct (isRunning sim); [repeat split |].
  apply (loop_fields (Sim.setIsRunning true sim) h).
Qed.

Lemma perform_fields (call : Sim.Call) (sim : PendulumSimulation) (h : Host) :
  let sim' := fst (snd (Sim.perform call (sim, h))) in
  params sim' = params sim
  /\ (isReset call = false -> initialState sim' = initialState sim)
  /\ (isMultiplySpeed call = false ->
      speedMultiplier sim' = speedMultiplier sim).
Proof.
  destruct call as [c | c | c | c | | | a b c d | factor |];
    cbn [Sim.perform isReset isMultiplySpeed];
    try (repeat split; fail).
  - destruct (start_fields sim h) as (-> & -> & ->). repeat split.
  - rewrite stop_result. repeat split.
  - rewrite reset_result. repeat split. discriminate.
  - repeat split. discriminate.
  - destruct (loop_fields sim h) as (-> & -> & ->). repeat split.
Qed.

(** X9: nothing that can be done to a simulation changes its physics
    parameters; only [reset] changes the initial state that
    [getInitialState] reports, and only [multiplySpeed] changes the
    speed. *)
Theorem only_reset_moves_the_start
  (calls : list Sim.Call) (sim : PendulumSimulation) (h : Host) :
  let after := Sim.performAll calls (sim, h) in
  params (fst after) = params sim
  /\ (forallb (fun call => negb (isReset call)) calls = true ->
      fst (Sim.getInitialState after) = initialState sim)
  /\ (forallb (fun call => negb (isMultiplySpeed call)) calls = true ->
      speedMultiplier (fst after) = speedMultiplier sim).
Proof.
  revert sim h; induction calls as [| call calls IH]; intros sim h.
  - repeat split.
  - cbn [Sim.performAll forallb].
    destruct (perform_fields call sim h) as (Hp & Hi & Hs).
    destruct (Sim.perform call (sim, h)) as [u [sim' h']].
    cbn [fst snd] in *.
    destruct (IH sim' h') as (Hp' & Hi' & Hs').
    split; [congruence |].
    split; intro Hall; apply andb_prop in Hall as [Hcall Hrest].
    + rewrite Hi' by exact Hrest. apply Hi.
      now apply negb_true_iff in Hcall.
    + rewrite Hs' by exact Hrest. apply Hs.
      now apply negb_true_iff in Hcall.
Qed.

Lemma getInitialState_result (sim : PendulumSimulation) (h : Host) :
  Sim.getInitialState (sim, h) = (initialState sim, (sim, h)).
Proof. reflexivity. Qed.

Lemma phase_click_is_reset (rect : DOM.Rect) (clientX clientY : R)
  (w : Sim.World) :
  PhaseSpace.handleClick (Some rect) clientX clientY w
  = Sim.reset
      (Some ((clientX - DOM.left rect - DOM.width rect / 2) / 50))
      (Some ((clientY - DOM.top rect - DOM.height rect / 2) / 50))
      None None w.
Proof.
  destruct w as [sim h].
  unfold PhaseSpace.handleClick, Sim.bind at 1.
  rewrite getInitialState_result, !reset_result. reflexivity.
Qed.

Lemma velocity_click_is_reset (rect : DOM.Rect) (clientX clientY : R)
  (w : Sim.World) :
  VelocityPhaseSpace.handleClick (Some rect) clientX clientY w
  = Sim.reset None None
      (Some ((clientX - DOM.left rect - DOM.width rect / 2) / 160))
      (Some ((clientY - DOM.top rect - DOM.height rect / 2) / 160)) w.
Proof.
  destruct w as [sim h].
  unfold VelocityPhaseSpace.handleClick, Sim.bind at 1.
  rewrite getInitialState_result, !reset_result. reflexivity.
Qed.

(** X10: the two phase-space clicks compose.  A click in the angle view
    resets exactly as [reset(theta1, theta2)] with the velocities omitted
    would, a click in the velocity view as [reset] with the angles omitted;
    so an angle click and a velocity click, in either order, leave an
    initial state with the angles of the one and the velocities of the
    other.  Without a container element a click does nothing. *)
Theorem phase_space_clicks_compose
  (angles velocities : DOM.Rect) (xa ya xv yv : R)
  (sim : PendulumSimulation) (h : Host) :
  let t1 := (xa - DOM.left angles - DOM.width angles / 2) / 50 in
  let t2 := (ya - DOM.top angles - DOM.height angles / 2) / 50 in
  let o1 := (xv - DOM.left velocities - DOM.width velocities / 2) / 160 in
  let o2 := (yv - DOM.top velocities - DOM.height velocities / 2) / 160 in
  PhaseSpace.handleClick (Some angles) xa ya (sim, h)
  = Sim.reset (Some t1) (Some t2) None None (sim, h)
  /\ VelocityPhaseSpace.handleClick (Some velocities) xv yv (sim, h)
     = Sim.reset None None (Some o1) (Some o2) (sim, h)
  /\ fst (Sim.getInitialState
            (snd (VelocityPhaseSpace.handleClick (Some velocities) xv yv
                    (snd (PhaseSpace.handleClick (Some angles) xa ya
                            (sim, h))))))
     = mkState t1 t2 o1 o2
  /\ fst (Sim.getInitialState
            (snd (PhaseSpace.handleClick (Some angles) xa ya
                    (snd (VelocityPhaseSpace.handleClick (Some velocities)
                            xv yv (sim, h))))))
     = mkState t1 t2 o1 o2
  /\ PhaseSpace.handleClick None xa ya (sim, h) = (tt, (sim, h))
  /\ VelocityPhaseSpace.handleClick None xv yv (sim, h) = (tt, (sim, h)).
Proof.
  intros t1 t2 o1 o2.
  split; [apply phase_click_is_reset |].
  split; [apply velocity_click_is_reset |].
  split.
  { rewrite phase_click_is_reset, reset_result. cbn [snd].
    rewrite velocity_click_is_reset, reset_result. reflexivity. }
  split.
  { rewrite velocity_click_is_reset, reset_result. cbn [snd].
    rewrite phase_click_is_reset, reset_result. reflexivity. }
  split; reflexivity.
Qed.

End Frames.

(** ** The simulation actor: what a reset delivers *)

Section ResetDelivery.



End ResetDelivery.

(** ** The map generator: the pixel array *)

Section Image.

Lemma blackImage_S (n : nat) :
  Fractal.blackImage (S n) = (0 :: 0 :: 0 :: 255 :: Fractal.blackImage n)%Z.
Proof. reflexivity. Qed.

Lemma listSet_app (a b : list Z) (i : nat) (v : Z) :
  JS.listSet (a ++ b) (length a + i) v = a ++ JS.listSet b i v.
Proof.
  induction a as [| d a IH]; [reflexivity |].
  cbn [app length Nat.add JS.listSet]. now rewrite IH.
Qed.

Lemma clampedSet_at (a b : list Z) (j : nat) (i v : Z) :
  i = Z.of_nat (length a + j) -> (0 <= v <= 255)%Z ->
  JS.clampedSet (a ++ b) i v = a ++ JS.listSet b j v.
Proof.
  intros -> Hv. unfold JS.clampedSet.
  destruct (Z.ltb_spec (Z.of_nat (length a + j)) 0) as [Hneg | _]; [lia |].
  rewrite Nat2Z.id, listSet_app.
  now replace (Z.max 0 (Z.min 255 v)) with v by lia.
Qed.

Lemma pixelBytes_length (c : Fractal.Constants) (p : nat) :
  length (pixelBytes c p) = 4%nat.
Proof.
  unfold pixelBytes.
  now destruct (Fractal.rgbaOf _) as [[[r g] b] a].
Qed.

Lemma flat_map_pixelBytes_length (c : Fractal.Constants) (l : list nat) :
  length (flat_map (pixelBytes c) l) = (4 * length l)%nat.
Proof.
  induction l as [| p l IH]; [reflexivity |].
  cbn [flat_map]. rewrite length_app, pixelBytes_length, IH.
  cbn [length]. lia.
Qed.

Lemma imageOf_S (c : Fractal.Constants) (k : nat) :
  (k < Z.to_nat (Fractal.totalPixels c))%nat ->
  exists rest,
    imageOf c k
    = flat_map (pixelBytes c) (seq 0 k) ++ (0 :: 0 :: 0 :: 255 :: rest)%Z
    /\ imageOf c (S k)
       = flat_map (pixelBytes c) (seq 0 k) ++ pixelBytes c k ++ rest.
Proof.
  intro Hk. unfold imageOf.
  exists (Fractal.blackImage (Z.to_nat (Fractal.totalPixels c) - S k)).
  split.
  - replace (Z.to_nat (Fractal.totalPixels c) - k)%nat
      with (S (Z.to_nat (Fractal.totalPixels c) - S k)) by lia.
    now rewrite blackImage_S.
  - rewrite seq_S, flat_map_app. cbn [Nat.add flat_map].
    now rewrite app_nil_r, <- app_assoc.
Qed.

(** One pixel computed: the image of [k] becomes the image of [k + 1]. *)
Lemma processPixel_image (c : Fractal.Constants) (run : Fractal.Run) :
  (Fractal.pixelIndex run < Fractal.totalPixels c)%Z ->
  painted c run -> painted c (Fractal.processPixel c run).
Proof.
  intros Hlt [Hrange Hdata].
  destruct (processPixel_fields c run) as (Hidx & _).
  split; [lia |].
  rewrite Hidx.
  replace (Z.to_nat (Fractal.pixelIndex run + 1))
    with (S (Z.to_nat (Fractal.pixelIndex run))) by lia.
  set (k := Z.to_nat (Fractal.pixelIndex run)) in *.
  assert (Hk : Fractal.pixelIndex run = Z.of_nat k) by (unfold k; lia).
  destruct (imageOf_S c k) as (rest & Hnow & Hnext); [lia |].
  rewrite Hnext. unfold Fractal.processPixel, pixelBytes.
  rewrite <- Hk.
  destruct (Fractal.rgbaOf (Fractal.intensity c (Fractal.pixelIndex run)))
    as [[[r g] b] a] eqn:Hcolour.
  destruct (rgbaOf_components _ r g b a Hcolour) as [Hc ->].
  destruct (colourOf_range _ r g b
              (intensity_unit_interval c (Fractal.pixelIndex run)) Hc)
    as (Hr & Hg & Hb).
  cbn [Fractal.data]. rewrite Hdata, Hnow.
  set (done := flat_map (pixelBytes c) (seq 0 k)).
  assert (Hlen : length done = (4 * k)%nat).
  { unfold done. now rewrite flat_map_pixelBytes_length, length_seq. }
  rewrite (clampedSet_at done _ 0 _ r) by lia.
  cbn [JS.listSet].
  rewrite (clampedSet_at done _ 1 _ g) by lia.
  cbn [JS.listSet].
  rewrite (clampedSet_at done _ 2 _ b) by lia.
  cbn [JS.listSet].
  rewrite (clampedSet_at done _ 3 _ 255%Z) by lia.
  reflexivity.
Qed.

Lemma batchLoop_painted (c : Fractal.Constants) (clock : nat -> R)
  (startTime : R) (fuel : nat) :
  forall run : Fractal.Run,
  painted c run ->
  painted c (Fractal.batchLoop c clock startTime fuel run).
Proof.
  induction fuel as [| fuel IH]; intros run Hp; [exact Hp |].
  cbn [Fractal.batchLoop].
  destruct (Z.ltb_spec (Fractal.pixelIndex run) (Fractal.totalPixels c))
    as [Hlt | Hge]; [| exact Hp].
  destruct (Rlt_dec _ _); [| exact Hp].
  apply IH, processPixel_image; [exact Hlt | exact Hp].
Qed.

Lemma batchLoop_data_effects (c : Fractal.Constants) (clock : nat -> R)
  (startTime : R) (fuel : nat) (run : Fractal.Run) :
  Fractal.effects (Fractal.batchLoop c clock startTime fuel run)
  = Fractal.effects run.
Proof.
  revert run; induction fuel as [| fuel IH]; intro run; [reflexivity |].
  cbn [Fractal.batchLoop].
  destruct (Fractal.pixelIndex run <? Fractal.totalPixels c)%Z;
    [| reflexivity].
  destruct (Rlt_dec _ _); [| reflexivity].
  rewrite IH.
  now destruct (processPixel_fields c (Fractal.tick run)) as (_ & -> & _).
Qed.

Lemma shown_snoc (c : Fractal.Constants) (es : list Fractal.Effect)
  (e : Fractal.Effect) :
  shown c es ->
  (forall snapshot, e = Fractal.PutImageData snapshot ->
   exists k, (k <= Z.to_nat (Fractal.totalPixels c))%nat
             /\ snapshot = imageOf c k) ->
  shown c (es ++ [e]).
Proof.
  intros Hes He snapshot Hin.
  apply in_app_or in Hin as [Hin | [Hin | []]]; [now apply Hes |].
  now apply He.
Qed.

Lemma painted_snapshot (c : Fractal.Constants) (run : Fractal.Run) :
  painted c run ->
  forall snapshot, Fractal.PutImageData (Fractal.data run)
                   = Fractal.PutImageData snapshot ->
  exists k, (k <= Z.to_nat (Fractal.totalPixels c))%nat
            /\ snapshot = imageOf c k.
Proof.
  intros [Hrange Hdata] snapshot Heq.
  exists (Z.to_nat (Fractal.pixelIndex run)).
  split; [lia |]. now injection Heq as <-.
Qed.

(** What one call of the batch callback does to a run that holds the image
    of its counter. *)
Lemma processBatch_painted (c : Fractal.Constants) (clock : nat -> R)
  (run : Fractal.Run) :
  painted c run -> shown c (Fractal.effects run) ->
  painted c (Fractal.processBatch c clock run)
  /\ shown c (Fractal.effects (Fractal.processBatch c clock run)).
Proof.
  intros Hp Hs. unfold Fractal.processBatch.
  cbn [Fractal.isCancelled Fractal.withFrameScheduled Fractal.pixelIndex
       Fractal.data].
  destruct (Fractal.isCancelled run); [split; assumption |].
  destruct (Fractal.pixelIndex run >=? Fractal.totalPixels c)%Z.
  - split; [exact Hp |].
    cbn [Fractal.effects Fractal.withEffect Fractal.data].
    repeat apply shown_snoc; try discriminate; [exact Hs |].
    exact (painted_snapshot c run Hp).
  - set (after := Fractal.batchLoop _ _ _ _ _).
    assert (Hafter : painted c after) by now apply batchLoop_painted.
    split; [exact Hafter |].
    cbn [Fractal.effects Fractal.withEffect Fractal.withFrameScheduled
         Fractal.data Fractal.pixelIndex].
    repeat apply shown_snoc; try discriminate.
    + unfold after. now rewrite batchLoop_data_effects.
    + exact (painted_snapshot c after Hafter).
Qed.

Lemma runFrames_painted (c : Fractal.Constants) (clock : nat -> R)
  (n : nat) :
  forall run : Fractal.Run,
  painted c run -> shown c (Fractal.effects run) ->
  painted c (Fractal.runFrames c clock n run)
  /\ shown c (Fractal.effects (Fractal.runFrames c clock n run)).
Proof.
  induction n as [| n IH]; intros run Hp Hs; [split; assumption |].
  cbn [Fractal.runFrames].
  destruct (Fractal.frameScheduled run); [| split; assumption].
  destruct (processBatch_painted c clock run Hp Hs) as [Hp' Hs'].
  now apply IH.
Qed.

Lemma totalPixels_nonneg (c : Fractal.Constants) :
  (0 <= Fractal.totalPixels c)%Z.
Proof. unfold Fractal.totalPixels. nia. Qed.

Lemma mounted_painted (c : Fractal.Constants) (run : Fractal.Run) :
  Fractal.mountEffect c true = JS.Normal (Some run) ->
  painted c run /\ shown c (Fractal.effects run)
  /\ Fractal.isCancelled run = false
  /\ Fractal.frameScheduled run = true.
Proof.
  rewrite mountEffect_returns. intro Heq.
  injection Heq as <-.
  split.
  { split; cbn [Fractal.pixelIndex Fractal.data].
    - pose proof (totalPixels_nonneg c). lia.
    - unfold imageOf. cbn [Z.to_nat seq flat_map app].
      now rewrite Nat.sub_0_r. }
  split.
  { intros snapshot [Hin | [Hin | [Hin | []]]]; discriminate. }
  split; reflexivity.
Qed.

(** X12: the pixel array is always a prefix of computed cells over black.
    Whatever the clock does and however many frames have run, the array of
    a run that the mount effect started holds, for its counter [k], the
    colour bytes of the cells [0 .. k - 1] followed by opaque black for all
    later cells, and every array that was handed to [putImageData] was of
    that form. *)
Theorem image_is_computed_prefix
  (c : Fractal.Constants) (clock : nat -> R) (n : nat)
  (first : Fractal.Run) :
  Fractal.mountEffect c true = JS.Normal (Some first) ->
  let run := Fractal.runFrames c clock n first in
  (0 <= Fractal.pixelIndex run <= Fractal.totalPixels c)%Z
  /\ Fractal.data run
     = flat_map (pixelBytes c) (seq 0 (Z.to_nat (Fractal.pixelIndex run)))
       ++ Fractal.blackImage
            (Z.to_nat (Fractal.totalPixels c)
             - Z.to_nat (Fractal.pixelIndex run))
  /\ length (Fractal.data run)
     = (4 * Z.to_nat (Fractal.totalPixels c))%nat
  /\ (forall snapshot,
        In (Fractal.PutImageData snapshot) (Fractal.effects run) ->
        exists k, (k <= Z.to_nat (Fractal.totalPixels c))%nat
                  /\ snapshot = imageOf c k).
Proof.
  intros Hmount run.
  destruct (mounted_painted c first Hmount) as (Hp & Hs & _ & _).
  destruct (runFrames_painted c clock n first Hp Hs) as [[Hrange Hdata] Hs'].
  fold run in Hrange, Hdata, Hs'.
  split; [exact Hrange |].
  split; [exact Hdata |].
  split; [| exact Hs'].
  rewrite Hdata. unfold imageOf.
  rewrite length_app, flat_map_pixelBytes_length, length_seq.
  unfold Fractal.blackImage.
  assert (Hblack : forall m, length (concat (repeat [0; 0; 0; 255]%Z m))
                             = (4 * m)%nat).
  { induction m as [| m IH]; [reflexivity |].
    cbn [repeat concat]. rewrite length_app, IH. cbn [length]. lia. }
  rewrite Hblack. lia.
Qed.

Lemma image_is_computed_prefix_witness :
  (0 <= Fractal.pixelIndex
          (Fractal.runFrames Fractal.sourceConstants steadyClock 2 firstRun)
   <= Fractal.totalPixels Fractal.sourceConstants)%Z.
Proof.
  exact (proj1 (image_is_computed_prefix Fractal.sourceConstants steadyClock
                  2 firstRun eq_refl)).
Defined.

Lemma runFrames_unscheduled (c : Fractal.Constants) (clock : nat -> R)
  (n : nat) (run : Fractal.Run) :
  Fractal.frameScheduled run = false ->
  Fractal.runFrames c clock n run = run.
Proof.
  intro H. destruct n; [reflexivity |]. cbn [Fractal.runFrames].
  now rewrite H.
Qed.

Lemma processBatch_after_cleanup (c : Fractal.Constants) (clock : nat -> R)
  (run : Fractal.Run) :
  Fractal.processBatch c clock (Fractal.cleanup run) = Fractal.cleanup run.
Proof. reflexivity. Qed.

(** X13: after the clean-up function has run nothing happens any more.
    The host calls no callback, since none is scheduled; and a callback that
    ran all the same, any number of times, would leave the pixel array, the
    counter and the effects as the clean-up left them: no pixel is written,
    no progress published, no frame requested. *)
Theorem nothing_after_cleanup
  (c : Fractal.Constants) (clock : nat -> R) (n k : nat)
  (run : Fractal.Run) :
  Fractal.runFrames c clock n (Fractal.cleanup run) = Fractal.cleanup run
  /\ Nat.iter k (Fractal.processBatch c clock) (Fractal.cleanup run)
     = Fractal.cleanup run
  /\ Fractal.data (Fractal.cleanup run) = Fractal.data run
  /\ Fractal.pixelIndex (Fractal.cleanup run) = Fractal.pixelIndex run
  /\ Fractal.effects (Fractal.cleanup run)
     = Fractal.effects run ++ [Fractal.CancelFrame].
Proof.
  split; [now apply runFrames_unscheduled |].
  split; [| repeat split].
  induction k as [| k IH]; [reflexivity |].
  rewrite Nat.iter_succ, IH. apply processBatch_after_cleanup.
Qed.

(** With a prompt clock a batch that finds work computes at least one
    pixel. *)
Lemma processBatch_advances (c : Fractal.Constants) (clock : nat -> R)
  (run : Fractal.Run) :
  promptClock clock ->
  Fractal.isCancelled run = false ->
  (Fractal.pixelIndex run < Fractal.totalPixels c)%Z ->
  (Fractal.pixelIndex run
   < Fractal.pixelIndex (Fractal.processBatch c clock run))%Z.
Proof.
  intros Hclock Hc Hlt.
  destruct (processBatch_unfinished c clock run Hc Hlt)
    as (_ & _ & _ & _ & ->).
  destruct (Z.to_nat (Fractal.totalPixels c - Fractal.pixelIndex run))
    as [| fuel] eqn:Hfuel; [lia |].
  cbn [Fractal.batchLoop Fractal.tick Fractal.withFrameScheduled
       Fractal.pixelIndex Fractal.clockReads].
  destruct (Z.ltb_spec (Fractal.pixelIndex run) (Fractal.totalPixels c))
    as [_ | Hge]; [| lia].
  destruct (Rlt_dec _ _) as [_ | Hlate]; [| now destruct Hlate; apply Hclock].
  match goal with
  | |- (_ < Fractal.pixelIndex
              (Fractal.batchLoop c clock ?s fuel
                 (Fractal.processPixel c ?r)))%Z =>
      destruct (processPixel_fields c r) as (Hidx & _);
      destruct (batchLoop_frame c clock s fuel (Fractal.processPixel c r))
        as ((Hlow & _) & _);
      [ rewrite Hidx | rewrite Hidx in Hlow ]
  end;
  cbn [Fractal.tick Fractal.withFrameScheduled Fractal.pixelIndex] in *; lia.
Qed.

Lemma runFrames_finishes (c : Fractal.Constants) (clock : nat -> R)
  (n : nat) :
  promptClock clock ->
  forall run : Fractal.Run,
  Fractal.isCancelled run = false ->
  Fractal.frameScheduled run = true ->
  (Fractal.pixelIndex run <= Fractal.totalPixels c)%Z ->
  (Fractal.totalPixels c - Fractal.pixelIndex run < Z.of_nat n)%Z ->
  let after := Fractal.runFrames c clock n run in
  Fractal.frameScheduled after = false
  /\ Fractal.isCancelled after = false
  /\ Fractal.pixelIndex after = Fractal.totalPixels c
  /\ exists es,
       Fractal.effects after
       = es ++ [Fractal.PutImageData (Fractal.data after);
                Fractal.SetIsProcessing false; Fractal.RenderDisplay].
Proof.
  intro Hclock. induction n as [| n IH]; intros run Hc Hf Hle Hn; [lia |].
  cbn [Fractal.runFrames]. rewrite Hf.
  destruct (Z.eq_dec (Fractal.pixelIndex run) (Fractal.totalPixels c))
    as [Heq | Hne].
  - assert (Hstop : Fractal.frameScheduled (Fractal.processBatch c clock run)
                    = false).
    { apply processBatch_finished; [exact Hc | lia]. }
    rewrite (runFrames_unscheduled _ _ _ _ Hstop).
    unfold Fractal.processBatch.
    cbn [Fractal.isCancelled Fractal.withFrameScheduled Fractal.pixelIndex
         Fractal.data].
    rewrite Hc.
    destruct (Z.geb_spec (Fractal.pixelIndex run) (Fractal.totalPixels c))
      as [_ | Hlt]; [| lia].
    cbn. repeat split; trivial.
    exists (Fractal.effects run). now rewrite <- !app_assoc.
  - assert (Hlt : (Fractal.pixelIndex run < Fractal.totalPixels c)%Z) by lia.
    pose proof (processBatch_advances c clock run Hclock Hc Hlt) as Hadv.
    destruct (processBatch_unfinished c clock run Hc Hlt)
      as (_ & (_ & Hup) & Hc' & Hf' & _).
    apply IH; try assumption. lia.
Qed.

(** X14: with a prompt clock the run finishes, and the finished map does not
    depend on the clock.  When two successive readings of the clock are
    always less than 12 ms apart, every batch computes at least one cell,
    so after at most one callback per cell and one more the run has
    computed every cell, has handed the complete map to [putImageData],
    has set [isProcessing] to false and has no frame scheduled; the map is
    the colour bytes of the cells in order. *)
Theorem run_finishes_with_the_complete_map
  (c : Fractal.Constants) (clock : nat -> R) (n : nat)
  (first : Fractal.Run) :
  promptClock clock ->
  Fractal.mountEffect c true = JS.Normal (Some first) ->
  (Fractal.totalPixels c < Z.of_nat n)%Z ->
  let run := Fractal.runFrames c clock n first in
  let map :=
    flat_map (pixelBytes c) (seq 0 (Z.to_nat (Fractal.totalPixels c))) in
  Fractal.done c run = true
  /\ Fractal.frameScheduled run = false
  /\ Fractal.data run = map
  /\ exists es,
       Fractal.effects run
       = es ++ [Fractal.PutImageData map; Fractal.SetIsProcessing false;
                Fractal.RenderDisplay].
Proof.
  intros Hclock Hmount Hn run map.
  destruct (mounted_painted c first Hmount) as (Hp & Hs & Hc & Hf).
  destruct (runFrames_painted c clock n first Hp Hs) as [[_ Hdata] _].
  destruct (runFrames_finishes c clock n Hclock first Hc Hf) as
    (Hstop & _ & Hidx & es & Hes).
  { now destruct Hp. }
  { destruct Hp as [Hrange _]. lia. }
  fold run in Hdata, Hstop, Hidx, Hes.
  assert (Hmap : Fractal.data run = map).
  { rewrite Hdata, Hidx. unfold imageOf, map.
    rewrite Nat.sub_diag. cbn [Fractal.blackImage repeat concat].
    apply app_nil_r. }
  split; [unfold Fractal.done; rewrite Hidx; apply Z.geb_le; lia |].
  split; [exact Hstop |].
  split; [exact Hmap |].
  exists es. now rewrite Hes, Hmap.
Qed.

Lemma steadyClock_prompt : promptClock steadyClock.
Proof.
  intro i. unfold steadyClock, Fractal.MAX_TIME_PER_FRAME.
  rewrite S_INR. lra.
Qed.

Lemma run_finishes_with_the_complete_map_witness :
  Fractal.done Fractal.sourceConstants
    (Fractal.runFrames Fractal.sourceConstants steadyClock
       (Z.to_nat 62501) firstRun) = true.
Proof.
  refine (proj1 (run_finishes_with_the_complete_map Fractal.sourceConstants
                   steadyClock (Z.to_nat 62501) firstRun
                   steadyClock_prompt eq_refl _)).
  rewrite totalPixels_source. rewrite Z2Nat.id; lia.
Defined.

End Image.

(** ** The view of the map *)

Section MapView.

Lemma wheel_scale_range (s factor : R) :
  1 <= Rmax 1 (Rmin (s * factor) 50) <= 50.
Proof.
  unfold Rmax, Rmin.
  destruct (Rle_dec (s * factor) 50); destruct (Rle_dec 1 _); lra.
Qed.

(** X15: the wheel zooms about the pointer and never leaves the range 1 to
    50.  Whatever the event, the new scale is within [1, 50]; when the old
    scale is positive, the point of the map under the pointer is the same
    before and after, and a wheel event that cannot change the scale (zooming
    in at 50, zooming out at 1) leaves the whole transform as it was. *)
Theorem wheel_zooms_about_the_pointer
  (rect : DOM.Rect) (clientX clientY deltaY : R) (v : View.State) :
  0 < View.scale (View.transform v) ->
  let t := View.transform v in
  let t' := View.transform
              (View.handleWheel (Some rect) clientX clientY deltaY v) in
  let mx := clientX - DOM.left rect in
  let my := clientY - DOM.top rect in
  1 <= View.scale t' <= 50
  /\ (mx - View.x t') / View.scale t' = (mx - View.x t) / View.scale t
  /\ (my - View.y t') / View.scale t' = (my - View.y t) / View.scale t
  /\ (View.scale t' = View.scale t ->
      View.handleWheel (Some rect) clientX clientY deltaY v = v)
  /\ (View.scale t = 50 -> deltaY <= 0 -> View.scale t' = 50)
  /\ (View.scale t = 1 -> 0 < deltaY -> View.scale t' = 1).
Proof.
  intros Hs t t' mx my.
  destruct v as [[tx ty s] dragging start].
  cbn [View.transform View.scale View.x View.y] in *.
  unfold t', View.handleWheel.
  cbn [View.transform View.scale View.x View.y View.isDragging
       View.dragStart].
  set (factor := if Rlt_dec 0 deltaY then _ else _).
  set (newScale := Rmax 1 (Rmin (s * factor) 50)).
  pose proof (wheel_scale_range s factor) as Hrange. fold newScale in Hrange.
  fold mx my. subst t. cbn [View.x View.y View.scale].
  assert (Hin : s = 50 -> deltaY <= 0 -> newScale = 50).
  { intros -> Hd. unfold newScale, factor, View.zoomSpeed.
    destruct (Rlt_dec 0 deltaY); [lra |].
    unfold Rmax, Rmin.
    destruct (Rle_dec (50 * (1 + 0.1)) 50); destruct (Rle_dec 1 _); lra. }
  assert (Hout : s = 1 -> 0 < deltaY -> newScale = 1).
  { intros -> Hd. unfold newScale, factor, View.zoomSpeed.
    destruct (Rlt_dec 0 deltaY); [| lra].
    unfold Rmax, Rmin.
    destruct (Rle_dec (1 * (1 - 0.1)) 50); destruct (Rle_dec 1 _); lra. }
  clearbody newScale mx my.
  split; [exact Hrange |].
  split; [field; lra |].
  split; [field; lra |].
  split; [| split; assumption].
  intros ->. f_equal. f_equal; field; lra.
Qed.

Lemma wheel_zooms_about_the_pointer_witness :
  1 <= View.scale
         (View.transform
            (View.handleWheel (Some (DOM.mkRect 0 0 300 200)) 10 20 (-1)
               View.initial)) <= 50.
Proof.
  refine (proj1 (wheel_zooms_about_the_pointer (DOM.mkRect 0 0 300 200)
                   10 20 (-1) View.initial _)).
  cbn. lra.
Defined.

Lemma handle_scale (e : View.Event) (v : View.State) :
  1 <= View.scale (View.transform v) <= 50 ->
  1 <= View.scale (View.transform (View.handle e v)) <= 50.
Proof.
  intro Hv. destruct e as [[rect |] cx cy d | cx cy | cx cy | |];
    cbn [View.handle View.handleWheel View.handleMouseDown
         View.handleMouseUp View.handleResetView View.transform View.scale];
    try exact Hv; try lra.
  - apply wheel_scale_range.
  - unfold View.handleMouseMove.
    destruct (negb (View.isDragging v)); [exact Hv |]. exact Hv.
Qed.

(** X16: the scale of the view is always between 1 and 50, whatever the
    pointer events are and in whatever order they come. *)
Theorem view_scale_stays_in_range (es : list View.Event) :
  1 <= View.scale (View.transform (View.handleAll es View.initial)) <= 50.
Proof.
  unfold View.handleAll.
  assert (Hgen : forall v,
            1 <= View.scale (View.transform v) <= 50 ->
            1 <= View.scale
                   (View.transform
                      (fold_left (fun v e => View.handle e v) es v)) <= 50).
  { induction es as [| e es IH]; intros v Hv; [exact Hv |].
    cbn [fold_left]. apply IH, handle_scale, Hv. }
  apply Hgen. cbn. lra.
Qed.

Lemma moves_while_dragging (moves : list (R * R)) :
  forall v : View.State,
  View.isDragging v = true ->
  let v' := View.handleAll (moveEvents moves) v in
  View.isDragging v' = true
  /\ View.dragStart v' = View.dragStart v
  /\ View.scale (View.transform v') = View.scale (View.transform v)
  /\ View.x (View.transform v')
     = match moves with
       | [] => View.x (View.transform v)
       | _ => fst (last moves (0, 0)) - View.px (View.dragStart v)
       end
  /\ View.y (View.transform v')
     = match moves with
       | [] => View.y (View.transform v)
       | _ => snd (last moves (0, 0)) - View.py (View.dragStart v)
       end.
Proof.
  induction moves as [| p moves IH]; intros v Hd;
    [repeat split; exact Hd |].
  unfold View.handleAll, moveEvents in *. cbn [map fold_left View.handle].
  set (v1 := View.handleMouseMove (fst p) (snd p) v).
  assert (H1 : View.isDragging v1 = true
               /\ View.dragStart v1 = View.dragStart v
               /\ View.scale (View.transform v1)
                  = View.scale (View.transform v)
               /\ View.x (View.transform v1)
                  = fst p - View.px (View.dragStart v)
               /\ View.y (View.transform v1)
                  = snd p - View.py (View.dragStart v)).
  { unfold v1, View.handleMouseMove. rewrite Hd. cbn.
    repeat split; exact Hd. }
  destruct H1 as (Hd1 & Hs1 & Hsc1 & Hx1 & Hy1).
  destruct (IH v1 Hd1) as (Hd' & Hs' & Hsc' & Hx' & Hy').
  cbv zeta in Hd', Hs', Hsc', Hx', Hy'.
  split; [exact Hd' |].
  split; [congruence |].
  split; [congruence |].
  destruct moves as [| q moves].
  - cbn [last]. split; congruence.
  - rewrite Hx', Hy', Hs1.
    change (last (p :: q :: moves) (0, 0)) with (last (q :: moves) (0, 0)).
    split; reflexivity.
Qed.

Lemma moves_without_dragging (moves : list (R * R)) (v : View.State) :
  View.isDragging v = false ->
  View.handleAll (moveEvents moves) v = v.
Proof.
  intro Hd. unfold View.handleAll, moveEvents.
  induction moves as [| p moves IH]; [reflexivity |].
  cbn [map fold_left View.handle]. unfold View.handleMouseMove.
  rewrite Hd. exact IH.
Qed.

(** X17: a drag moves the map by the displacement of the pointer.  Pressing
    the button at [(a, b)], moving through any points and releasing leaves
    the transform translated by the last point minus [(a, b)], the scale as
    it was and [isDragging] false; moves while no button is pressed change
    nothing. *)
Theorem drag_translates_the_map
  (a b : R) (p : R * R) (moves : list (R * R)) (v : View.State) :
  let gesture :=
    View.MouseDown a b :: moveEvents (moves ++ [p]) ++ [View.MouseUp] in
  let v' := View.handleAll gesture v in
  View.transform v'
  = View.mkTransform (View.x (View.transform v) + (fst p - a))
                     (View.y (View.transform v) + (snd p - b))
                     (View.scale (View.transform v))
  /\ View.isDragging v' = false
  /\ (View.isDragging v = false ->
      View.handleAll (moveEvents (moves ++ [p])) v = v).
Proof.
  intros gesture v'.
  split; [| split; [| apply moves_without_dragging]].
  - unfold v', gesture, View.handleAll.
    cbn [fold_left View.handle]. rewrite fold_left_app.
    cbn [fold_left View.handle View.handleMouseUp View.transform].
    destruct (moves_while_dragging (moves ++ [p])
                (View.handleMouseDown a b v) eq_refl)
      as (_ & _ & Hsc & Hx & Hy).
    unfold View.handleAll in Hsc, Hx, Hy.
    destruct (View.transform (fold_left _ _ _)) as [tx ty s].
    cbn [View.x View.y View.scale] in Hsc, Hx, Hy.
    rewrite last_last in Hx, Hy.
    destruct (moves ++ [p]) eqn:Hm; [now destruct moves |].
    subst tx ty s.
    cbn [View.handleMouseDown View.dragStart View.px View.py View.transform
         View.scale].
    f_equal; lra.
  - unfold v', gesture, View.handleAll.
    cbn [fold_left]. rewrite fold_left_app. reflexivity.
Qed.

Lemma click_outcome (rect : DOM.Rect) (canvas : View.Canvas)
  (clientX clientY : R) (v : View.State) :
  View.isDragging v = false ->
  let t := View.transform v in
  let size := Rmin (View.width canvas) (View.height canvas) in
  let imageX := (clientX - DOM.left rect - View.x t) / View.scale t
                - (View.width canvas - size) / 2 in
  let imageY := (clientY - DOM.top rect - View.y t) / View.scale t
                - (View.height canvas - size) / 2 in
  View.handleClick (Some rect) (Some canvas) clientX clientY v
  = if Rlt_dec imageX 0 then Sim.ret tt
    else if Rgt_dec imageX size then Sim.ret tt
    else if Rlt_dec imageY 0 then Sim.ret tt
    else if Rgt_dec imageY size then Sim.ret tt
    else Sim.reset (Some 0) (Some 0)
           (Some (-10 + imageX / size * 20))
           (Some (-10 + imageY / size * 20)).
Proof.
  intros Hd t size imageX imageY.
  unfold View.handleClick. rewrite Hd. reflexivity.
Qed.

(** X18: a click on the map never starts the simulation outside the bounds
    of the map.  With a display canvas of positive size a click either does
    nothing (it fell outside the drawn square, or a drag is in progress, or a
    ref is null) or resets the simulation to the angles 0 and to velocities
    that both lie in [-10, 10]. *)
Theorem click_stays_within_bounds
  (container : option DOM.Rect) (canvas : option View.Canvas)
  (clientX clientY : R) (v : View.State) :
  (forall displayCanvas, canvas = Some displayCanvas ->
   0 < Rmin (View.width displayCanvas) (View.height displayCanvas)) ->
  View.handleClick container canvas clientX clientY v = Sim.ret tt
  \/ exists omega1 omega2,
       -10 <= omega1 <= 10 /\ -10 <= omega2 <= 10
       /\ View.handleClick container canvas clientX clientY v
          = Sim.reset (Some 0) (Some 0) (Some omega1) (Some omega2).
Proof.
  intro Hsize.
  destruct (View.isDragging v) eqn:Hd.
  { left. unfold View.handleClick. now rewrite Hd. }
  destruct container as [rect |];
    [| left; unfold View.handleClick; now rewrite Hd].
  destruct canvas as [displayCanvas |];
    [| left; unfold View.handleClick; now rewrite Hd].
  specialize (Hsize displayCanvas eq_refl).
  rewrite (click_outcome rect displayCanvas clientX clientY v Hd).
  cbv zeta.
  set (size := Rmin _ _) in *.
  set (imageX := _ - (View.width displayCanvas - size) / 2).
  set (imageY := _ - (View.height displayCanvas - size) / 2).
  destruct (Rlt_dec imageX 0) as [| Hx0]; [now left |].
  destruct (Rgt_dec imageX size) as [| Hx1]; [now left |].
  destruct (Rlt_dec imageY 0) as [| Hy0]; [now left |].
  destruct (Rgt_dec imageY size) as [| Hy1]; [now left |].
  right. exists (-10 + imageX / size * 20), (-10 + imageY / size * 20).
  assert (Hpx : 0 <= imageX / size <= 1).
  { split.
    - apply Rmult_le_pos; [lra |]. left. now apply Rinv_0_lt_compat.
    - apply (Rmult_le_reg_r size); [exact Hsize |].
      unfold Rdiv. rewrite Rmult_assoc, Rinv_l by lra. lra. }
  assert (Hpy : 0 <= imageY / size <= 1).
  { split.
    - apply Rmult_le_pos; [lra |]. left. now apply Rinv_0_lt_compat.
    - apply (Rmult_le_reg_r size); [exact Hsize |].
      unfold Rdiv. rewrite Rmult_assoc, Rinv_l by lra. lra. }
  repeat split; lra.
Qed.

Lemma click_stays_within_bounds_witness :
  View.handleClick (Some (DOM.mkRect 0 0 300 200))
    (Some (View.mkCanvas 300 200)) 10 20 View.initial = Sim.ret tt
  \/ exists omega1 omega2,
       -10 <= omega1 <= 10 /\ -10 <= omega2 <= 10
       /\ View.handleClick (Some (DOM.mkRect 0 0 300 200))
            (Some (View.mkCanvas 300 200)) 10 20 View.initial
          = Sim.reset (Some 0) (Some 0) (Some omega1) (Some omega2).
Proof.
  apply click_stays_within_bounds.
  intros displayCanvas Heq. injection Heq as <-.
  cbn [View.width View.height]. unfold Rmin.
  destruct (Rle_dec 300 200); lra.
Defined.

(** X19: every cell of the map can be chosen with a click.  When no drag is
    in progress, the scale is positive and the display canvas has a positive
    size, a click at the horizontal position
    [rect.left + transform.x
     + transform.scale * (offsetX + (x / RESOLUTION) * size)]
    and at the vertical position given likewise by [y], for
    [0 <= x, y < RESOLUTION], resets the simulation to exactly the first seed
    state the generator used for the cell [(x, y)]: angles 0 and the two
    velocities of that cell. *)
Theorem click_reaches_each_cell_seed
  (c : Fractal.Constants) (rect : DOM.Rect) (canvas : View.Canvas)
  (cellX cellY : Z) (v : View.State) :
  View.isDragging v = false ->
  0 < View.scale (View.transform v) ->
  0 < Rmin (View.width canvas) (View.height canvas) ->
  (0 <= cellX < Fractal.RESOLUTION c)%Z ->
  (0 <= cellY < Fractal.RESOLUTION c)%Z ->
  let t := View.transform v in
  let size := Rmin (View.width canvas) (View.height canvas) in
  let offsetX := (View.width canvas - size) / 2 in
  let offsetY := (View.height canvas - size) / 2 in
  let clientX :=
    DOM.left rect + View.x t
    + View.scale t
      * (offsetX + IZR cellX / IZR (Fractal.RESOLUTION c) * size) in
  let clientY :=
    DOM.top rect + View.y t
    + View.scale t
      * (offsetY + IZR cellY / IZR (Fractal.RESOLUTION c) * size) in
  let pixelIndex := (cellY * Fractal.RESOLUTION c + cellX)%Z in
  let seed := Fractal.s1Of c pixelIndex in
  View.handleClick (Some rect) (Some canvas) clientX clientY v
  = Sim.reset (Some (theta1 seed)) (Some (theta2 seed))
              (Some (omega1 seed)) (Some (omega2 seed)).
Proof.
  intros Hd Hs Hsize Hx Hy t size offsetX offsetY clientX clientY
    pixelIndex seed.
  rewrite (click_outcome rect canvas _ _ v Hd). cbv zeta.
  fold t size.
  assert (Hres : 0 < IZR (Fractal.RESOLUTION c)) by (apply IZR_lt; lia).
  set (res := IZR (Fractal.RESOLUTION c)) in *.
  assert (HX : (clientX - DOM.left rect - View.x t) / View.scale t
               - (View.width canvas - size) / 2
               = IZR cellX / res * size).
  { unfold clientX, offsetX. fold res. field. unfold t. lra. }
  assert (HY : (clientY - DOM.top rect - View.y t) / View.scale t
               - (View.height canvas - size) / 2
               = IZR cellY / res * size).
  { unfold clientY, offsetY. fold res. field. unfold t. lra. }
  rewrite HX, HY.
  assert (Hcx : 0 <= IZR cellX / res < 1).
  { split.
    - apply Rmult_le_pos; [apply IZR_le; lia |].
      left. now apply Rinv_0_lt_compat.
    - apply (Rmult_lt_reg_r res); [exact Hres |].
      unfold Rdiv. rewrite Rmult_assoc, Rinv_l by lra.
      rewrite Rmult_1_r, Rmult_1_l. apply IZR_lt. lia. }
  assert (Hcy : 0 <= IZR cellY / res < 1).
  { split.
    - apply Rmult_le_pos; [apply IZR_le; lia |].
      left. now apply Rinv_0_lt_compat.
    - apply (Rmult_lt_reg_r res); [exact Hres |].
      unfold Rdiv. rewrite Rmult_assoc, Rinv_l by lra.
      rewrite Rmult_1_r, Rmult_1_l. apply IZR_lt. lia. }
  fold size in Hsize.
  destruct (Rlt_dec (IZR cellX / res * size) 0) as [Hbad |]; [nra |].
  destruct (Rgt_dec (IZR cellX / res * size) size) as [Hbad |];
    [unfold Rgt in Hbad; nra |].
  destruct (Rlt_dec (IZR cellY / res * size) 0) as [Hbad |]; [nra |].
  destruct (Rgt_dec (IZR cellY / res * size) size) as [Hbad |];
    [unfold Rgt in Hbad; nra |].
  unfold seed, Fractal.s1Of, Fractal.omega1Of, Fractal.omega2Of, pixelIndex.
  cbn [theta1 theta2 omega1 omega2].
  rewrite (x_of_cell c cellX cellY) by lia.
  rewrite (y_of_cell c cellX cellY) by lia.
  fold res. cbn [Fractal.minOmega Fractal.range Fractal.BOUNDS].
  f_equal; f_equal; field; lra.
Qed.

Lemma click_reaches_each_cell_seed_witness :
  View.handleClick (Some (DOM.mkRect 0 0 300 200))
    (Some (View.mkCanvas 300 200))
    (0 + 0 + 1 * ((300 - Rmin 300 200) / 2 + IZR 3 / IZR 250 * Rmin 300 200))
    (0 + 0 + 1 * ((200 - Rmin 300 200) / 2 + IZR 7 / IZR 250 * Rmin 300 200))
    View.initial
  = Sim.reset
      (Some (theta1 (Fractal.s1Of Fractal.sourceConstants (7 * 250 + 3))))
      (Some (theta2 (Fractal.s1Of Fractal.sourceConstants (7 * 250 + 3))))
      (Some (omega1 (Fractal.s1Of Fractal.sourceConstants (7 * 250 + 3))))
      (Some (omega2 (Fractal.s1Of Fractal.sourceConstants (7 * 250 + 3)))).
Proof.
  refine (click_reaches_each_cell_seed Fractal.sourceConstants
            (DOM.mkRect 0 0 300 200) (View.mkCanvas 300 200) 3 7
            View.initial eq_refl _ _ _ _).
  - cbn. lra.
  - cbn [View.width View.height]. unfold Rmin.
    destruct (Rle_dec 300 200); lra.
  - cbn. lia.
  - cbn. lia.
Defined.

End MapView.

(** ** The angle view, the real-space view and the mount effects *)

Section Angles.

Lemma remainder_bounds (a b : R) :
  0 < b ->
  - b < Number.remainder a b < b
  /\ (0 <= a -> 0 <= Number.remainder a b)
  /\ exists k : Z, Number.remainder a b = a - b * IZR k.
Proof.
  intro Hb. unfold Number.remainder, Number.truncate.
  assert (Ha : a = b * (a / b)) by (field; lra).
  set (q := a / b) in *. clearbody q.
  destruct (Rlt_dec q 0) as [Hq | Hq].
  - pose proof (Zceil_bound q) as [Hlo Hhi].
    split; [split; nra |].
    split; [intro H0; nra |].
    now exists (Zceil q).
  - pose proof (Zfloor_bound q) as [Hlo Hhi].
    split; [split; nra |].
    split; [intro H0; nra |].
    now exists (Zfloor q).
Qed.

(** The result of [normalizeAngle] is the angle moved by a whole number of
    turns into the half-open interval from minus pi to pi. *)
Lemma normalizeAngle_spec (angle : R) :
  - PI < PhaseSpace.normalizeAngle angle <= PI
  /\ exists k : Z, PhaseSpace.normalizeAngle angle = angle + 2 * PI * IZR k.
Proof.
  pose proof PI_RGT_0 as Hpi.
  unfold PhaseSpace.normalizeAngle. cbv zeta.
  destruct (remainder_bounds angle (2 * PI)) as (Hr1 & _ & k1 & Hk1);
    [lra |].
  set (r1 := Number.remainder angle (2 * PI)) in *.
  destruct (remainder_bounds (r1 + 2 * PI) (2 * PI)) as (Hr2 & Hpos & k2 & Hk2);
    [lra |].
  specialize (Hpos ltac:(lra)).
  set (r2 := Number.remainder (r1 + 2 * PI) (2 * PI)) in *.
  destruct (Rgt_dec r2 PI) as [Hgt | Hle].
  - split; [unfold Rgt in Hgt; lra |].
    exists (- k1 - k2)%Z. rewrite minus_IZR, opp_IZR. lra.
  - split; [lra |].
    exists (1 - k1 - k2)%Z. rewrite !minus_IZR. lra.
Qed.

Lemma sin_period_Z (x : R) (k : Z) : sin (x + 2 * PI * IZR k) = sin x.
Proof.
  destruct (Z_le_gt_dec 0 k) as [Hk | Hk].
  - rewrite <- (Z2Nat.id k Hk), <- INR_IZR_INZ.
    replace (x + 2 * PI * INR (Z.to_nat k))
      with (x + 2 * INR (Z.to_nat k) * PI) by ring.
    apply sin_period.
  - rewrite <- (sin_period (x + 2 * PI * IZR k) (Z.to_nat (- k))).
    f_equal. rewrite INR_IZR_INZ, Z2Nat.id by lia.
    rewrite opp_IZR. ring.
Qed.

Lemma cos_period_Z (x : R) (k : Z) : cos (x + 2 * PI * IZR k) = cos x.
Proof.
  destruct (Z_le_gt_dec 0 k) as [Hk | Hk].
  - rewrite <- (Z2Nat.id k Hk), <- INR_IZR_INZ.
    replace (x + 2 * PI * INR (Z.to_nat k))
      with (x + 2 * INR (Z.to_nat k) * PI) by ring.
    apply cos_period.
  - rewrite <- (cos_period (x + 2 * PI * IZR k) (Z.to_nat (- k))).
    f_equal. rewrite INR_IZR_INZ, Z2Nat.id by lia.
    rewrite opp_IZR. ring.
Qed.

(** Two numbers of a half-open interval of length one turn that differ by
    whole turns are equal. *)
Lemma turns_zero (a b shift : R) (k : Z) :
  - PI + shift < a <= PI + shift -> - PI + shift < b <= PI + shift ->
  a = b + 2 * PI * IZR k -> k = 0%Z.
Proof.
  intros Ha Hb Heq. pose proof PI_RGT_0 as Hpi.
  assert (Hk : -1 < IZR k < 1) by (split; nra).
  destruct Hk as [Hlo Hhi].
  apply lt_IZR in Hhi. 
  replace (-1) with (IZR (-1)) in Hlo by reflexivity.
  apply lt_IZR in Hlo. lia.
Qed.

Lemma normalizeAngle_identity (angle : R) :
  - PI < angle <= PI -> PhaseSpace.normalizeAngle angle = angle.
Proof.
  intro Ha.
  destruct (normalizeAngle_spec angle) as (Hr & j & Hj).
  assert (j = 0%Z) as ->.
  { apply (turns_zero (PhaseSpace.normalizeAngle angle) angle 0);
      [lra | lra | exact Hj]. }
  lra.
Qed.

Lemma normalizeAngle_trig (angle : R) :
  sin (PhaseSpace.normalizeAngle angle) = sin angle
  /\ cos (PhaseSpace.normalizeAngle angle) = cos angle.
Proof.
  destruct (normalizeAngle_spec angle) as (_ & k & ->).
  split; [apply sin_period_Z | apply cos_period_Z].
Qed.

(** X20: [normalizeAngle] gives the principal value of an angle.  The
    result lies in the half-open interval from minus pi (excluded) to pi
    (included), differs from the argument by a whole number of turns and so
    has the same sine and cosine; an angle that is already in the interval
    is returned as it is, and normalising twice is normalising once. *)
Theorem normalizeAngle_principal_value (angle : R) :
  - PI < PhaseSpace.normalizeAngle angle <= PI
  /\ (exists k : Z,
        PhaseSpace.normalizeAngle angle = angle + 2 * PI * IZR k)
  /\ sin (PhaseSpace.normalizeAngle angle) = sin angle
  /\ cos (PhaseSpace.normalizeAngle angle) = cos angle
  /\ (- PI < angle <= PI -> PhaseSpace.normalizeAngle angle = angle)
  /\ PhaseSpace.normalizeAngle (PhaseSpace.normalizeAngle angle)
     = PhaseSpace.normalizeAngle angle.
Proof.
  destruct (normalizeAngle_spec angle) as (Hrange & k & Hk).
  destruct (normalizeAngle_trig angle) as [Hsin Hcos].
  split; [exact Hrange |].
  split; [now exists k |].
  split; [exact Hsin |].
  split; [exact Hcos |].
  split; [apply normalizeAngle_identity |].
  apply normalizeAngle_identity, Hrange.
Qed.

Lemma phase_click_initial (rect : DOM.Rect) (clientX clientY : R)
  (sim : PendulumSimulation) (h : Host) :
  fst (Sim.getInitialState
         (snd (PhaseSpace.handleClick (Some rect) clientX clientY (sim, h))))
  = mkState ((clientX - DOM.left rect - DOM.width rect / 2) / 50)
            ((clientY - DOM.top rect - DOM.height rect / 2) / 50)
            (omega1 (initialState sim)) (omega2 (initialState sim)).
Proof.
  rewrite phase_click_is_reset, reset_result. reflexivity.
Qed.

Lemma velocity_click_initial (rect : DOM.Rect) (clientX clientY : R)
  (sim : PendulumSimulation) (h : Host) :
  fst (Sim.getInitialState
         (snd (VelocityPhaseSpace.handleClick (Some rect) clientX clientY
                 (sim, h))))
  = mkState (theta1 (initialState sim)) (theta2 (initialState sim))
            ((clientX - DOM.left rect - DOM.width rect / 2) / 160)
            ((clientY - DOM.top rect - DOM.height rect / 2) / 160).
Proof.
  rewrite velocity_click_is_reset, reset_result. reflexivity.
Qed.

Lemma dot_coordinate (centre click : R) :
  let dot := centre + PhaseSpace.normalizeAngle ((click - centre) / 50) * 50 in
  (exists k : Z, dot = click + 100 * PI * IZR k)
  /\ (- (50 * PI) < click - centre <= 50 * PI -> dot = click)
  /\ (50 * PI < click - centre <= 150 * PI -> dot = click - 100 * PI).
Proof.
  intro dot. pose proof PI_RGT_0 as Hpi.
  destruct (normalizeAngle_spec ((click - centre) / 50)) as (Hrange & k & Hk).
  assert (Hdot : dot = click + 100 * PI * IZR k).
  { unfold dot. rewrite Hk. field. }
  split; [now exists k |].
  split; intro Hc.
  - assert (k = 0%Z) as ->.
    { apply (turns_zero (PhaseSpace.normalizeAngle ((click - centre) / 50))
               ((click - centre) / 50) 0); [lra | lra | exact Hk]. }
    lra.
  - assert ((k + 1)%Z = 0%Z) as Hk1.
    { apply (turns_zero (PhaseSpace.normalizeAngle ((click - centre) / 50))
               ((click - centre) / 50 - 2 * PI) 0); [lra | lra |].
      rewrite plus_IZR. lra. }
    assert (k = (-1)%Z) as -> by lia.
    lra.
Qed.

(** X21: where the start dot appears after a click.  In the velocity view
    the red dot is drawn exactly where the user clicked.  In the angle view
    the blue dot is drawn where the user clicked only if the click is within
    [50 * pi] pixels of the centre in both directions; in general it
    appears a whole number of times [100 * pi] pixels away, and a click
    between [50 * pi] and [150 * pi] pixels right of the centre puts
    the dot [100 * pi] pixels to the left of the click. *)
Theorem start_dot_after_click
  (rect : DOM.Rect) (clientX clientY : R) (sim : PendulumSimulation)
  (h : Host) :
  let cx := DOM.width rect / 2 in
  let cy := DOM.height rect / 2 in
  let clickX := clientX - DOM.left rect in
  let clickY := clientY - DOM.top rect in
  let angles :=
    fst (Sim.getInitialState
           (snd (PhaseSpace.handleClick (Some rect) clientX clientY
                   (sim, h)))) in
  let velocities :=
    fst (Sim.getInitialState
           (snd (VelocityPhaseSpace.handleClick (Some rect) clientX clientY
                   (sim, h)))) in
  let blue := PhaseSpace.startPosition cx cy angles in
  VelocityPhaseSpace.startPosition cx cy velocities = (clickX, clickY)
  /\ (exists k l : Z,
        blue = (clickX + 100 * PI * IZR k, clickY + 100 * PI * IZR l))
  /\ (- (50 * PI) < clickX - cx <= 50 * PI ->
      - (50 * PI) < clickY - cy <= 50 * PI -> blue = (clickX, clickY))
  /\ (50 * PI < clickX - cx <= 150 * PI -> fst blue = clickX - 100 * PI).
Proof.
  intros cx cy clickX clickY angles velocities blue.
  unfold blue, angles, velocities.
  rewrite phase_click_initial, velocity_click_initial.
  unfold PhaseSpace.startPosition, VelocityPhaseSpace.startPosition,
    PhaseSpace.scale, VelocityPhaseSpace.scale.
  cbn [theta1 theta2 omega1 omega2]. fold cx cy clickX clickY.
  destruct (dot_coordinate cx clickX) as ((k & Hk) & Hx & Hx').
  destruct (dot_coordinate cy clickY) as ((l & Hl) & Hy & _).
  cbv zeta in Hk, Hl, Hx, Hy, Hx'.
  split; [f_equal; field |].
  split; [exists k, l; now rewrite Hk, Hl |].
  split.
  - intros Hcx Hcy. now rewrite (Hx Hcx), (Hy Hcy).
  - intro Hcx. cbn [fst]. exact (Hx' Hcx).
Qed.

Lemma segment_in_box (cx cy : R) (curr next : PendulumState) (s : Segment) :
  PhaseSpace.segment cx cy curr next = Some s ->
  cx - PI * 50 < fromX s <= cx + PI * 50
  /\ cy - PI * 50 < fromY s <= cy + PI * 50
  /\ cx - PI * 50 < toX s <= cx + PI * 50
  /\ cy - PI * 50 < toY s <= cy + PI * 50
  /\ Rabs (toX s - fromX s) < PI * 50
  /\ Rabs (toY s - fromY s) < PI * 50.
Proof.
  unfold PhaseSpace.segment, PhaseSpace.scale. cbv zeta.
  destruct (normalizeAngle_spec (theta1 curr)) as (H1 & _).
  destruct (normalizeAngle_spec (theta2 curr)) as (H2 & _).
  destruct (normalizeAngle_spec (theta1 next)) as (H3 & _).
  destruct (normalizeAngle_spec (theta2 next)) as (H4 & _).
  set (t1 := PhaseSpace.normalizeAngle (theta1 curr)) in *.
  set (t2 := PhaseSpace.normalizeAngle (theta2 curr)) in *.
  set (nt1 := PhaseSpace.normalizeAngle (theta1 next)) in *.
  set (nt2 := PhaseSpace.normalizeAngle (theta2 next)) in *.
  destruct (Rlt_dec (Rabs (t1 - nt1)) PI) as [Hj1 |]; [| discriminate].
  destruct (Rlt_dec (Rabs (t2 - nt2)) PI) as [Hj2 |]; [| discriminate].
  intro Heq. injection Heq as <-. cbn [fromX fromY toX toY].
  repeat split; try lra.
  - replace (cx + nt1 * 50 - (cx + t1 * 50)) with (- ((t1 - nt1) * 50))
      by ring.
    rewrite Rabs_Ropp, Rabs_mult, (Rabs_pos_eq 50) by lra. lra.
  - replace (cy + nt2 * 50 - (cy + t2 * 50)) with (- ((t2 - nt2) * 50))
      by ring.
    rewrite Rabs_Ropp, Rabs_mult, (Rabs_pos_eq 50) by lra. lra.
Qed.

(** X22: the trail of the angle view stays inside the boundary box and
    never crosses it.  Every segment that [draw] adds for a history has
    both end points inside the square of side [2 * pi * scale] about the
    centre that [draw] outlines, and spans less than half of the square in
    each direction; a history of [n] states adds at most [n - 1] segments,
    and the history of one state that [reset] delivers adds none. *)
Theorem trail_stays_in_the_box
  (cx cy : R) (history : list PendulumState) (s : Segment) :
  In s (PhaseSpace.trail cx cy history) ->
  (cx - PI * PhaseSpace.scale < fromX s <= cx + PI * PhaseSpace.scale
   /\ cy - PI * PhaseSpace.scale < fromY s <= cy + PI * PhaseSpace.scale
   /\ cx - PI * PhaseSpace.scale < toX s <= cx + PI * PhaseSpace.scale
   /\ cy - PI * PhaseSpace.scale < toY s <= cy + PI * PhaseSpace.scale
   /\ Rabs (toX s - fromX s) < PI * PhaseSpace.scale
   /\ Rabs (toY s - fromY s) < PI * PhaseSpace.scale)
  /\ (length (PhaseSpace.trail cx cy history) <= length history - 1)%nat
  /\ (2 <= length history)%nat.
Proof.
  unfold PhaseSpace.scale.
  assert (Hlen : forall l, (length (PhaseSpace.trail cx cy l)
                            <= length l - 1)%nat).
  { induction l as [| curr rest IH]; [cbn; lia |].
    cbn [PhaseSpace.trail]. destruct rest as [| next rest]; [cbn; lia |].
    destruct (PhaseSpace.segment cx cy curr next); cbn [length] in *; lia. }
  intro Hin. split; [| split; [apply Hlen |]].
  - induction history as [| curr rest IH]; [destruct Hin |].
    cbn [PhaseSpace.trail] in Hin.
    destruct rest as [| next rest]; [destruct Hin |].
    destruct (PhaseSpace.segment cx cy curr next) as [s' |] eqn:Hseg.
    + destruct Hin as [<- | Hin]; [| now apply IH].
      exact (segment_in_box cx cy curr next s' Hseg).
    + now apply IH.
  - pose proof (Hlen history) as H.
    destruct (PhaseSpace.trail cx cy history); [destruct Hin |].
    cbn [length] in H. lia.
Qed.

Lemma trail_stays_in_the_box_witness :
  (2 <= length [mkState 0 0 0 0; mkState 0 0 0 0])%nat.
Proof.
  refine (proj2 (proj2 (trail_stays_in_the_box 0 0
                          [mkState 0 0 0 0; mkState 0 0 0 0]
                          (mkSegment (0 + 0 * 50) (0 + 0 * 50)
                                     (0 + 0 * 50) (0 + 0 * 50)) _))).
  cbn [PhaseSpace.trail].
  assert (Hzero : PhaseSpace.normalizeAngle 0 = 0).
  { apply normalizeAngle_identity.
    pose proof PI_RGT_0. lra. }
  unfold PhaseSpace.segment. cbn [theta1 theta2]. rewrite Hzero.
  unfold PhaseSpace.scale.
  replace (0 - 0) with 0 by ring. rewrite Rabs_R0.
  destruct (Rlt_dec 0 PI) as [_ | Hbad];
    [| destruct Hbad; apply PI_RGT_0].
  left. reflexivity.
Defined.

End Angles.

Section RealSpaceView.

(** X23: the pendulum is drawn with rigid rods.  Whatever the state, the
    first mass is drawn 150 pixels from the pivot and the second mass 150
    pixels from the first, so the tip is never more than 300 pixels from
    the pivot; the picture depends on the angles only through their sine
    and cosine, so a state and the same state with normalised angles are
    drawn alike. *)
Theorem pendulum_is_drawn_rigid (cx cy : R) (state : PendulumState) :
  let c := RealSpace.getCoords cx cy state in
  (RealSpace.x1 c - cx) ^ 2 + (RealSpace.y1 c - cy) ^ 2 = 150 ^ 2
  /\ (RealSpace.x2 c - RealSpace.x1 c) ^ 2
     + (RealSpace.y2 c - RealSpace.y1 c) ^ 2 = 150 ^ 2
  /\ (RealSpace.x2 c - cx) ^ 2 + (RealSpace.y2 c - cy) ^ 2 <= 300 ^ 2
  /\ RealSpace.getCoords cx cy
       (mkState (PhaseSpace.normalizeAngle (theta1 state))
                (PhaseSpace.normalizeAngle (theta2 state))
                (omega1 state) (omega2 state))
     = c.
Proof.
  intro c. unfold c, RealSpace.getCoords.
  cbn [RealSpace.x1 RealSpace.y1 RealSpace.x2 RealSpace.y2 l1 l2
       DEFAULT_PARAMS theta1 theta2].
  pose proof (sin2_cos2 (theta1 state)) as H1.
  pose proof (sin2_cos2 (theta2 state)) as H2.
  unfold Rsqr in H1, H2.
  set (s1 := sin (theta1 state)) in *. set (c1 := cos (theta1 state)) in *.
  set (s2 := sin (theta2 state)) in *. set (c2 := cos (theta2 state)) in *.
  split; [nra |]. split; [nra |].
  split.
  { pose proof (pow2_ge_0 (s1 - s2)) as Hs.
    pose proof (pow2_ge_0 (c1 - c2)) as Hc. nra. }
  destruct (normalizeAngle_trig (theta1 state)) as [-> ->].
  destruct (normalizeAngle_trig (theta2 state)) as [-> ->].
  reflexivity.
Qed.

(** X24: the zero-velocity button goes back to the initial angles.
    [handleZeroVelocity] omits the two angles, and [reset] fills an omitted
    angle from the initial state, not from the live state: the new initial
    state has the angles of the old initial state and both velocities 0,
    whatever the live state was, and that state alone is the history
    delivered first.  Pressing the button again gives the same initial
    state. *)
Theorem zero_velocity_uses_initial_angles
  (sim : PendulumSimulation) (h : Host) :
  let target :=
    mkState (theta1 (initialState sim)) (theta2 (initialState sim)) 0 0 in
  let once := snd (RealSpace.handleZeroVelocity (sim, h)) in
  let twice := snd (RealSpace.handleZeroVelocity once) in
  fst (Sim.getInitialState once) = target
  /\ fst (Sim.getInitialState twice) = target
  /\ (forall live,
        fst (Sim.getInitialState
               (snd (RealSpace.handleZeroVelocity
                       (Sim.setState live sim, h)))) = target)
  /\ exists later,
       log (snd once)
       = log h ++ Sim.cancelled sim
         ++ map ResetDelivered (resetListeners sim)
         ++ map (fun cb => HistoryDelivered cb [target]) (subscribers sim)
         ++ later.
Proof.
  intros target once twice. subst once twice.
  unfold RealSpace.handleZeroVelocity.
  rewrite !reset_result. cbn [snd]. rewrite !reset_result.
  cbn [fst snd Sim.getInitialState Sim.bind Sim.this Sim.ret initialState
       log].
  split; [reflexivity |].
  split; [reflexivity |].
  split; [intro live; now rewrite reset_result |].
  eexists. reflexivity.
Qed.

End RealSpaceView.

Section Lifecycle.

Lemma setDelete_setAdd (cb : Callback) (l : list Callback) :
  ~ In cb l -> Sim.setDelete cb (Sim.setAdd cb l) = l.
Proof.
  intro Hnot. unfold Sim.setAdd, Sim.setDelete.
  destruct (in_dec Nat.eq_dec cb l) as [Hin | _]; [contradiction |].
  rewrite remove_app. cbn [remove].
  destruct (Nat.eq_dec cb cb) as [_ | Hne]; [| contradiction].
  rewrite app_nil_r. now apply notin_remove.
Qed.

Lemma setDelete_other (cb other : Callback) (l : list Callback) :
  ~ In cb l -> cb <> other ->
  Sim.setDelete cb (Sim.setAdd other (Sim.setAdd cb l))
  = Sim.setAdd other l.
Proof.
  intros Hnot Hne. unfold Sim.setAdd, Sim.setDelete.
  destruct (in_dec Nat.eq_dec cb l) as [Hin | _]; [contradiction |].
  destruct (in_dec Nat.eq_dec other (l ++ [cb])) as [Hin | Hout];
    destruct (in_dec Nat.eq_dec other l) as [Hin' | Hout'].
  - rewrite remove_app. cbn [remove].
    destruct (Nat.eq_dec cb cb) as [_ | Hbad]; [| contradiction].
    rewrite app_nil_r. now apply notin_remove.
  - apply in_app_or in Hin as [Hin | [Hin | []]]; [contradiction |].
    now destruct Hne.
  - destruct Hout. apply in_or_app. now left.
  - rewrite !remove_app. cbn [remove].
    destruct (Nat.eq_dec cb cb) as [_ | Hbad]; [| contradiction].
    destruct (Nat.eq_dec cb other) as [Heq | _]; [contradiction |].
    rewrite ?app_nil_r; cbn [app]. f_equal. now apply notin_remove.
Qed.

Lemma mount_result (draw clearTrail : Callback) (sim : PendulumSimulation)
  (h : Host) :
  Visualizer.mount draw clearTrail (sim, h)
  = (tt, (Sim.setSubscribers (Sim.setAdd draw (subscribers sim))
            (Sim.setResetListeners
               (Sim.setAdd clearTrail (resetListeners sim)) sim), h)).
Proof. reflexivity. Qed.

Lemma cleanup_result (draw clearTrail : Callback) (sim : PendulumSimulation)
  (h : Host) :
  Visualizer.cleanup draw clearTrail (sim, h)
  = (tt, (Sim.setResetListeners
            (Sim.setDelete clearTrail (resetListeners sim))
            (Sim.setSubscribers (Sim.setDelete draw (subscribers sim)) sim),
          h)).
Proof. reflexivity. Qed.

(** X25: a visualizer leaves no callback behind.  When its [draw] and
    [clearTrail] are not registered yet, mounting registers both, and the
    clean-up function gives back the simulation exactly as it was before
    the mount.  Another visualizer mounted in between keeps its own
    callbacks when the first one is cleaned up. *)
Theorem mount_then_cleanup_restores
  (draw clearTrail draw' clearTrail' : Callback)
  (sim : PendulumSimulation) (h : Host) :
  ~ In draw (subscribers sim) ->
  ~ In clearTrail (resetListeners sim) ->
  draw <> draw' -> clearTrail <> clearTrail' ->
  let mounted := snd (Visualizer.mount draw clearTrail (sim, h)) in
  let both := snd (Visualizer.mount draw' clearTrail' mounted) in
  In draw (subscribers (fst mounted))
  /\ In clearTrail (resetListeners (fst mounted))
  /\ snd (Visualizer.cleanup draw clearTrail mounted) = (sim, h)
  /\ snd (Visualizer.cleanup draw clearTrail both)
     = snd (Visualizer.mount draw' clearTrail' (sim, h)).
Proof.
  intros Hd Hc Hdd Hcc mounted both. subst both mounted.
  rewrite !mount_result. cbn [snd]. rewrite !mount_result.
  cbn [snd]. rewrite !cleanup_result.
  destruct sim as [s i p subs resets frame running speed].
  cbn [subscribers resetListeners] in Hd, Hc.
  unfold Sim.setSubscribers, Sim.setResetListeners.
  cbn [fst snd subscribers resetListeners state initialState params
       animationFrameId isRunning speedMultiplier].
  rewrite !setDelete_setAdd by assumption.
  rewrite !setDelete_other by assumption.
  repeat split.
  - unfold Sim.setAdd.
    destruct (in_dec Nat.eq_dec draw subs); [contradiction |].
    apply in_or_app. right. now left.
  - unfold Sim.setAdd.
    destruct (in_dec Nat.eq_dec clearTrail resets); [contradiction |].
    apply in_or_app. right. now left.
Qed.

Lemma mount_then_cleanup_restores_witness :
  snd (Visualizer.cleanup 0%nat 1%nat
         (snd (Visualizer.mount 0%nat 1%nat
                 (Sim.newDefault, Sim.freshHost (fun _ => 0)))))
  = (Sim.newDefault, Sim.freshHost (fun _ => 0)).
Proof.
  refine (proj1 (proj2 (proj2 (mount_then_cleanup_restores 0%nat 1%nat
                                 2%nat 3%nat Sim.newDefault
                                 (Sim.freshHost (fun _ => 0)) _ _ _ _))));
    cbn; intuition lia.
Defined.

End Lifecycle.

(** ** The stand-alone component *)

Section StandAlone.

Lemma legacy_getDerivatives (state : PendulumState)
  (params : PhysicsParams) :
  Legacy.getDerivatives state params = getDerivatives state params.
Proof. destruct state, params. reflexivity. Qed.

Lemma legacy_step (state : PendulumState) (dt : R) :
  Legacy.integrateRK4 state dt = integrateRK4Step state DEFAULT_PARAMS dt.
Proof.
  unfold Legacy.integrateRK4. cbv zeta.
  rewrite !legacy_getDerivatives. reflexivity.
Qed.

Lemma legacy_loop (n : nat) (dt : R) (state : PendulumState) :
  Legacy.integrateLoop n dt state = repeatStep n state DEFAULT_PARAMS dt.
Proof.
  revert state; induction n as [| n IH]; intro state; [reflexivity |].
  cbn [Legacy.integrateLoop repeatStep]. now rewrite legacy_step, IH.
Qed.

(** X26: the stand-alone component integrates as the library does.  Its
    constants are those of physics.ts, its copy of the derivative function
    computes the same derivatives, and its integrator, although it updates
    the state object in place field by field, leaves in it exactly the state
    that [integrateRK4Step] returns for the default parameters; a frame makes
    ten such steps of 0.04.  A restart picks the start that [reset()] of the
    simulation class picks for the same two random draws, and empties the
    trace. *)
Theorem stand_alone_integrator_agrees
  (state : PendulumState) (params : PhysicsParams) (dt : R)
  (width height : R) (trace : list Types.Point)
  (sim : PendulumSimulation) (h : Host) :
  let restarted :=
    Legacy.handleRestart (randomSource h (randomsDrawn h))
      (randomSource h (S (randomsDrawn h))) (Legacy.mkRefs state trace) in
  Legacy.PARAMS = DEFAULT_PARAMS
  /\ Legacy.INITIAL_STATE = INITIAL_STATE
  /\ Legacy.getDerivatives state params = getDerivatives state params
  /\ Legacy.integrateRK4 state dt = integrateRK4Step state DEFAULT_PARAMS dt
  /\ Legacy.stateRef
       (Legacy.animate (Some (width, height)) (Legacy.mkRefs state trace))
     = repeatStep 10 state DEFAULT_PARAMS 0.04
  /\ Legacy.animate None (Legacy.mkRefs state trace)
     = Legacy.mkRefs state trace
  /\ Legacy.stateRef restarted
     = Sim.stateAssigned None None None None sim h
  /\ Legacy.traceRef restarted = [].
Proof.
  intro restarted.
  split; [reflexivity |]. split; [reflexivity |].
  split; [apply legacy_getDerivatives |].
  split; [apply legacy_step |].
  split; [| repeat split].
  cbn [Legacy.animate Legacy.draw Legacy.stateRef].
  rewrite legacy_loop. unfold Legacy.stepsPerFrame. f_equal.
  cbn [INR]. lra.
Qed.

Lemma addToTrace_window (trace : list Types.Point) (p : Types.Point) :
  (length trace <= 2000)%nat ->
  Legacy.addToTrace trace p
  = skipn (length trace + 1 - 2000) (trace ++ [p])
  /\ (length (Legacy.addToTrace trace p) <= 2000)%nat.
Proof.
  intro Hlen. unfold Legacy.addToTrace, Legacy.MAX_TRACE_LENGTH.
  assert (Hl : length (trace ++ [p]) = (length trace + 1)%nat).
  { rewrite length_app. reflexivity. }
  destruct (Nat.ltb_spec 2000 (length (trace ++ [p]))) as [Hlong | Hshort].
  - replace (length trace + 1 - 2000)%nat with 1%nat by lia.
    split; [now destruct (trace ++ [p]) |].
    destruct (trace ++ [p]); cbn [tl length] in *; lia.
  - replace (length trace + 1 - 2000)%nat with 0%nat by lia.
    split; [reflexivity | lia].
Qed.

Lemma addToTrace_all (ps : list Types.Point) :
  forall trace : list Types.Point,
  (length trace <= 2000)%nat ->
  fold_left Legacy.addToTrace ps trace
  = skipn (length trace + length ps - 2000) (trace ++ ps).
Proof.
  induction ps as [| p ps IH]; intros trace Hlen.
  - cbn [fold_left length]. rewrite app_nil_r.
    now replace (length trace + 0 - 2000)%nat with 0%nat by lia.
  - cbn [fold_left length].
    destruct (addToTrace_window trace p Hlen) as [Heq Hle].
    rewrite (IH _ Hle), Heq.
    assert (Hd : (length trace + 1 - 2000 <= length (trace ++ [p]))%nat).
    { rewrite length_app. cbn [length]. lia. }
    set (d := (length trace + 1 - 2000)%nat) in *.
    replace (skipn d (trace ++ [p]) ++ ps)
      with (skipn d ((trace ++ [p]) ++ ps)).
    2:{ rewrite skipn_app.
        replace (d - length (trace ++ [p]))%nat with 0%nat by lia.
        reflexivity. }
    rewrite skipn_skipn, length_skipn, length_app, <- app_assoc.
    cbn [length app]. f_equal. unfold d. lia.
Qed.

Lemma frames_refs (n : nat) (width height : R) (refs : Legacy.Refs) :
  let stateAt := fun i : nat =>
    repeatStep (10 * i) (Legacy.stateRef refs) DEFAULT_PARAMS 0.04 in
  Legacy.stateRef (Legacy.frames n width height refs) = stateAt n
  /\ Legacy.traceRef (Legacy.frames n width height refs)
     = fold_left Legacy.addToTrace
         (map (fun i => Legacy.tip width height (stateAt i)) (seq 1 n))
         (Legacy.traceRef refs).
Proof.
  intro stateAt. unfold Legacy.frames.
  induction n as [| n [IHs IHt]]; [split; reflexivity |].
  rewrite Nat.iter_succ.
  set (before := Nat.iter n _ refs) in *.
  assert (Hstate : Legacy.stateRef
                     (Legacy.animate (Some (width, height)) before)
                   = stateAt (S n)).
  { destruct before as [s t]. cbn [Legacy.stateRef] in IHs.
    cbn [Legacy.animate Legacy.draw Legacy.stateRef].
    rewrite legacy_loop, IHs. unfold stateAt, Legacy.stepsPerFrame.
    replace (0.4 / INR 10) with 0.04 by (cbn [INR]; lra).
    rewrite <- repeatStep_add. f_equal. lia. }
  split; [exact Hstate |].
  rewrite seq_S, map_app, fold_left_app. cbn [map fold_left Nat.add].
  rewrite <- IHt, <- Hstate.
  destruct before as [s t]. reflexivity.
Qed.

(** X27: the trace is a sliding window of the last 2000 tip positions.
    Starting from a trace of at most 2000 points, after [n] frames the trace
    is the old trace followed by the tip positions of the [n] states the
    frames reached, cut down from the front to the last 2000 points; so it
    never holds more than 2000 points, and nothing is dropped before there
    are more. *)
Theorem trace_is_a_sliding_window
  (n : nat) (width height : R) (refs : Legacy.Refs) :
  (length (Legacy.traceRef refs) <= Legacy.MAX_TRACE_LENGTH)%nat ->
  let stateAt := fun i : nat =>
    repeatStep (10 * i) (Legacy.stateRef refs) DEFAULT_PARAMS 0.04 in
  let tips := map (fun i => Legacy.tip width height (stateAt i)) (seq 1 n) in
  let after := Legacy.frames n width height refs in
  Legacy.stateRef after = stateAt n
  /\ Legacy.traceRef after
     = skipn (length (Legacy.traceRef refs) + n - 2000)
             (Legacy.traceRef refs ++ tips)
  /\ length (Legacy.traceRef after)
     = Nat.min (length (Legacy.traceRef refs) + n) 2000
  /\ ((length (Legacy.traceRef refs) + n <= 2000)%nat ->
      Legacy.traceRef after = Legacy.traceRef refs ++ tips).
Proof.
  intros Hlen. cbv zeta.
  unfold Legacy.MAX_TRACE_LENGTH in Hlen.
  destruct (frames_refs n width height refs) as [Hs Ht].
  cbv zeta in Hs, Ht.
  set (tips := map _ (seq 1 n)) in *.
  set (after := Legacy.frames n width height refs) in *.
  assert (Htips : length tips = n).
  { unfold tips. now rewrite length_map, length_seq. }
  clearbody tips after.
  assert (Hwin : Legacy.traceRef after
                 = skipn (length (Legacy.traceRef refs) + n - 2000)
                         (Legacy.traceRef refs ++ tips)).
  { rewrite Ht, addToTrace_all by exact Hlen. now rewrite Htips. }
  split; [exact Hs |].
  split; [exact Hwin |].
  split.
  - rewrite Hwin, length_skipn, length_app, Htips. lia.
  - intro Hfew. rewrite Hwin.
    now replace (length (Legacy.traceRef refs) + n - 2000)%nat
      with 0%nat by lia.
Qed.

Lemma trace_is_a_sliding_window_witness :
  length (Legacy.traceRef
            (Legacy.frames 3 800 600
               (Legacy.mkRefs Legacy.INITIAL_STATE [])))
  = Nat.min (0 + 3) 2000.
Proof.
  refine (proj1 (proj2 (proj2 (trace_is_a_sliding_window 3 800 600
                                 (Legacy.mkRefs Legacy.INITIAL_STATE [])
                                 _)))).
  cbn. lia.
Defined.

End StandAlone.

(** ** Symmetries of the integrator *)

Section Symmetry.

Variable params : PhysicsParams.

Lemma getDerivatives_mirror (s : PendulumState) :
  getDerivatives (mirror s) params = opposite (getDerivatives s params).
Proof.
  destruct s as [t1 t2 o1 o2]. destruct params as [pl1 pl2 pm1 pm2 pg].
  unfold getDerivatives, opposite, mirror, Deriv.alpha1, Deriv.alpha2,
    Deriv.num1, Deriv.num2, Deriv.den1, Deriv.den2, Deriv.delta.
  cbn [theta1 theta2 omega1 omega2 l1 l2 m1 m2 g
       dTheta1 dTheta2 dOmega1 dOmega2].
  replace (- t1 - - t2) with (- (t1 - t2)) by ring.
  replace (2 * - t1 - 2 * - t2) with (- (2 * t1 - 2 * t2)) by ring.
  replace (- t1 - 2 * - t2) with (- (t1 - 2 * t2)) by ring.
  rewrite !sin_neg, !cos_neg.
  f_equal; unfold Rdiv; ring.
Qed.

Lemma step_mirror (s : PendulumState) (dt : R) :
  integrateRK4Step (mirror s) params dt
  = mirror (integrateRK4Step s params dt).
Proof.
  assert (H2 : RK4.s2 (mirror s) params dt = mirror (RK4.s2 s params dt)).
  { unfold RK4.s2, RK4.k1. rewrite getDerivatives_mirror.
    unfold mirror, opposite. cbn [theta1 theta2 omega1 omega2 dTheta1
      dTheta2 dOmega1 dOmega2]. f_equal; ring. }
  assert (H3 : RK4.s3 (mirror s) params dt = mirror (RK4.s3 s params dt)).
  { unfold RK4.s3, RK4.k2. rewrite H2, getDerivatives_mirror.
    unfold mirror, opposite. cbn [theta1 theta2 omega1 omega2 dTheta1
      dTheta2 dOmega1 dOmega2]. f_equal; ring. }
  assert (H4 : RK4.s4 (mirror s) params dt = mirror (RK4.s4 s params dt)).
  { unfold RK4.s4, RK4.k3. rewrite H3, getDerivatives_mirror.
    unfold mirror, opposite. cbn [theta1 theta2 omega1 omega2 dTheta1
      dTheta2 dOmega1 dOmega2]. f_equal; ring. }
  unfold integrateRK4Step, RK4.k4, RK4.k3, RK4.k2, RK4.k1. cbv zeta.
  rewrite H4, H3, H2, !getDerivatives_mirror.
  unfold mirror at 5, opposite.
  cbn [theta1 theta2 omega1 omega2 dTheta1 dTheta2 dOmega1 dOmega2].
  unfold mirror at 1 2 3 4.
  cbn [theta1 theta2 omega1 omega2].
  f_equal; ring.
Qed.

(** X28: the integrator respects the mirror symmetry of the pendulum.
    Negating every angle and velocity of a state negates its derivatives,
    so a step from the mirror image of a state gives the mirror image of the
    step, for every step size and all parameters, and so does every number
    of steps. *)
Theorem integrator_mirror_symmetry
  (s : PendulumState) (dt : R) (n : nat) :
  getDerivatives (mirror s) params = opposite (getDerivatives s params)
  /\ integrateRK4Step (mirror s) params dt
     = mirror (integrateRK4Step s params dt)
  /\ repeatStep n (mirror s) params dt = mirror (repeatStep n s params dt).
Proof.
  split; [apply getDerivatives_mirror |].
  split; [apply step_mirror |].
  revert s; induction n as [| n IH]; intro s; [reflexivity |].
  cbn [repeatStep]. now rewrite step_mirror, IH.
Qed.

Lemma getDerivatives_turned (j k : Z) (s : PendulumState) :
  getDerivatives (turned j k s) params = getDerivatives s params.
Proof.
  destruct s as [t1 t2 o1 o2]. destruct params as [pl1 pl2 pm1 pm2 pg].
  unfold getDerivatives, turned, Deriv.alpha1, Deriv.alpha2,
    Deriv.num1, Deriv.num2, Deriv.den1, Deriv.den2, Deriv.delta.
  cbn [theta1 theta2 omega1 omega2 l1 l2 m1 m2 g
       dTheta1 dTheta2 dOmega1 dOmega2].
  replace (t1 + 2 * PI * IZR j - (t2 + 2 * PI * IZR k))
    with (t1 - t2 + 2 * PI * IZR (j - k))
    by (rewrite minus_IZR; ring).
  replace (2 * (t1 + 2 * PI * IZR j) - 2 * (t2 + 2 * PI * IZR k))
    with (2 * t1 - 2 * t2 + 2 * PI * IZR (2 * j - 2 * k))
    by (rewrite minus_IZR, !mult_IZR; ring).
  replace (t1 + 2 * PI * IZR j - 2 * (t2 + 2 * PI * IZR k))
    with (t1 - 2 * t2 + 2 * PI * IZR (j - 2 * k))
    by (rewrite minus_IZR, mult_IZR; ring).
  rewrite !sin_period_Z, !cos_period_Z. reflexivity.
Qed.

Lemma step_turned (j k : Z) (s : PendulumState) (dt : R) :
  integrateRK4Step (turned j k s) params dt
  = turned j k (integrateRK4Step s params dt).
Proof.
  assert (H2 : RK4.s2 (turned j k s) params dt
               = turned j k (RK4.s2 s params dt)).
  { unfold RK4.s2, RK4.k1. rewrite getDerivatives_turned.
    unfold turned. cbn [theta1 theta2 omega1 omega2]. f_equal; ring. }
  assert (H3 : RK4.s3 (turned j k s) params dt
               = turned j k (RK4.s3 s params dt)).
  { unfold RK4.s3, RK4.k2. rewrite H2, getDerivatives_turned.
    unfold turned. cbn [theta1 theta2 omega1 omega2]. f_equal; ring. }
  assert (H4 : RK4.s4 (turned j k s) params dt
               = turned j k (RK4.s4 s params dt)).
  { unfold RK4.s4, RK4.k3. rewrite H3, getDerivatives_turned.
    unfold turned. cbn [theta1 theta2 omega1 omega2]. f_equal; ring. }
  unfold integrateRK4Step, RK4.k4, RK4.k3, RK4.k2, RK4.k1. cbv zeta.
  rewrite H4, H3, H2, !getDerivatives_turned.
  unfold turned. cbn [theta1 theta2 omega1 omega2].
  f_equal; ring.
Qed.

(** X29: whole turns do not matter to the motion.  Adding whole turns to
    the angles of a state leaves its derivatives as they are, so the
    trajectory from the turned state is the turned trajectory: same
    velocities, angles that differ by the same whole turns.  The angle view
    therefore shows the same normalised angles for both. *)
Theorem integrator_ignores_whole_turns
  (j k : Z) (s : PendulumState) (dt : R) (n : nat) :
  getDerivatives (turned j k s) params = getDerivatives s params
  /\ integrateRK4Step (turned j k s) params dt
     = turned j k (integrateRK4Step s params dt)
  /\ repeatStep n (turned j k s) params dt
     = turned j k (repeatStep n s params dt)
  /\ PhaseSpace.normalizeAngle
       (theta1 (repeatStep n (turned j k s) params dt))
     = PhaseSpace.normalizeAngle (theta1 (repeatStep n s params dt))
  /\ PhaseSpace.normalizeAngle
       (theta2 (repeatStep n (turned j k s) params dt))
     = PhaseSpace.normalizeAngle (theta2 (repeatStep n s params dt)).
Proof.
  assert (Hn : forall m s0, repeatStep m (turned j k s0) params dt
                            = turned j k (repeatStep m s0 params dt)).
  { induction m as [| m IH]; intro s0; [reflexivity |].
    cbn [repeatStep]. now rewrite step_turned, IH. }
  assert (Hnorm : forall a (i : Z),
            PhaseSpace.normalizeAngle (a + 2 * PI * IZR i)
            = PhaseSpace.normalizeAngle a).
  { intros a i.
    destruct (normalizeAngle_spec (a + 2 * PI * IZR i)) as (Hr1 & k1 & Hk1).
    destruct (normalizeAngle_spec a) as (Hr2 & k2 & Hk2).
    assert ((i + k1 - k2)%Z = 0%Z) as Hz.
    { apply (turns_zero (PhaseSpace.normalizeAngle (a + 2 * PI * IZR i))
               (PhaseSpace.normalizeAngle a) 0); [lra | lra |].
      rewrite minus_IZR, plus_IZR. lra. }
    assert (IZR k1 = IZR k2 - IZR i) as Hi.
    { rewrite <- minus_IZR. f_equal. lia. }
    rewrite Hk1, Hk2, Hi. ring. }
  split; [apply getDerivatives_turned |].
  split; [apply step_turned |].
  split; [apply Hn |].
  rewrite Hn. unfold turned. cbn [theta1 theta2].
  split; apply Hnorm.
Qed.

End Symmetry.
